(** * angular-webstorage: a shallow embedding of the webStorage service

    The service (angular-webstorage.js, v0.14.0) offers a generic key/value
    API that walks a configurable order of storage engines (local, session,
    memory), and a direct API for each engine.  Values are stored as JSON
    text in [window.localStorage] / [window.sessionStorage]; when one of
    those objects is missing the factory installs an emulation that keeps
    the entries in [document.cookie].

    The development has three layers:
    - the platform the script runs on (JavaScript values, JSON, [escape],
      Storage objects, the cookie jar);
    - the closure state of the factory and its private functions, written
      in a state-and-exception monad;
    - the public [webStorage] object and the properties proved about it.

    The array utilities of angular-webstorage-utils.js are included, as
    functions of the engine object they are called on. *)

From Stdlib Require Import String Ascii List ZArith Bool Lia.
From Stdlib Require Import Decimal DecimalZ DecimalPos DecimalString.
Import ListNotations.
Local Open Scope string_scope.
Set Warnings "-register-all".

(** ** JavaScript values *)

(** The values that callers hand to [set].  Numbers are the integers; a
    [JCircular] is an object that refers to itself ([var o = {}; o.self = o]);
    a [JFunction] is any function value.  An object is the list of its own
    properties in enumeration order.  Two values are deep-equal when they
    are equal. *)
Inductive jsval : Type :=
| JUndefined
| JNull
| JBool (b : bool)
| JNum (n : Z)
| JStr (s : string)
| JArr (elems : list jsval)
| JObj (fields : list (string * jsval))
| JFunction
| JCircular.

(** [x === null] *)
Definition is_null (v : jsval) : bool :=
  match v with JNull => true | _ => false end.

(** [x === true] *)
Definition is_true (v : jsval) : bool :=
  match v with JBool true => true | _ => false end.

(** Errors carry what [croak] reads from them: [error.title] (undefined on
    every built-in error) and [error.message]. *)
Record jserror : Type := mkError {
  err_title : option string;
  err_message : string
}.

Definition TypeError (msg : string) : jserror := mkError None msg.
Definition SyntaxError (msg : string) : jserror := mkError None msg.
Definition QuotaExceededError : jserror := mkError None "The quota has been exceeded.".

(** Result of evaluating a platform primitive: a value or a raised error. *)
Inductive completion (A : Type) : Type :=
| Normal (a : A)
| Abrupt (e : jserror).
Arguments Normal {A} a.
Arguments Abrupt {A} e.

(** ** Association lists

    Property order is observable ([key], [for .. in]), so objects and
    Storage contents are association lists in insertion order. *)
Section AList.
Context {V : Type}.

Fixpoint alist_get (k : string) (l : list (string * V)) : option V :=
  match l with
  | [] => None
  | (k', v) :: r => if String.eqb k k' then Some v else alist_get k r
  end.

(** Assignment keeps the position of an existing key, else appends. *)
Fixpoint alist_set (k : string) (v : V) (l : list (string * V)) : list (string * V) :=
  match l with
  | [] => [(k, v)]
  | (k', v') :: r =>
      if String.eqb k k' then (k, v) :: r else (k', v') :: alist_set k v r
  end.

Fixpoint alist_remove (k : string) (l : list (string * V)) : list (string * V) :=
  match l with
  | [] => []
  | (k', v') :: r =>
      if String.eqb k k' then alist_remove k r else (k', v') :: alist_remove k r
  end.

Definition alist_mem (k : string) (l : list (string * V)) : bool :=
  match alist_get k l with Some _ => true | None => false end.

End AList.

(** ** JSON

    [JSON.stringify] and [JSON.parse] of the platform, on the values above.
    Strings are byte strings; numbers are printed and read in decimal. *)

Definition dquote : ascii := ascii_of_nat 34.
Definition backslash : ascii := ascii_of_nat 92.

Definition hex_digit (upper : bool) (n : N) : ascii :=
  if (n <? 10)%N then ascii_of_N (48 + n)
  else ascii_of_N ((if upper then 55 else 87) + n).

Definition hex_value (c : ascii) : option N :=
  let n := N_of_ascii c in
  if ((48 <=? n) && (n <=? 57))%N then Some (n - 48)%N
  else if ((65 <=? n) && (n <=? 70))%N then Some (n - 55)%N
  else if ((97 <=? n) && (n <=? 102))%N then Some (n - 87)%N
  else None.

(** One character of a quoted JSON string (ES5 15.12.3, Quote). *)
Definition json_quote_char (c : ascii) : string :=
  let n := N_of_ascii c in
  if Ascii.eqb c dquote then String backslash (String dquote EmptyString)
  else if Ascii.eqb c backslash then String backslash (String backslash EmptyString)
  else if (n =? 8)%N then String backslash "b"
  else if (n =? 12)%N then String backslash "f"
  else if (n =? 10)%N then String backslash "n"
  else if (n =? 13)%N then String backslash "r"
  else if (n =? 9)%N then String backslash "t"
  else if (n <? 32)%N then
    String backslash (String "u" (String "0" (String "0"
      (String (hex_digit false (n / 16)) (String (hex_digit false (n mod 16)) EmptyString)))))
  else String c EmptyString.

Fixpoint json_quote_body (s : string) : string :=
  match s with
  | EmptyString => EmptyString
  | String c r => json_quote_char c ++ json_quote_body r
  end.

Definition json_quote (s : string) : string :=
  String dquote (json_quote_body s ++ String dquote EmptyString).

Definition string_of_Z (n : Z) : string := NilZero.string_of_int (Z.to_int n).

Fixpoint join_comma (l : list string) : string :=
  match l with
  | [] => EmptyString
  | [x] => x
  | x :: r => x ++ "," ++ join_comma r
  end.

(** [JSON.stringify(v)]: [Normal None] is the result [undefined] (a function
    or [undefined] at top level), [Abrupt] the TypeError raised on a circular
    structure.  Inside an array [undefined] and functions are written as
    [null]; inside an object such properties are left out. *)
Fixpoint JSON_stringify (v : jsval) : completion (option string) :=
  match v with
  | JUndefined | JFunction => Normal None
  | JNull => Normal (Some "null")
  | JBool true => Normal (Some "true")
  | JBool false => Normal (Some "false")
  | JNum n => Normal (Some (string_of_Z n))
  | JStr s => Normal (Some (json_quote s))
  | JArr elems =>
      let fix items (l : list jsval) : completion (list string) :=
        match l with
        | [] => Normal []
        | x :: r =>
            match JSON_stringify x with
            | Abrupt e => Abrupt e
            | Normal o =>
                match items r with
                | Abrupt e => Abrupt e
                | Normal t => Normal (match o with Some s => s | None => "null" end :: t)
                end
            end
        end in
      match items elems with
      | Abrupt e => Abrupt e
      | Normal t => Normal (Some ("[" ++ join_comma t ++ "]"))
      end
  | JObj fields =>
      let fix members (l : list (string * jsval)) : completion (list string) :=
        match l with
        | [] => Normal []
        | (k, x) :: r =>
            match JSON_stringify x with
            | Abrupt e => Abrupt e
            | Normal o =>
                match members r with
                | Abrupt e => Abrupt e
                | Normal t =>
                    Normal (match o with
                            | Some s => (json_quote k ++ ":" ++ s) :: t
                            | None => t
                            end)
                end
            end
        end in
      match members fields with
      | Abrupt e => Abrupt e
      | Normal t => Normal (Some ("{" ++ join_comma t ++ "}"))
      end
  | JCircular => Abrupt (TypeError "Converting circular structure to JSON")
  end.

(** *** Reading JSON text *)

Definition is_ws (c : ascii) : bool :=
  let n := N_of_ascii c in
  ((n =? 32) || (n =? 9) || (n =? 10) || (n =? 13))%N.

Fixpoint skip_ws (s : string) : string :=
  match s with
  | String c r => if is_ws c then skip_ws r else s
  | EmptyString => s
  end.

Definition digit_of_char (c : ascii) : option (uint -> uint) :=
  match N_of_ascii c with
  | 48%N => Some D0 | 49%N => Some D1 | 50%N => Some D2 | 51%N => Some D3
  | 52%N => Some D4 | 53%N => Some D5 | 54%N => Some D6 | 55%N => Some D7
  | 56%N => Some D8 | 57%N => Some D9
  | _ => None
  end.

Fixpoint read_digits (s : string) : uint * string :=
  match s with
  | String c r =>
      match digit_of_char c with
      | Some d => let (u, r') := read_digits r in (d u, r')
      | None => (Nil, s)
      end
  | EmptyString => (Nil, s)
  end.

(** The integer part of the JSON number grammar: [0] or a digit sequence
    that does not start with [0]. *)
Definition well_formed_int (u : uint) : bool :=
  match u with
  | Nil => false
  | D0 Nil => true
  | D0 _ => false
  | _ => true
  end.

(** A fraction or an exponent would follow: outside the integers. *)
Definition continues_number (s : string) : bool :=
  match s with
  | String c _ =>
      let n := N_of_ascii c in ((n =? 46) || (n =? 101) || (n =? 69))%N
  | EmptyString => false
  end.

Definition read_number (s : string) : option (Z * string) :=
  let (neg, body) :=
    match s with
    | String "-" r => (true, r)
    | _ => (false, s)
    end in
  let (u, rest) := read_digits body in
  if well_formed_int u && negb (continues_number rest)
  then Some (Z.of_int (if neg then Neg u else Pos u), rest)
  else None.

(** The characters of a string literal after its opening quote. *)
Fixpoint read_string (s : string) : option (string * string) :=
  match s with
  | EmptyString => None
  | String c r =>
      if Ascii.eqb c dquote then Some (EmptyString, r)
      else if Ascii.eqb c backslash then
        match r with
        | EmptyString => None
        | String e r1 =>
            let continue (ch : ascii) (rest : option (string * string)) :=
              match rest with
              | Some (t, r') => Some (String ch t, r')
              | None => None
              end in
            if Ascii.eqb e dquote then continue dquote (read_string r1)
            else if Ascii.eqb e backslash then continue backslash (read_string r1)
            else
              match N_of_ascii e with
              | 47%N => continue "/"%char (read_string r1)
              | 98%N => continue (ascii_of_nat 8) (read_string r1)
              | 102%N => continue (ascii_of_nat 12) (read_string r1)
              | 110%N => continue (ascii_of_nat 10) (read_string r1)
              | 114%N => continue (ascii_of_nat 13) (read_string r1)
              | 116%N => continue (ascii_of_nat 9) (read_string r1)
              | 117%N =>
                  match r1 with
                  | String h1 (String h2 (String h3 (String h4 r2))) =>
                      match hex_value h1, hex_value h2, hex_value h3, hex_value h4 with
                      | Some 0%N, Some 0%N, Some a, Some b =>
                          continue (ascii_of_N (16 * a + b)) (read_string r2)
                      | _, _, _, _ => None
                      end
                  | _ => None
                  end
              | _ => None
              end
        end
      else if (N_of_ascii c <? 32)%N then None
      else
        match read_string r with
        | Some (t, r') => Some (String c t, r')
        | None => None
        end
  end.

Fixpoint expect (lit s : string) : option string :=
  match lit, s with
  | EmptyString, _ => Some s
  | String a l, String b r => if Ascii.eqb a b then expect l r else None
  | String _ _, EmptyString => None
  end.

(** Duplicate names in an object: the last value wins, at the position of
    the first occurrence. *)
Definition object_of_members (l : list (string * jsval)) : jsval :=
  JObj (fold_left (fun acc kv => alist_set (fst kv) (snd kv) acc) l []).

Fixpoint parse_value (fuel : nat) (s : string) : option (jsval * string) :=
  match fuel with
  | O => None
  | S f =>
      match skip_ws s with
      | EmptyString => None
      | String c r as s' =>
          match N_of_ascii c with
          | 110%N => option_map (pair JNull) (expect "ull" r)
          | 116%N => option_map (pair (JBool true)) (expect "rue" r)
          | 102%N => option_map (pair (JBool false)) (expect "alse" r)
          | 34%N => option_map (fun p => (JStr (fst p), snd p)) (read_string r)
          | 91%N =>
              match skip_ws r with
              | String "]" r' => Some (JArr [], r')
              | _ => option_map (fun p => (JArr (fst p), snd p)) (parse_elements f r)
              end
          | 123%N =>
              match skip_ws r with
              | String "}" r' => Some (JObj [], r')
              | _ => option_map (fun p => (object_of_members (fst p), snd p)) (parse_members f r)
              end
          | _ => option_map (fun p => (JNum (fst p), snd p)) (read_number s')
          end
      end
  end
with parse_elements (fuel : nat) (s : string) : option (list jsval * string) :=
  match fuel with
  | O => None
  | S f =>
      match parse_value f s with
      | None => None
      | Some (v, r) =>
          match skip_ws r with
          | String "," r' => option_map (fun p => (v :: fst p, snd p)) (parse_elements f r')
          | String "]" r' => Some ([v], r')
          | _ => None
          end
      end
  end
with parse_members (fuel : nat) (s : string) : option (list (string * jsval) * string) :=
  match fuel with
  | O => None
  | S f =>
      match skip_ws s with
      | String c r =>
          if Ascii.eqb c dquote then
            match read_string r with
            | None => None
            | Some (k, r1) =>
                match skip_ws r1 with
                | String ":" r2 =>
                    match parse_value f r2 with
                    | None => None
                    | Some (v, r3) =>
                        match skip_ws r3 with
                        | String "," r4 =>
                            option_map (fun p => ((k, v) :: fst p, snd p)) (parse_members f r4)
                        | String "}" r4 => Some ([(k, v)], r4)
                        | _ => None
                        end
                    end
                | _ => None
                end
            end
          else None
      | EmptyString => None
      end
  end.

(** [JSON.parse(text)]: the value, or the SyntaxError. *)
Definition JSON_parse (text : string) : completion jsval :=
  match parse_value (2 * String.length text + 2) text with
  | Some (v, rest) =>
      match skip_ws rest with
      | EmptyString => Normal v
      | _ => Abrupt (SyntaxError "Unexpected token in JSON")
      end
  | None => Abrupt (SyntaxError "Unexpected token in JSON")
  end.

(** ** [escape] and [unescape] (ES5 Annex B.2) on byte strings *)

Definition escape_keeps (c : ascii) : bool :=
  let n := N_of_ascii c in
  (((48 <=? n) && (n <=? 57)) || ((65 <=? n) && (n <=? 90)) || ((97 <=? n) && (n <=? 122))
   || (n =? 64) || (n =? 42) || (n =? 95) || (n =? 43) || (n =? 45) || (n =? 46) || (n =? 47))%N.

Fixpoint escape (s : string) : string :=
  match s with
  | EmptyString => EmptyString
  | String c r =>
      if escape_keeps c then String c (escape r)
      else
        let n := N_of_ascii c in
        String "%" (String (hex_digit true (n / 16)) (String (hex_digit true (n mod 16)) (escape r)))
  end.

(** [%XX] sequences are decoded; [%uXXXX], which [escape] never writes for
    a byte string, is left as it is. *)
Fixpoint unescape (s : string) : string :=
  match s with
  | EmptyString => EmptyString
  | String c r =>
      match N_of_ascii c, r with
      | 37%N, String h1 (String h2 r') =>
          match hex_value h1, hex_value h2 with
          | Some a, Some b => String (ascii_of_N (16 * a + b)) (unescape r')
          | _, _ => String c (unescape r)
          end
      | _, _ => String c (unescape r)
      end
  end.

(** ** Storage objects and the cookie jar *)

(** What [window.localStorage] / [window.sessionStorage] can hold:
    - a Storage object of the browser, with its entries and the number of
      bytes it accepts before [setItem] raises QuotaExceededError;
    - the object literal installed by [polyfillLocalStorage] /
      [polyfillSessionStorage], whose only own datum is [length]: its
      entries are the cookies of the document;
    - [null] (or [undefined]): nothing there. *)
Inductive storage : Type :=
| NativeStorage (items : list (string * string)) (quota : nat)
| CookieStorage (length : Z)
| NullStorage.

(** [!window.localStorage] *)
Definition storage_missing (s : storage) : bool :=
  match s with NullStorage => true | _ => false end.

Definition items_size (items : list (string * string)) : nat :=
  fold_right (fun kv n => String.length (fst kv) + String.length (snd kv) + n) 0 items.

(** [document.cookie]: the cookies it lists (name and value as written, in
    order) and the number of bytes the document accepts for the name and
    value of one cookie (0 when cookies are switched off).  Assigning
    [name=value; ...] adds or replaces the cookie of that name, or is
    ignored when the cookie is too large; an [expires] in the past removes
    the cookie.  The expiry date itself plays no role within one page load
    and is not recorded. *)
Record cookie_jar : Type := mkJar {
  cookie_limit : nat;
  cookies : list (string * string)
}.

Definition cookie_assign (name value : string) (jar : cookie_jar) : cookie_jar :=
  if (String.length name + String.length value <=? cookie_limit jar)%nat
  then mkJar (cookie_limit jar) (alist_set name value (cookies jar))
  else jar.

Definition cookie_expire (name : string) (jar : cookie_jar) : cookie_jar :=
  mkJar (cookie_limit jar) (alist_remove name (cookies jar)).

Fixpoint cookie_string (l : list (string * string)) : string :=
  match l with
  | [] => EmptyString
  | [(n, v)] => n ++ "=" ++ v
  | (n, v) :: r => n ++ "=" ++ v ++ "; " ++ cookie_string r
  end.

Fixpoint count_char (c : ascii) (s : string) : Z :=
  match s with
  | EmptyString => 0
  | String c' r => (if Ascii.eqb c c' then 1 else 0) + count_char c r
  end.

(** [document.cookie.match(/\=/g)]: [None] when nothing matches. *)
Definition cookie_equals_matches (jar : cookie_jar) : option Z :=
  let n := count_char "=" (cookie_string (cookies jar)) in
  if (n =? 0)%Z then None else Some n.

(** ** The state of the page and of the service *)

(** The globals the service touches, the two collaborators it reports to
    ([console.warn] and [$rootScope.$broadcast], recorded as logs with the
    newest entry first), and the private variables of the factory closure.
    [hasLocalStorage] and [hasSessionStorage] are never assigned after the
    factory has run, so they also stand for the [isSupported] properties
    that were copied from them.  [ram] is the object literal by its own
    properties, in insertion order; what it inherits from Object.prototype
    is not modelled. *)
Record world : Type := mkWorld {
  window_localStorage : storage;
  window_sessionStorage : storage;
  document_cookie : cookie_jar;
  console_warn : list string;
  rootScope_broadcast : list (string * string);
  errorName : string;
  hasLocalStorage : bool;
  hasSessionStorage : bool;
  isLocalStoragePolyfilled : bool;
  isSessionStoragePolyfilled : bool;
  order : list string;
  prefix : string;
  ram : list (string * jsval)
}.

Definition set_window_localStorage (x : storage) (w : world) : world :=
  mkWorld x (window_sessionStorage w) (document_cookie w) (console_warn w)
    (rootScope_broadcast w) (errorName w) (hasLocalStorage w) (hasSessionStorage w)
    (isLocalStoragePolyfilled w) (isSessionStoragePolyfilled w) (order w) (prefix w) (ram w).
Definition set_window_sessionStorage (x : storage) (w : world) : world :=
  mkWorld (window_localStorage w) x (document_cookie w) (console_warn w)
    (rootScope_broadcast w) (errorName w) (hasLocalStorage w) (hasSessionStorage w)
    (isLocalStoragePolyfilled w) (isSessionStoragePolyfilled w) (order w) (prefix w) (ram w).
Definition set_document_cookie (x : cookie_jar) (w : world) : world :=
  mkWorld (window_localStorage w) (window_sessionStorage w) x (console_warn w)
    (rootScope_broadcast w) (errorName w) (hasLocalStorage w) (hasSessionStorage w)
    (isLocalStoragePolyfilled w) (isSessionStoragePolyfilled w) (order w) (prefix w) (ram w).
Definition set_console_warn (x : list string) (w : world) : world :=
  mkWorld (window_localStorage w) (window_sessionStorage w) (document_cookie w) x
    (rootScope_broadcast w) (errorName w) (hasLocalStorage w) (hasSessionStorage w)
    (isLocalStoragePolyfilled w) (isSessionStoragePolyfilled w) (order w) (prefix w) (ram w).
Definition set_rootScope_broadcast (x : list (string * string)) (w : world) : world :=
  mkWorld (window_localStorage w) (window_sessionStorage w) (document_cookie w) (console_warn w)
    x (errorName w) (hasLocalStorage w) (hasSessionStorage w)
    (isLocalStoragePolyfilled w) (isSessionStoragePolyfilled w) (order w) (prefix w) (ram w).
Definition set_errorName (x : string) (w : world) : world :=
  mkWorld (window_localStorage w) (window_sessionStorage w) (document_cookie w) (console_warn w)
    (rootScope_broadcast w) x (hasLocalStorage w) (hasSessionStorage w)
    (isLocalStoragePolyfilled w) (isSessionStoragePolyfilled w) (order w) (prefix w) (ram w).
Definition set_hasLocalStorage (x : bool) (w : world) : world :=
  mkWorld (window_localStorage w) (window_sessionStorage w) (document_cookie w) (console_warn w)
    (rootScope_broadcast w) (errorName w) x (hasSessionStorage w)
    (isLocalStoragePolyfilled w) (isSessionStoragePolyfilled w) (order w) (prefix w) (ram w).
Definition set_hasSessionStorage (x : bool) (w : world) : world :=
  mkWorld (window_localStorage w) (window_sessionStorage w) (document_cookie w) (console_warn w)
    (rootScope_broadcast w) (errorName w) (hasLocalStorage w) x
    (isLocalStoragePolyfilled w) (isSessionStoragePolyfilled w) (order w) (prefix w) (ram w).
Definition set_isLocalStoragePolyfilled (x : bool) (w : world) : world :=
  mkWorld (window_localStorage w) (window_sessionStorage w) (document_cookie w) (console_warn w)
    (rootScope_broadcast w) (errorName w) (hasLocalStorage w) (hasSessionStorage w)
    x (isSessionStoragePolyfilled w) (order w) (prefix w) (ram w).
Definition set_isSessionStoragePolyfilled (x : bool) (w : world) : world :=
  mkWorld (window_localStorage w) (window_sessionStorage w) (document_cookie w) (console_warn w)
    (rootScope_broadcast w) (errorName w) (hasLocalStorage w) (hasSessionStorage w)
    (isLocalStoragePolyfilled w) x (order w) (prefix w) (ram w).
Definition set_order (x : list string) (w : world) : world :=
  mkWorld (window_localStorage w) (window_sessionStorage w) (document_cookie w) (console_warn w)
    (rootScope_broadcast w) (errorName w) (hasLocalStorage w) (hasSessionStorage w)
    (isLocalStoragePolyfilled w) (isSessionStoragePolyfilled w) x (prefix w) (ram w).
Definition set_prefix (x : string) (w : world) : world :=
  mkWorld (window_localStorage w) (window_sessionStorage w) (document_cookie w) (console_warn w)
    (rootScope_broadcast w) (errorName w) (hasLocalStorage w) (hasSessionStorage w)
    (isLocalStoragePolyfilled w) (isSessionStoragePolyfilled w) (order w) x (ram w).
Definition set_ram (x : list (string * jsval)) (w : world) : world :=
  mkWorld (window_localStorage w) (window_sessionStorage w) (document_cookie w) (console_warn w)
    (rootScope_broadcast w) (errorName w) (hasLocalStorage w) (hasSessionStorage w)
    (isLocalStoragePolyfilled w) (isSessionStoragePolyfilled w) (order w) (prefix w) x.

(** *** The monad of the script: state, and exceptions that keep the state *)

Inductive outcome (A : Type) : Type :=
| Returns (a : A) (w : world)
| Throws (e : jserror) (w : world).
Arguments Returns {A} a w.
Arguments Throws {A} e w.

Definition M (A : Type) : Type := world -> outcome A.

Definition ret {A : Type} (a : A) : M A := fun w => Returns a w.
Definition throw {A : Type} (e : jserror) : M A := fun w => Throws e w.
Definition bind {A B : Type} (m : M A) (f : A -> M B) : M B :=
  fun w => match m w with
           | Returns a w' => f a w'
           | Throws e w' => Throws e w'
           end.
Definition try_catch {A : Type} (body : M A) (handler : jserror -> M A) : M A :=
  fun w => match body w with
           | Returns a w' => Returns a w'
           | Throws e w' => handler e w'
           end.
Definition gets {A : Type} (f : world -> A) : M A := fun w => Returns (f w) w.
Definition modify (f : world -> world) : M unit := fun w => Returns tt (f w).
Definition lift {A : Type} (c : completion A) : M A :=
  match c with
  | Normal a => ret a
  | Abrupt e => throw e
  end.

Declare Scope js_scope.
Delimit Scope js_scope with js.
Notation "x <- m ;; k" := (bind m (fun x => k))
  (at level 61, m at next level, right associativity) : js_scope.
Notation "m ;;; k" := (bind m (fun _ => k))
  (at level 61, right associativity) : js_scope.
Local Open Scope js_scope.

Definition outcome_world {A : Type} (o : outcome A) : world :=
  match o with Returns _ w => w | Throws _ w => w end.

Definition outcome_value {A : Type} (o : outcome A) : option A :=
  match o with Returns a _ => Some a | Throws _ _ => None end.

(** *** The primitives of a Storage object *)

(** Which global a primitive is called on: [localStorage.f(..)] or
    [sessionStorage.f(..)]. *)
Inductive slot : Type := LocalSlot | SessionSlot.

Definition window_storage (sl : slot) (w : world) : storage :=
  match sl with
  | LocalSlot => window_localStorage w
  | SessionSlot => window_sessionStorage w
  end.

Definition set_window_storage (sl : slot) (x : storage) (w : world) : world :=
  match sl with
  | LocalSlot => set_window_localStorage x w
  | SessionSlot => set_window_sessionStorage x w
  end.

(** The property [name] of the global is looked up before the arguments of
    the call are evaluated: on [null] that raises. *)
Definition Storage_member (sl : slot) (name : string) : M unit :=
  fun w => match window_storage sl w with
           | NullStorage => Throws (TypeError ("Cannot read property '" ++ name ++ "' of null")) w
           | _ => Returns tt w
           end.

(** The text a primitive receives for an argument: [undefined] arrives as
    the text [undefined]. *)
Definition DOMString (o : option string) : string :=
  match o with Some s => s | None => "undefined" end.

(** [hasOwnProperty] of the emulation: is there a cookie named
    [escape(sKey)]. *)
Definition cookie_hasOwnProperty (sKey : string) (jar : cookie_jar) : bool :=
  alist_mem (escape sKey) (cookies jar).

(** [setItem(sKey, sValue)].  A Storage object stores the entry or raises
    when it is full.  The emulation returns at once on an empty key; else it
    assigns the cookie [escape(sKey)=escape(sValue)] and sets its [length]
    to the number of [=] in [document.cookie], which raises when there is
    none. *)
Definition Storage_setItem (sl : slot) (sKey sValue : string) : M unit :=
  fun w =>
    match window_storage sl w with
    | NativeStorage items quota =>
        let items' := alist_set sKey sValue items in
        if (items_size items' <=? quota)%nat
        then Returns tt (set_window_storage sl (NativeStorage items' quota) w)
        else Throws QuotaExceededError w
    | CookieStorage len =>
        if String.eqb sKey EmptyString then Returns tt w
        else
          let jar := cookie_assign (escape sKey) (escape sValue) (document_cookie w) in
          let w' := set_document_cookie jar w in
          match cookie_equals_matches jar with
          | Some n => Returns tt (set_window_storage sl (CookieStorage n) w')
          | None => Throws (TypeError "Cannot read property 'length' of null") w'
          end
    | NullStorage => Throws (TypeError "Cannot read property 'setItem' of null") w
    end.

(** [getItem(sKey)]: the text, or [None] for [null].  The emulation answers
    [null] for an empty key and for a key without cookie, else the
    unescaped value of the cookie. *)
Definition Storage_getItem (sl : slot) (sKey : string) : M (option string) :=
  fun w =>
    match window_storage sl w with
    | NativeStorage items _ => Returns (alist_get sKey items) w
    | CookieStorage _ =>
        if String.eqb sKey EmptyString || negb (cookie_hasOwnProperty sKey (document_cookie w))
        then Returns None w
        else Returns (option_map unescape (alist_get (escape sKey) (cookies (document_cookie w)))) w
    | NullStorage => Throws (TypeError "Cannot read property 'getItem' of null") w
    end.

(** [removeItem(sKey)].  The emulation does nothing for an empty key and
    for a key without cookie, else it expires the cookie and decrements its
    [length]. *)
Definition Storage_removeItem (sl : slot) (sKey : string) : M unit :=
  fun w =>
    match window_storage sl w with
    | NativeStorage items quota =>
        Returns tt (set_window_storage sl (NativeStorage (alist_remove sKey items) quota) w)
    | CookieStorage len =>
        if String.eqb sKey EmptyString || negb (cookie_hasOwnProperty sKey (document_cookie w))
        then Returns tt w
        else
          Returns tt (set_window_storage sl (CookieStorage (len - 1))
                        (set_document_cookie (cookie_expire (escape sKey) (document_cookie w)) w))
    | NullStorage => Throws (TypeError "Cannot read property 'removeItem' of null") w
    end.

(** [key(n)]: a Storage object answers [null] out of range; the emulation
    unescapes whatever the split of the cookie string has at [n], which out
    of range is [undefined], read as text. *)
Definition Storage_key (sl : slot) (n : Z) : M jsval :=
  fun w =>
    match window_storage sl w with
    | NativeStorage items _ =>
        Returns (if (n <? 0)%Z then JNull
                 else match nth_error items (Z.to_nat n) with
                      | Some (k, _) => JStr k
                      | None => JNull
                      end) w
    | CookieStorage _ =>
        let names := match cookies (document_cookie w) with
                     | [] => [EmptyString]
                     | l => map fst l
                     end in
        Returns (JStr (unescape (DOMString (if (n <? 0)%Z then None
                                            else nth_error names (Z.to_nat n))))) w
    | NullStorage => Throws (TypeError "Cannot read property 'key' of null") w
    end.

(** [length] *)
Definition Storage_length (sl : slot) : M Z :=
  fun w =>
    match window_storage sl w with
    | NativeStorage items _ => Returns (Z.of_nat (List.length items)) w
    | CookieStorage len => Returns len w
    | NullStorage => Throws (TypeError "Cannot read property 'length' of null") w
    end.

(** ** The factory of the service *)

(** [defaultSettings] *)
Definition default_prefix : string := EmptyString.
Definition default_order : list string := ["local"; "session"; "memory"].
Definition default_errorName : string := "webStorage.notification.error".
Definition testKey : string := "webStorage.test.key".

Definition addDeprecatedWarning : string :=
  "angular-webstorage.js -- `add()` had been deprecated, use `set()` instead".

Definition console_warning (msg : string) : M unit :=
  modify (fun w => set_console_warn (msg :: console_warn w) w).

(** [croak(error)]: broadcast [error.title + ': ' + error.message] under the
    current error name; always false. *)
Definition croak (error : jserror) : M bool :=
  fun w =>
    Returns false
      (set_rootScope_broadcast
         ((errorName w, DOMString (err_title error) ++ ": " ++ err_message error)
            :: rootScope_broadcast w) w).

(** *** Setters *)

Definition setInLocal (key : string) (value : jsval) : M bool :=
  has <- gets hasLocalStorage ;;
  if has then
    try_catch
      (Storage_member LocalSlot "setItem" ;;;
       p <- gets prefix ;;
       text <- lift (JSON_stringify value) ;;
       Storage_setItem LocalSlot (p ++ key) (DOMString text) ;;;
       ret true)
      croak
  else ret false.

Definition setInSession (key : string) (value : jsval) : M bool :=
  has <- gets hasSessionStorage ;;
  if has then
    try_catch
      (Storage_member SessionSlot "setItem" ;;;
       p <- gets prefix ;;
       text <- lift (JSON_stringify value) ;;
       Storage_setItem SessionSlot (p ++ key) (DOMString text) ;;;
       ret true)
      croak
  else ret false.

Definition setInMemory (key : string) (value : jsval) : M bool :=
  modify (fun w => set_ram (alist_set key value (ram w)) w) ;;;
  ret true.

(** *** Deprecated setters *)

Definition addToLocal (key : string) (value : jsval) : M bool :=
  console_warning addDeprecatedWarning ;;; setInLocal key value.

Definition addToSession (key : string) (value : jsval) : M bool :=
  console_warning addDeprecatedWarning ;;; setInSession key value.

Definition addToMemory (key : string) (value : jsval) : M bool :=
  console_warning addDeprecatedWarning ;;; setInMemory key value.

(** *** Getters *)

(** [value && JSON.parse(value)] for what [getItem] answered: [null] and the
    empty text are falsy and are the result themselves. *)
Definition parse_stored (value : option string) : M jsval :=
  match value with
  | None => ret JNull
  | Some EmptyString => ret (JStr EmptyString)
  | Some text => lift (JSON_parse text)
  end.

Definition getFromLocal (key : string) : M jsval :=
  has <- gets hasLocalStorage ;;
  if has then
    try_catch
      (p <- gets prefix ;;
       value <- Storage_getItem LocalSlot (p ++ key) ;;
       parse_stored value)
      (fun e => croak e ;;; ret JNull)
  else ret JNull.

Definition getFromSession (key : string) : M jsval :=
  has <- gets hasSessionStorage ;;
  if has then
    try_catch
      (p <- gets prefix ;;
       value <- Storage_getItem SessionSlot (p ++ key) ;;
       parse_stored value)
      (fun e => croak e ;;; ret JNull)
  else ret JNull.

Definition getFromMemory (key : string) : M jsval :=
  r <- gets ram ;;
  ret (match alist_get key r with Some v => v | None => JNull end).

Definition hasInLocal (key : string) : M bool :=
  v <- getFromLocal key ;; ret (negb (is_null v)).

Definition hasInSession (key : string) : M bool :=
  v <- getFromSession key ;; ret (negb (is_null v)).

Definition hasInMemory (key : string) : M bool :=
  v <- getFromMemory key ;; ret (negb (is_null v)).

(** *** Enumeration *)

Definition keyInLocal (num : Z) : M jsval :=
  has <- gets hasLocalStorage ;;
  if has then Storage_key LocalSlot num else ret JNull.

Definition keyInSession (num : Z) : M jsval :=
  has <- gets hasSessionStorage ;;
  if has then Storage_key SessionSlot num else ret JNull.

(** The loop over the properties of [ram]: the key at position [index], the
    count running from 0.  ([ram.hasOwnProperty(key)] holds of every key of
    the list, the inherited function being in place.) *)
Fixpoint keyInMemory_loop (index : Z) (count : Z) (keys : list string) : jsval :=
  match keys with
  | [] => JNull
  | k :: rest =>
      if (index =? count)%Z then JStr k
      else if (count + 1 >? index)%Z then JNull
      else keyInMemory_loop index (count + 1) rest
  end.

Definition keyInMemory (index : Z) : M jsval :=
  r <- gets ram ;;
  ret (keyInMemory_loop index 0 (map fst r)).

Definition lengthInLocal : M Z :=
  has <- gets hasLocalStorage ;;
  if has then Storage_length LocalSlot else ret 0%Z.

Definition lengthInSession : M Z :=
  has <- gets hasSessionStorage ;;
  if has then Storage_length SessionSlot else ret 0%Z.

Definition lengthInMemory : M Z :=
  r <- gets ram ;;
  ret (Z.of_nat (List.length r)).

(** *** Removal *)

Definition removeFromLocal (key : string) : M bool :=
  has <- gets hasLocalStorage ;;
  if has then
    try_catch
      (p <- gets prefix ;;
       Storage_removeItem LocalSlot (p ++ key) ;;;
       ret true)
      croak
  else ret false.

Definition removeFromSession (key : string) : M bool :=
  has <- gets hasSessionStorage ;;
  if has then
    try_catch
      (p <- gets prefix ;;
       Storage_removeItem SessionSlot (p ++ key) ;;;
       ret true)
      croak
  else ret false.

Definition removeFromMemory (key : string) : M bool :=
  modify (fun w => set_ram (alist_remove key (ram w)) w) ;;;
  ret true.

(** *** The cookie emulation and the support probes *)

(** The length the emulation starts with:
    [(document.cookie.match(/\=/g) || window.localStorage).length], the
    object literal having [length: 0]. *)
Definition polyfill_initial_length (jar : cookie_jar) : Z :=
  match cookie_equals_matches jar with
  | Some n => n
  | None => 0%Z
  end.

(** [polyfillLocalStorage] and [polyfillSessionStorage]: the try/catch
    around their bodies has nothing to catch here, reading the global never
    raises. *)
Definition polyfillLocalStorage : M unit :=
  missing <- gets (fun w => storage_missing (window_localStorage w)) ;;
  if missing then
    modify (fun w =>
      set_window_localStorage (CookieStorage (polyfill_initial_length (document_cookie w))) w) ;;;
    modify (set_isLocalStoragePolyfilled true)
  else ret tt.

Definition polyfillSessionStorage : M unit :=
  missing <- gets (fun w => storage_missing (window_sessionStorage w)) ;;
  if missing then
    modify (fun w =>
      set_window_sessionStorage (CookieStorage (polyfill_initial_length (document_cookie w))) w) ;;;
    modify (set_isSessionStoragePolyfilled true)
  else ret tt.

Definition testLocalStorage : M bool :=
  polyfillLocalStorage ;;;
  try_catch
    (p <- gets prefix ;;
     Storage_setItem LocalSlot (p ++ testKey) testKey ;;;
     Storage_removeItem LocalSlot (p ++ testKey) ;;;
     ret true)
    (fun _ => ret false).

Definition testSessionStorage : M bool :=
  polyfillSessionStorage ;;;
  try_catch
    (p <- gets prefix ;;
     Storage_setItem SessionSlot (p ++ testKey) testKey ;;;
     Storage_removeItem SessionSlot (p ++ testKey) ;;;
     ret true)
    (fun _ => ret false).

(** *** Polyfill status

    [isSessionPolyfilled] is written as in the source: its second
    assignment names [isLocalStoragePolyfilled]. *)

Definition isLocalPolyfilled (removePolyfill : jsval) : M bool :=
  oldValue <- gets isLocalStoragePolyfilled ;;
  (if is_true removePolyfill && oldValue then
     modify (set_window_localStorage NullStorage) ;;;
     modify (set_isLocalStoragePolyfilled false)
   else ret tt) ;;;
  ret oldValue.

Definition isSessionPolyfilled (removePolyfill : jsval) : M bool :=
  oldValue <- gets isSessionStoragePolyfilled ;;
  (if is_true removePolyfill && oldValue then
     modify (set_window_sessionStorage NullStorage) ;;;
     modify (set_isLocalStoragePolyfilled false)
   else ret tt) ;;;
  ret oldValue.

(** *** The body of the factory

    The [var] declarations are hoisted: while the two probes run, the
    variables initialised further down are still [undefined].  The probes
    therefore build their key from the text [undefined], and whatever
    [polyfillLocalStorage] / [polyfillSessionStorage] stored in the two
    polyfill flags is overwritten by the initialisers that follow. *)
Definition hoisted (local session : storage) (jar : cookie_jar) : world :=
  mkWorld local session jar [] [] "undefined" false false false false [] "undefined" [].

Definition factory : M unit :=
  modify (set_errorName default_errorName) ;;;
  l <- testLocalStorage ;;
  modify (set_hasLocalStorage l) ;;;
  s <- testSessionStorage ;;
  modify (set_hasSessionStorage s) ;;;
  modify (set_isLocalStoragePolyfilled false) ;;;
  modify (set_isSessionStoragePolyfilled false) ;;;
  modify (set_order default_order) ;;;
  modify (set_prefix default_prefix) ;;;
  modify (set_ram []).

(** The state in which the service object is handed to the application, on a
    page whose globals are [local], [session] and [jar]. *)
Definition service (local session : storage) (jar : cookie_jar) : world :=
  outcome_world (factory (hoisted local session jar)).

(** ** The service object *)

(** A property of an object that callers invoke: a function, or a plain
    value, whose invocation raises. *)
Inductive property (A B : Type) : Type :=
| Method (f : A -> M B)
| Data (v : jsval).
Arguments Method {A B} f.
Arguments Data {A B} v.

Definition invoke {A B : Type} (name : string) (p : property A B) (arg : A) : M B :=
  match p with
  | Method f => f arg
  | Data _ => throw (TypeError (name ++ " is not a function"))
  end.

(** The direct API of one engine ([webStorage.local], [webStorage.session],
    [webStorage.memory]). *)
Record engine : Type := mkEngine {
  isSupported : world -> bool;
  add : string -> jsval -> M bool;
  set : string -> jsval -> M bool;
  get : string -> M jsval;
  has : string -> M bool;
  key : Z -> M jsval;
  length : M Z;
  remove : string -> M bool;
  isPolyfilled : property jsval bool
}.

Module webStorage.

Definition local : engine := {|
  isSupported := hasLocalStorage;
  add := addToLocal;
  set := setInLocal;
  get := getFromLocal;
  has := hasInLocal;
  key := keyInLocal;
  length := lengthInLocal;
  remove := removeFromLocal;
  isPolyfilled := Method isLocalPolyfilled
|}.

Definition session : engine := {|
  isSupported := hasSessionStorage;
  add := addToSession;
  set := setInSession;
  get := getFromSession;
  has := hasInSession;
  key := keyInSession;
  length := lengthInSession;
  remove := removeFromSession;
  isPolyfilled := Method isSessionPolyfilled
|}.

Definition memory : engine := {|
  isSupported := fun _ => true;
  add := addToMemory;
  set := setInMemory;
  get := getFromMemory;
  has := hasInMemory;
  key := keyInMemory;
  length := lengthInMemory;
  remove := removeFromMemory;
  isPolyfilled := Data (JBool false)
|}.

(** [webStorage[name]] for the names an order can hold. *)
Definition engine_named (name : string) : option engine :=
  if String.eqb name "local" then Some local
  else if String.eqb name "session" then Some session
  else if String.eqb name "memory" then Some memory
  else None.

(** [var engine = webStorage[order[ith]]; if (engine.isSupported) ..]:
    a name that is no property of the service gives [undefined], and
    reading [isSupported] from it raises. *)
Definition lookup (name : string) : M engine :=
  match engine_named name with
  | Some e => ret e
  | None => throw (TypeError "Cannot read property 'isSupported' of undefined")
  end.

(** [typeof allEngines !== 'undefined' ? !!allEngines : default] *)
Definition flag (allEngines : option bool) (default : bool) : bool :=
  match allEngines with
  | Some b => b
  | None => default
  end.

Fixpoint set_loop (names : list string) (k : string) (value : jsval)
         (allEngines : bool) (result : bool) : M bool :=
  match names with
  | [] => ret result
  | name :: rest =>
      e <- lookup name ;;
      supported <- gets (isSupported e) ;;
      if supported then
        r <- set e k value ;;
        let result := r || result in
        if negb allEngines then ret result
        else set_loop rest k value allEngines result
      else set_loop rest k value allEngines result
  end.

Definition set_ (k : string) (value : jsval) (allEngines : option bool) : M bool :=
  names <- gets order ;;
  set_loop names k value (flag allEngines false) false.

Definition add_ (k : string) (value : jsval) (allEngines : option bool) : M bool :=
  console_warning addDeprecatedWarning ;;;
  set_ k value allEngines.

Fixpoint get_loop (names : list string) (k : string) (allEngines : bool) : M jsval :=
  match names with
  | [] => ret JNull
  | name :: rest =>
      e <- lookup name ;;
      supported <- gets (isSupported e) ;;
      if supported then
        value <- get e k ;;
        if negb allEngines || negb (is_null value) then ret value
        else get_loop rest k allEngines
      else get_loop rest k allEngines
  end.

Definition get_ (k : string) (allEngines : option bool) : M jsval :=
  names <- gets order ;;
  get_loop names k (flag allEngines true).

Definition has_ (k : string) (allEngines : option bool) : M bool :=
  v <- get_ k allEngines ;; ret (negb (is_null v)).

Fixpoint key_loop (names : list string) (index : Z) (allEngines : bool) : M jsval :=
  match names with
  | [] => ret JNull
  | name :: rest =>
      e <- lookup name ;;
      supported <- gets (isSupported e) ;;
      if supported then
        value <- key e index ;;
        if negb allEngines || negb (is_null value) then ret value
        else key_loop rest index allEngines
      else key_loop rest index allEngines
  end.

Definition key_ (index : Z) (allEngines : option bool) : M jsval :=
  names <- gets order ;;
  key_loop names index (flag allEngines true).

Fixpoint length_loop (names : list string) (allEngines : bool) : M Z :=
  match names with
  | [] => ret 0%Z
  | name :: rest =>
      e <- lookup name ;;
      supported <- gets (isSupported e) ;;
      if supported then
        value <- length e ;;
        if negb allEngines || negb (value =? 0)%Z then ret value
        else length_loop rest allEngines
      else length_loop rest allEngines
  end.

Definition length_ (allEngines : option bool) : M Z :=
  names <- gets order ;;
  length_loop names (flag allEngines true).

Fixpoint remove_loop (names : list string) (k : string)
         (allEngines : bool) (result : bool) : M bool :=
  match names with
  | [] => ret result
  | name :: rest =>
      e <- lookup name ;;
      supported <- gets (isSupported e) ;;
      if supported then
        r <- remove e k ;;
        let result := r || result in
        if negb allEngines then ret result
        else remove_loop rest k allEngines result
      else remove_loop rest k allEngines result
  end.

Definition remove_ (k : string) (allEngines : option bool) : M bool :=
  names <- gets order ;;
  remove_loop names k (flag allEngines true) false.

(** [/^(local|session|memory)$/.test(name)] *)
Definition recognized (name : string) : bool :=
  String.eqb name "local" || String.eqb name "session" || String.eqb name "memory".

(** [order(newOrder)]: [None] is the call without argument.  The result
    is a copy of the order as it was. *)
Definition order_ (newOrder : option (list string)) : M (list string) :=
  result <- gets order ;;
  match newOrder with
  | Some names => modify (set_order (filter recognized names)) ;;; ret result
  | None => ret result
  end.

(** [prefix(newPrefix)] and [errorName(newErrorName)]: the argument is
    [undefined] ([None]), a string, or some other value, which is refused
    with [false]. *)
Definition prefix_ (newPrefix : option jsval) : M jsval :=
  result <- gets prefix ;;
  match newPrefix with
  | None => ret (JStr result)
  | Some (JStr p) => modify (set_prefix p) ;;; ret (JStr result)
  | Some _ => ret (JBool false)
  end.

Definition errorName_ (newErrorName : option jsval) : M jsval :=
  result <- gets errorName ;;
  match newErrorName with
  | None => ret (JStr result)
  | Some (JStr n) => modify (set_errorName n) ;;; ret (JStr result)
  | Some _ => ret (JBool false)
  end.

End webStorage.

(** ** The clear functions

    The engine objects also carry [clear]; the three functions and the
    generic [webStorage.clear] are given here, beside the record above. *)

(** [for (var key in localStorage)]: the names the loop visits.  A Storage
    object lists its stored keys and then the members of its prototype; the
    emulation is an object literal and lists its own six members, not the
    cookies; on [null] the loop has nothing to visit. *)
Definition Storage_prototype_names : list string :=
  ["length"; "key"; "getItem"; "setItem"; "removeItem"; "clear"].

Definition polyfill_member_names : list string :=
  ["getItem"; "key"; "setItem"; "length"; "removeItem"; "hasOwnProperty"].

Definition Storage_for_in (sl : slot) : M (list string) :=
  fun w =>
    match window_storage sl w with
    | NativeStorage items _ => Returns (map fst items ++ Storage_prototype_names)%list w
    | CookieStorage _ => Returns polyfill_member_names w
    | NullStorage => Returns [] w
    end.

(** [localStorage.clear()]: a Storage object drops every entry; the
    emulation has no such member, and calling it raises. *)
Definition Storage_clear (sl : slot) : M unit :=
  fun w =>
    match window_storage sl w with
    | NativeStorage _ quota => Returns tt (set_window_storage sl (NativeStorage [] quota) w)
    | CookieStorage _ => Throws (TypeError "clear is not a function") w
    | NullStorage => Throws (TypeError "Cannot read property 'clear' of null") w
    end.

(** [key.substr(0, prefixLength) === prefix] *)
Definition starts_with (p key : string) : bool :=
  String.eqb (substring 0 (String.length p) key) p.

(** The body of the loop, over the names it visits. *)
Fixpoint remove_prefixed (sl : slot) (p : string) (keys : list string) : M unit :=
  match keys with
  | [] => ret tt
  | key :: rest =>
      (if starts_with p key then Storage_removeItem sl key else ret tt) ;;;
      remove_prefixed sl p rest
  end.

Definition clearLocal : M bool :=
  has <- gets hasLocalStorage ;;
  if negb has then ret false
  else
    p <- gets prefix ;;
    if negb (String.eqb p EmptyString) then
      try_catch
        (keys <- Storage_for_in LocalSlot ;;
         remove_prefixed LocalSlot p keys ;;;
         ret true)
        croak
    else
      try_catch (Storage_clear LocalSlot ;;; ret true) croak.

Definition clearSession : M bool :=
  has <- gets hasSessionStorage ;;
  if negb has then ret false
  else
    p <- gets prefix ;;
    if negb (String.eqb p EmptyString) then
      try_catch
        (keys <- Storage_for_in SessionSlot ;;
         remove_prefixed SessionSlot p keys ;;;
         ret true)
        croak
    else
      try_catch (Storage_clear SessionSlot ;;; ret true) croak.

Definition clearMemory : M bool :=
  modify (set_ram []) ;;;
  ret true.

(** [engine.clear] for an engine of the order. *)
Definition engine_clear (name : string) : M bool :=
  if String.eqb name "local" then clearLocal
  else if String.eqb name "session" then clearSession
  else clearMemory.

Fixpoint clear_loop (names : list string) (allEngines : bool) (result : bool) : M bool :=
  match names with
  | [] => ret result
  | name :: rest =>
      e <- webStorage.lookup name ;;
      supported <- gets (isSupported e) ;;
      if supported then
        r <- engine_clear name ;;
        let result := r || result in
        if negb allEngines then ret result
        else clear_loop rest allEngines result
      else clear_loop rest allEngines result
  end.

(** [webStorage.clear(allEngines)] *)
Definition webStorage_clear (allEngines : option bool) : M bool :=
  names <- gets order ;;
  clear_loop names (webStorage.flag allEngines true) false.

(** ** The array utilities (angular-webstorage-utils.js)

    The five functions take the engine they work on
    ([webStorage.local.array] and so on).  They change the array that [get]
    handed out and store it again.  Through a native-backed engine that
    array is a fresh value, parsed from the stored text, and the functions
    below say all there is to say.  The memory engine hands out the stored
    array itself: there the change also shows wherever else the
    application keeps that array, which values without identity do not
    express; the properties below are stated for the native-backed
    engines. *)

(** [angular.isArray(value) ? value.length : 1] *)
Definition array_length (value : jsval) : jsval :=
  match value with
  | JArr l => JNum (Z.of_nat (List.length l))
  | _ => JNum 1
  end.

Definition lengthFromEngine (key : string) (e : engine) : M jsval :=
  value <- get e key ;;
  if is_null value then ret JUndefined
  else ret (array_length value).

Definition popFromEngine (key : string) (e : engine) : M jsval :=
  value <- get e key ;;
  if is_null value then ret JNull
  else
    match value with
    | JArr l =>
        add e key (JArr (removelast l)) ;;;
        ret (last l JUndefined)
    | _ => remove e key ;;; ret value
    end.

(** [currentValue] as [push] and [unshift] prepare it. *)
Definition as_array (currentValue : jsval) : list jsval :=
  match currentValue with
  | JNull => []
  | JArr l => l
  | other => [other]
  end.

Definition pushToEngine (key : string) (value : jsval) (e : engine) : M jsval :=
  currentValue <- get e key ;;
  let l := (as_array currentValue ++ [value])%list in
  ok <- add e key (JArr l) ;;
  ret (if ok then JNum (Z.of_nat (List.length l)) else JBool false).

Definition shiftFromEngine (key : string) (e : engine) : M jsval :=
  value <- get e key ;;
  if is_null value then ret JNull
  else
    match value with
    | JArr l =>
        add e key (JArr (tl l)) ;;;
        ret (hd JUndefined l)
    | _ => remove e key ;;; ret value
    end.

Definition unshiftToEngine (key : string) (value : jsval) (e : engine) : M jsval :=
  currentValue <- get e key ;;
  let l := value :: as_array currentValue in
  ok <- add e key (JArr l) ;;
  ret (if ok then JNum (Z.of_nat (List.length l)) else JBool false).

(** * Vocabulary of the properties *)

(** ** Outcomes and logs *)

Definition outcome_map {A : Type} (f : world -> world) (o : outcome A) : outcome A :=
  match o with
  | Returns a w => Returns a (f w)
  | Throws e w => Throws e (f w)
  end.

(** The world with one more broadcast. *)
Definition notified (note : string * string) (w : world) : world :=
  set_rootScope_broadcast (note :: rootScope_broadcast w) w.

(** The note [croak] broadcasts for an error. *)
Definition note_of (e : jserror) (w : world) : string * string :=
  (errorName w, DOMString (err_title e) ++ ": " ++ err_message e).

(** What [add] does to the world on top of [set]: one more warning on the
    console. *)
Definition warned (w : world) : world -> world :=
  set_console_warn (addDeprecatedWarning :: console_warn w).

(** Nothing reads [console.warn]: an operation that never touches the
    console commutes with any change of it. *)
Definition ignores_console {A : Type} (m : M A) : Prop :=
  forall l w, m (set_console_warn l w) = outcome_map (set_console_warn l) (m w).

(** ** The native-backed engines, by slot

    [setInLocal] and [setInSession] (and the two getters) are the same text
    up to the global and the support flag they name; their lemmas are
    proved once, for either slot. *)

Definition slot_supported (sl : slot) (w : world) : bool :=
  match sl with
  | LocalSlot => hasLocalStorage w
  | SessionSlot => hasSessionStorage w
  end.

Definition setInSlot (sl : slot) : string -> jsval -> M bool :=
  match sl with LocalSlot => setInLocal | SessionSlot => setInSession end.

Definition getFromSlot (sl : slot) : string -> M jsval :=
  match sl with LocalSlot => getFromLocal | SessionSlot => getFromSession end.

Definition other_slot (sl : slot) : slot :=
  match sl with LocalSlot => SessionSlot | SessionSlot => LocalSlot end.

(** What [getItem] answers, as a function of the world. *)
Definition stored_text (sl : slot) (sKey : string) (w : world) : completion (option string) :=
  match Storage_getItem sl sKey w with
  | Returns o _ => Normal o
  | Throws e _ => Abrupt e
  end.

(** The value a getter answers, as a function of the world, and the error
    it reports, if any. *)
Definition read_value (sl : slot) (k : string) (w : world) : jsval * option jserror :=
  if slot_supported sl w then
    match stored_text sl (prefix w ++ k) w with
    | Abrupt e => (JNull, Some e)
    | Normal None => (JNull, None)
    | Normal (Some EmptyString) => (JStr EmptyString, None)
    | Normal (Some text) =>
        match JSON_parse text with
        | Normal v => (v, None)
        | Abrupt e => (JNull, Some e)
        end
    end
  else (JNull, None).

(** Which global an engine name stands for. *)
Definition backend (name : string) (w : world) : storage :=
  if String.eqb name "local" then window_localStorage w
  else if String.eqb name "session" then window_sessionStorage w
  else NullStorage.

Definition cookie_backed (name : string) (w : world) : bool :=
  match backend name w with CookieStorage _ => true | _ => false end.

(** ** The order and its engines *)

(** The three engine identifiers, and the selection the specification
    describes: keep the elements that are one of them, in their order. *)
Definition engine_identifiers : list string := ["local"; "session"; "memory"].

Fixpoint keep_identifiers (s : list string) : list string :=
  match s with
  | [] => []
  | x :: r =>
      if in_dec string_dec x engine_identifiers
      then x :: keep_identifiers r
      else keep_identifiers r
  end.

(** The order holds engine identifiers only: true of the default, and kept
    by the setter. *)
Definition order_recognized (w : world) : Prop :=
  Forall (fun name => webStorage.recognized name = true) (order w).

(** What the engine called [name] answers for [k] in world [w]: null when it
    is not supported, else the result of its [get]. *)
Definition consult (k : string) (w : world) (name : string) : jsval :=
  match webStorage.engine_named name with
  | Some e =>
      if isSupported e w
      then match get e k w with Returns v _ => v | Throws _ _ => JNull end
      else JNull
  | None => JNull
  end.

(** The first result that is not null, null when there is none. *)
Fixpoint first_non_null (l : list jsval) : jsval :=
  match l with
  | [] => JNull
  | v :: r => if is_null v then first_non_null r else v
  end.

(** The first engine of the order that is supported. *)
Fixpoint first_supported (names : list string) (w : world) : option (string * engine) :=
  match names with
  | [] => None
  | name :: rest =>
      match webStorage.engine_named name with
      | Some e => if isSupported e w then Some (name, e) else first_supported rest w
      | None => first_supported rest w
      end
  end.

(** ** What each engine holds *)

(** The stored contents of an engine: the entries of its Storage object,
    the cookies of the document when the engine is the cookie emulation,
    the properties of [ram] for the memory engine. *)
Inductive contents : Type :=
| Entries (items : list (string * string))
| Properties (props : list (string * jsval))
| Nothing.

Definition storage_contents (s : storage) (jar : cookie_jar) : contents :=
  match s with
  | NativeStorage items _ => Entries items
  | CookieStorage _ => Entries (cookies jar)
  | NullStorage => Nothing
  end.

Definition stored_contents (name : string) (w : world) : contents :=
  if String.eqb name "local" then storage_contents (window_localStorage w) (document_cookie w)
  else if String.eqb name "session" then storage_contents (window_sessionStorage w) (document_cookie w)
  else if String.eqb name "memory" then Properties (ram w)
  else Nothing.

(** A write through engine [name] took the world from [w] to [w'] and no
    other engine's contents changed. *)
Definition writes_only (name : string) (w w' : world) : Prop :=
  forall other,
    webStorage.recognized other = true -> other <> name ->
    stored_contents other w' = stored_contents other w.

(** The claim on the generic [set] as stated: with [allEngines = false] it
    is the [set] of the first supported engine, and no other engine's
    contents change; with no supported engine it returns false and changes
    nothing. *)
Definition single_engine_write (k : string) (v : jsval) (w : world) : Prop :=
  match first_supported (order w) w with
  | Some (name, e) =>
      webStorage.set_ k v (Some false) w = set e k v w
      /\ writes_only name w (outcome_world (webStorage.set_ k v (Some false) w))
  | None => webStorage.set_ k v (Some false) w = Returns false w
  end.

(** ** JSON values and their texts *)

(** The values with a JSON text of their own: no [undefined], function or
    circular reference anywhere, and objects with distinct property names. *)
Inductive json_value : jsval -> Prop :=
| json_null : json_value JNull
| json_bool (b : bool) : json_value (JBool b)
| json_num (n : Z) : json_value (JNum n)
| json_str (s : string) : json_value (JStr s)
| json_arr (l : list jsval) : Forall json_value l -> json_value (JArr l)
| json_obj (l : list (string * jsval)) :
    NoDup (map fst l) -> Forall (fun kv => json_value (snd kv)) l -> json_value (JObj l).

(** A value is JSON-representable when its serialization is a text that
    parses back to the value. *)
Definition json_representable (v : jsval) : Prop :=
  exists text, JSON_stringify v = Normal (Some text) /\ JSON_parse text = Normal v.

(** Induction on values, with the elements of arrays and the members of
    objects as premises. *)
Section jsval_induction.
Variable P : jsval -> Prop.
Hypothesis HUndefined : P JUndefined.
Hypothesis HNull : P JNull.
Hypothesis HBool : forall b, P (JBool b).
Hypothesis HNum : forall n, P (JNum n).
Hypothesis HStr : forall s, P (JStr s).
Hypothesis HArr : forall l, Forall P l -> P (JArr l).
Hypothesis HObj : forall l, Forall (fun kv => P (snd kv)) l -> P (JObj l).
Hypothesis HFunction : P JFunction.
Hypothesis HCircular : P JCircular.

Fixpoint jsval_nested_ind (v : jsval) : P v :=
  match v with
  | JUndefined => HUndefined
  | JNull => HNull
  | JBool b => HBool b
  | JNum n => HNum n
  | JStr s => HStr s
  | JArr l =>
      HArr l ((fix all (l : list jsval) : Forall P l :=
                 match l with
                 | [] => Forall_nil P
                 | x :: r => Forall_cons x (jsval_nested_ind x) (all r)
                 end) l)
  | JObj l =>
      HObj l ((fix all (l : list (string * jsval)) : Forall (fun kv => P (snd kv)) l :=
                 match l with
                 | [] => Forall_nil _
                 | kv :: r => Forall_cons kv (jsval_nested_ind (snd kv)) (all r)
                 end) l)
  | JFunction => HFunction
  | JCircular => HCircular
  end.
End jsval_induction.

(** The serialization of the elements of an array and of the members of an
    object, as functions of their own. *)
Fixpoint stringify_items (l : list jsval) : completion (list string) :=
  match l with
  | [] => Normal []
  | x :: r =>
      match JSON_stringify x with
      | Abrupt e => Abrupt e
      | Normal o =>
          match stringify_items r with
          | Abrupt e => Abrupt e
          | Normal t => Normal (match o with Some s => s | None => "null" end :: t)
          end
      end
  end.

Fixpoint stringify_members (l : list (string * jsval)) : completion (list string) :=
  match l with
  | [] => Normal []
  | (k, x) :: r =>
      match JSON_stringify x with
      | Abrupt e => Abrupt e
      | Normal o =>
          match stringify_members r with
          | Abrupt e => Abrupt e
          | Normal t =>
              Normal (match o with
                      | Some s => (json_quote k ++ ":" ++ s) :: t
                      | None => t
                      end)
          end
      end
  end.

(** What may follow a value inside a text: nothing, or the comma or bracket
    that closes it. *)
Definition delimited (rest : string) : Prop :=
  match rest with
  | EmptyString => True
  | String c _ => c = ","%char \/ c = "]"%char \/ c = "}"%char
  end.

(** The first character of a number: a digit or the sign. *)
Definition number_start (c : ascii) : Prop :=
  c = "-"%char \/ exists d, digit_of_char c = Some d.

(** The first character of the text of a value: no white space, and not the
    bracket that closes an array. *)
Definition starts_value (t : string) : Prop :=
  exists c r, t = String c r /\ is_ws c = false /\ c <> "]"%char.

(** The text [t] reads back as [v], whatever follows it. *)
Definition reads_back (v : jsval) (t : string) : Prop :=
  starts_value t
  /\ forall fuel rest,
       2 * String.length t <= fuel -> delimited rest ->
       parse_value fuel (t ++ rest) = Some (v, rest).

(** ** Writes that are taken, and values that are not *)

(** The text [setItem] is handed for a value. *)
Definition serialized (v : jsval) : string :=
  match JSON_stringify v with
  | Normal o => DOMString o
  | Abrupt _ => EmptyString
  end.

(** The condition under which a backend takes a write of [text] under the
    name [sKey]: a Storage object has room for the entry; the cookie
    emulation is given a non-empty name (it silently drops the empty one)
    and the document accepts the cookie. *)
Definition backend_accepts (s : storage) (jar : cookie_jar) (sKey text : string) : Prop :=
  match s with
  | NativeStorage items quota => items_size (alist_set sKey text items) <= quota
  | CookieStorage _ =>
      sKey <> EmptyString
      /\ String.length (escape sKey) + String.length (escape text) <= cookie_limit jar
  | NullStorage => False
  end.

(** The engine takes the write: the memory engine for every key it stores
    as a property of [ram] (an assignment to [__proto__] reaches the
    accessor that object literals inherit and stores nothing; the model of
    [ram] does not cover that key), a native-backed engine when its backend
    accepts the serialized text under the prefixed key. *)
Definition accepts_write (name : string) (k : string) (v : jsval) (w : world) : Prop :=
  if String.eqb name "memory" then k <> "__proto__"
  else backend_accepts (backend name w) (document_cookie w) (prefix w ++ k) (serialized v).

(** The claim on reading back as stated, for one engine, key and value:
    [set] returns true and the [get] that follows returns the value. *)
Definition set_then_get (e : engine) (k : string) (v : jsval) (w : world) : Prop :=
  exists w1, set e k v w = Returns true w1 /\ exists w2, get e k w1 = Returns v w2.

(** The claim on values without a JSON text as stated, for one engine, key
    and value: [set] returns false and [k] has no usable entry
    afterwards. *)
Definition fails_at_set_time (e : engine) (k : string) (v : jsval) (w : world) : Prop :=
  exists w1, set e k v w = Returns false w1 /\ outcome_value (get e k w1) = Some JNull.

(** ** Pages *)

(** A page with neither [window.localStorage] nor [window.sessionStorage]:
    the factory installs both cookie emulations. *)
Definition cookies_only : world := service NullStorage NullStorage (mkJar 4096 []).

(** The same page with the flags that [polyfillLocalStorage] and
    [polyfillSessionStorage] set still standing: the situation the status
    functions are written for. *)
Definition both_emulated : world :=
  mkWorld (CookieStorage 0) (CookieStorage 0) (mkJar 4096 []) [] []
    default_errorName true true true true default_order default_prefix [].

(** A page whose local store has room for 64 bytes and which has no session
    store, and a text longer than that. *)
Definition small_store : world := service (NativeStorage [] 64) NullStorage (mkJar 4096 []).

Definition long_text : jsval :=
  JStr "0123456789012345678901234567890123456789012345678901234567890123456789".

(** The same page with an entry under ["k"] in the local store. *)
Definition store_with_entry : world :=
  service (NativeStorage [("k", "1")] 64) NullStorage (mkJar 4096 []).

(** The service of a page without native stores, after the page has taken
    the local emulation away again ([window.localStorage = null], the
    assignment [isLocalPolyfilled] performs): the local engine is still
    marked as supported. *)
Definition local_store_lost : world :=
  set_window_localStorage NullStorage cookies_only.

(** ** The native-backed engines by slot, continued *)

Definition removeFromSlot (sl : slot) : string -> M bool :=
  match sl with LocalSlot => removeFromLocal | SessionSlot => removeFromSession end.

Definition clearSlot (sl : slot) : M bool :=
  match sl with LocalSlot => clearLocal | SessionSlot => clearSession end.

Definition slot_engine (sl : slot) : engine :=
  match sl with LocalSlot => webStorage.local | SessionSlot => webStorage.session end.

(** ** Keys of the memory engine *)


(** ** Pages and settings *)

(** Both native-backed engines of a page can be cookie emulations. *)
Definition emulated (sl : slot) (w : world) : Prop :=
  exists len, window_storage sl w = CookieStorage len.

(** What the application configures, and what the factory found out: no
    storing, reading or removing is meant to change these. *)
Definition settings (w : world) : list string * string * string * bool * bool :=
  (order w, prefix w, errorName w, hasLocalStorage w, hasSessionStorage w).

(** ** Arrays kept in a Storage object *)

(** The engine holds the JSON value [cur] under [k]: the text of [cur] is
    what [getItem] answers for the prefixed key; null is also held by a key
    that is not there. *)
Definition holds (sl : slot) (k : string) (cur : jsval) (w : world) : Prop :=
  json_value cur
  /\ (stored_text sl (prefix w ++ k) w = Normal (Some (serialized cur))
      \/ (cur = JNull /\ stored_text sl (prefix w ++ k) w = Normal None)).

(** The global is a Storage object with room for the text of [v] under the
    prefixed key. *)
Definition native_room (sl : slot) (k : string) (v : jsval) (w : world) : Prop :=
  match window_storage sl w with
  | NativeStorage items quota =>
      items_size (alist_set (prefix w ++ k) (serialized v) items) <= quota
  | _ => False
  end.

(** The world after that write. *)
Definition written (sl : slot) (k : string) (v : jsval) (w : world) : world :=
  match window_storage sl w with
  | NativeStorage items quota =>
      set_window_storage sl
        (NativeStorage (alist_set (prefix w ++ k) (serialized v) items) quota) w
  | _ => w
  end.

(** ** Tactics *)

Ltac run_setter :=
  unfold setInSlot, setInLocal, setInSession, bind, gets, modify, ret, throw, try_catch,
    lift, croak, Storage_member, Storage_setItem, window_storage, set_window_storage;
  simpl.

Ltac break_matches :=
  repeat match goal with
         | |- context [match ?x with _ => _ end] =>
             lazymatch x with
             | context [match _ with _ => _ end] => fail
             | _ => destruct x eqn:?; simpl
             end
         end.

(** * Properties *)

(** ** Association lists *)

Lemma alist_get_set_same {V : Type} (k : string) (v : V) (l : list (string * V)) :
  alist_get k (alist_set k v l) = Some v.
Proof.
  induction l as [|[k' v'] r IH]; simpl.
  - now rewrite String.eqb_refl.
  - destruct (String.eqb k k') eqn:E; simpl.
    + now rewrite String.eqb_refl.
    + now rewrite E.
Qed.

Lemma alist_get_set_other {V : Type} (k k0 : string) (v : V) (l : list (string * V)) :
  k0 <> k -> alist_get k0 (alist_set k v l) = alist_get k0 l.
Proof.
  intros Hne. induction l as [|[k' v'] r IH]; simpl.
  - destruct (String.eqb k0 k) eqn:E; [apply String.eqb_eq in E; contradiction|reflexivity].
  - destruct (String.eqb k k') eqn:E; simpl.
    + apply String.eqb_eq in E. subst k'.
      destruct (String.eqb k0 k) eqn:E0; [apply String.eqb_eq in E0; contradiction|reflexivity].
    + destruct (String.eqb k0 k'); [reflexivity|exact IH].
Qed.

(** ** The order setter (C7) *)

Lemma recognized_iff (name : string) :
  webStorage.recognized name = true <-> In name engine_identifiers.
Proof.
  unfold webStorage.recognized, engine_identifiers.
  rewrite !orb_true_iff, !String.eqb_eq. simpl.
  split.
  - intros [[H|H]|H]; subst; auto.
  - intros [H|[H|[H|[]]]]; subst; auto.
Qed.

Lemma filter_recognized (s : list string) :
  filter webStorage.recognized s = keep_identifiers s.
Proof.
  induction s as [|x r IH]; [reflexivity|].
  cbn [filter keep_identifiers].
  destruct (in_dec string_dec x engine_identifiers) as [Hin|Hout].
  - apply recognized_iff in Hin. rewrite Hin. now f_equal.
  - destruct (webStorage.recognized x) eqn:E; [|exact IH].
    apply recognized_iff in E. contradiction.
Qed.

(** C7. For every sequence [s], [order(s)] returns the order as it was and
    makes the order the elements of [s] that are engine identifiers, in
    their relative order; everything else is dropped without an error and
    nothing else changes.  After [order(["memory","bogus","session"])] the
    order reads back as [["memory","session"]]. *)
Theorem order_setter_keeps_identifiers (s : list string) (w : world) :
  webStorage.order_ (Some s) w = Returns (order w) (set_order (keep_identifiers s) w)
  /\ (forall name, In name (keep_identifiers s) <-> In name s /\ In name engine_identifiers)
  /\ (let w' := outcome_world (webStorage.order_ (Some ["memory"; "bogus"; "session"]) w) in
      outcome_value (webStorage.order_ None w') = Some ["memory"; "session"]).
Proof.
  split; [|split].
  - unfold webStorage.order_, bind, gets, modify, ret. now rewrite filter_recognized.
  - intros name. rewrite <- filter_recognized, filter_In, recognized_iff. tauto.
  - reflexivity.
Qed.

Lemma order_recognized_setter (s : list string) (w : world) :
  order_recognized (outcome_world (webStorage.order_ (Some s) w)).
Proof.
  unfold order_recognized. simpl. apply Forall_forall. intros x Hx.
  now apply filter_In in Hx.
Qed.

Lemma recognized_engine_named (name : string) :
  webStorage.recognized name = true -> exists e, webStorage.engine_named name = Some e.
Proof.
  unfold webStorage.recognized, webStorage.engine_named. intros H.
  destruct (String.eqb name "local"); [eauto|].
  destruct (String.eqb name "session"); [eauto|].
  destruct (String.eqb name "memory"); [eauto|discriminate].
Qed.

(** ** The volatile engine's [isPolyfilled] (C8) *)

(** C8. [webStorage.memory.isPolyfilled] is the boolean [false], not a
    function: calling it, with any flag, raises a TypeError and changes
    nothing; it does not return false. *)
Theorem memory_isPolyfilled_not_callable (removeFlag : jsval) (w : world) :
  isPolyfilled webStorage.memory = Data (JBool false)
  /\ invoke "isPolyfilled" (isPolyfilled webStorage.memory) removeFlag w
     = Throws (TypeError "isPolyfilled is not a function") w.
Proof. split; reflexivity. Qed.

(** ** The service as the factory leaves it *)

Lemma testLocalStorage_returns (w : world) :
  exists b w', testLocalStorage w = Returns b w'.
Proof.
  unfold testLocalStorage, polyfillLocalStorage, try_catch, bind, gets, modify, ret.
  destruct (storage_missing _);
    destruct (Storage_setItem _ _ _ _); eauto;
    destruct (Storage_removeItem _ _ _); eauto.
Qed.

Lemma testSessionStorage_returns (w : world) :
  exists b w', testSessionStorage w = Returns b w'.
Proof.
  unfold testSessionStorage, polyfillSessionStorage, try_catch, bind, gets, modify, ret.
  destruct (storage_missing _);
    destruct (Storage_setItem _ _ _ _); eauto;
    destruct (Storage_removeItem _ _ _); eauto.
Qed.

(** The factory runs to its end, and leaves the settings at their defaults.
    The initialisers [var isLocalStoragePolyfilled = false] and
    [var isSessionStoragePolyfilled = false] run after the probes: whatever
    the page, the service starts with both flags false. *)
Lemma service_settings (local session : storage) (jar : cookie_jar) :
  let w := service local session jar in
  isLocalStoragePolyfilled w = false
  /\ isSessionStoragePolyfilled w = false
  /\ order w = default_order
  /\ prefix w = default_prefix
  /\ ram w = [].
Proof.
  unfold service, factory, bind, modify. cbv beta iota.
  destruct (testLocalStorage_returns (set_errorName default_errorName (hoisted local session jar)))
    as [l [w1 H1]].
  rewrite H1. cbv beta iota.
  destruct (testSessionStorage_returns (set_hasLocalStorage l w1)) as [s0 [w2 H2]].
  rewrite H2. simpl. repeat split; reflexivity.
Qed.

Lemma service_order_recognized (local session : storage) (jar : cookie_jar) :
  order_recognized (service local session jar).
Proof.
  unfold order_recognized.
  destruct (service_settings local session jar) as [_ [_ [-> _]]].
  repeat constructor.
Qed.

(** ** Polyfill status of the session engine (C2) *)

(** C2. Where the session engine is the cookie emulation,
    [session.isPolyfilled(true)] does not do what is asked of it.
    - On a page without [window.sessionStorage] the factory installs the
      emulation and then resets the flag: the call returns false and the
      emulation stays.
    - With the flag standing, the call returns true and sets
      [window.sessionStorage] to null, but clears the flag of the local
      engine instead of its own: the next [session.isPolyfilled()] still
      returns true, and [local.isPolyfilled()] now returns false although
      the local emulation is still installed. *)
Theorem session_isPolyfilled_remove_misses :
  (let w := service (NativeStorage [] 100) NullStorage (mkJar 4096 []) in
   window_sessionStorage w = CookieStorage 0
   /\ invoke "isPolyfilled" (isPolyfilled webStorage.session) (JBool true) w = Returns false w)
  /\
  (let w := both_emulated in
   exists w',
     invoke "isPolyfilled" (isPolyfilled webStorage.session) (JBool true) w = Returns true w'
     /\ window_sessionStorage w' = NullStorage
     /\ invoke "isPolyfilled" (isPolyfilled webStorage.session) JUndefined w' = Returns true w'
     /\ invoke "isPolyfilled" (isPolyfilled webStorage.local) JUndefined w = Returns true w
     /\ invoke "isPolyfilled" (isPolyfilled webStorage.local) JUndefined w' = Returns false w'
     /\ window_localStorage w' = CookieStorage 0).
Proof.
  split.
  - split; vm_compute; reflexivity.
  - eexists. repeat split; vm_compute; reflexivity.
Qed.

(** The slip holds in every state: removing the session emulation leaves
    the session flag as it was and clears the local one. *)
Lemma isSessionPolyfilled_clears_local_flag (w : world) :
  isSessionStoragePolyfilled w = true ->
  exists w',
    isSessionPolyfilled (JBool true) w = Returns true w'
    /\ isSessionStoragePolyfilled w' = true
    /\ isLocalStoragePolyfilled w' = false
    /\ window_sessionStorage w' = NullStorage.
Proof.
  intros H. unfold isSessionPolyfilled, bind, gets, modify, ret. rewrite H. simpl.
  eexists. repeat split. simpl. exact H.
Qed.

(** ** Exceptions of the backend in [key] (C4) *)

(** The setters, getters and removers run the backend inside try/catch;
    [keyInLocal] and [keyInSession] (and the two length functions) call it
    bare. *)

(** C4. [local.key(index)] on a supported engine whose backend raises: the
    error leaves the call, nothing is broadcast, no null is returned; the
    generic [key] passes the error on as well. *)
Theorem key_propagates_backend_error (index : Z) (w : world) :
  hasLocalStorage w = true ->
  window_localStorage w = NullStorage ->
  key webStorage.local index w = Throws (TypeError "Cannot read property 'key' of null") w
  /\ (forall rest all,
        order w = "local" :: rest ->
        webStorage.key_ index all w = Throws (TypeError "Cannot read property 'key' of null") w).
Proof.
  intros Hs Hn.
  assert (Hk : keyInLocal index w = Throws (TypeError "Cannot read property 'key' of null") w).
  { unfold keyInLocal, bind, gets, Storage_key. rewrite Hs. simpl. now rewrite Hn. }
  split; [exact Hk|].
  intros rest all Ho. unfold webStorage.key_, bind, gets. rewrite Ho. simpl.
  unfold bind, gets. simpl. rewrite Hs. now rewrite Hk.
Qed.

Lemma key_propagates_backend_error_witness :
  hasLocalStorage local_store_lost = true
  /\ window_localStorage local_store_lost = NullStorage
  /\ key webStorage.local 0 local_store_lost
     = Throws (TypeError "Cannot read property 'key' of null") local_store_lost
  /\ webStorage.key_ 0 None local_store_lost
     = Throws (TypeError "Cannot read property 'key' of null") local_store_lost.
Proof.
  assert (Hs : hasLocalStorage local_store_lost = true) by (vm_compute; reflexivity).
  assert (Hn : window_localStorage local_store_lost = NullStorage) by (vm_compute; reflexivity).
  split; [exact Hs|]. split; [exact Hn|].
  destruct (key_propagates_backend_error 0 local_store_lost Hs Hn) as [H1 H2].
  split; [exact H1|]. apply (H2 ["session"; "memory"] None). vm_compute; reflexivity.
Defined.

(** The same state is where [local.isPolyfilled(true)] leaves a service
    whose flag is standing. *)
Lemma key_after_polyfill_removal :
  exists w,
    invoke "isPolyfilled" (isPolyfilled webStorage.local) (JBool true) both_emulated
    = Returns true w
    /\ isSupported webStorage.local w = true
    /\ key webStorage.local 0 w = Throws (TypeError "Cannot read property 'key' of null") w.
Proof. eexists. repeat split; vm_compute; reflexivity. Qed.

(** The sibling paths do catch: on the same world [set], [get] and [remove]
    return their failure value and broadcast once. *)
Lemma siblings_catch_backend_error :
  let w := local_store_lost in
  let note := (default_errorName, "undefined: Cannot read property 'setItem' of null") in
  set webStorage.local "k" (JNum 1) w
  = Returns false (set_rootScope_broadcast [note] w)
  /\ outcome_value (get webStorage.local "k" w) = Some JNull
  /\ outcome_value (remove webStorage.local "k" w) = Some false.
Proof. repeat split; vm_compute; reflexivity. Qed.

(** ** Setters and the console *)

Lemma ignores_console_ret {A : Type} (a : A) : ignores_console (ret a).
Proof. intros l w. reflexivity. Qed.

Lemma ignores_console_throw {A : Type} (e : jserror) : ignores_console (@throw A e).
Proof. intros l w. reflexivity. Qed.

Lemma ignores_console_lift {A : Type} (c : completion A) : ignores_console (lift c).
Proof. destruct c; intros l w; reflexivity. Qed.

Lemma ignores_console_bind {A B : Type} (m : M A) (f : A -> M B) :
  ignores_console m -> (forall a, ignores_console (f a)) -> ignores_console (bind m f).
Proof.
  intros Hm Hf l w. unfold bind. rewrite Hm.
  destruct (m w) as [a w'|e w']; simpl; [apply Hf|reflexivity].
Qed.

Lemma ignores_console_try_catch {A : Type} (m : M A) (h : jserror -> M A) :
  ignores_console m -> (forall e, ignores_console (h e)) -> ignores_console (try_catch m h).
Proof.
  intros Hm Hh l w. unfold try_catch. rewrite Hm.
  destruct (m w) as [a w'|e w']; simpl; [reflexivity|apply Hh].
Qed.

Lemma ignores_console_gets {A : Type} (f : world -> A) :
  (forall l w, f (set_console_warn l w) = f w) -> ignores_console (gets f).
Proof. intros Hf l w. unfold gets. now rewrite Hf. Qed.

Lemma ignores_console_modify (f : world -> world) :
  (forall l w, f (set_console_warn l w) = set_console_warn l (f w)) ->
  ignores_console (modify f).
Proof. intros Hf l w. unfold modify. simpl. now rewrite Hf. Qed.

Lemma ignores_console_if {A : Type} (b : bool) (m1 m2 : M A) :
  ignores_console m1 -> ignores_console m2 -> ignores_console (if b then m1 else m2).
Proof. destruct b; auto. Qed.

Lemma ignores_console_Storage_member (sl : slot) (name : string) :
  ignores_console (Storage_member sl name).
Proof. intros l w. unfold Storage_member. destruct sl; simpl; destruct (_ w); reflexivity. Qed.

Lemma ignores_console_Storage_setItem (sl : slot) (k v : string) :
  ignores_console (Storage_setItem sl k v).
Proof.
  intros l w. unfold Storage_setItem.
  destruct sl; simpl.
  - destruct (window_localStorage w); simpl; try reflexivity.
    + destruct (_ <=? _)%nat; reflexivity.
    + destruct (String.eqb k EmptyString); [reflexivity|].
      destruct (cookie_equals_matches _); reflexivity.
  - destruct (window_sessionStorage w); simpl; try reflexivity.
    + destruct (_ <=? _)%nat; reflexivity.
    + destruct (String.eqb k EmptyString); [reflexivity|].
      destruct (cookie_equals_matches _); reflexivity.
Qed.

Lemma ignores_console_croak (e : jserror) : ignores_console (croak e).
Proof. intros l w. reflexivity. Qed.

Create HintDb console.
#[local] Hint Resolve ignores_console_ret ignores_console_throw ignores_console_lift
  ignores_console_bind ignores_console_try_catch ignores_console_gets
  ignores_console_modify ignores_console_if ignores_console_Storage_member
  ignores_console_Storage_setItem ignores_console_croak : console.

Lemma ignores_console_setInLocal (k : string) (v : jsval) : ignores_console (setInLocal k v).
Proof.
  unfold setInLocal. apply ignores_console_bind; [now apply ignores_console_gets|].
  intros has. apply ignores_console_if; [|apply ignores_console_ret].
  apply ignores_console_try_catch; [|apply ignores_console_croak].
  repeat (apply ignores_console_bind; [auto with console|intros ?]);
    auto with console.
Qed.

Lemma ignores_console_setInSession (k : string) (v : jsval) : ignores_console (setInSession k v).
Proof.
  unfold setInSession. apply ignores_console_bind; [now apply ignores_console_gets|].
  intros has. apply ignores_console_if; [|apply ignores_console_ret].
  apply ignores_console_try_catch; [|apply ignores_console_croak].
  repeat (apply ignores_console_bind; [auto with console|intros ?]);
    auto with console.
Qed.

Lemma ignores_console_setInMemory (k : string) (v : jsval) : ignores_console (setInMemory k v).
Proof.
  unfold setInMemory. apply ignores_console_bind; [|intros; apply ignores_console_ret].
  now apply ignores_console_modify.
Qed.

Lemma ignores_console_engine_set (name : string) (e : engine) (k : string) (v : jsval) :
  webStorage.engine_named name = Some e -> ignores_console (set e k v).
Proof.
  unfold webStorage.engine_named. intros H.
  destruct (String.eqb name "local");
    [injection H as <-; apply ignores_console_setInLocal|].
  destruct (String.eqb name "session");
    [injection H as <-; apply ignores_console_setInSession|].
  destruct (String.eqb name "memory");
    [injection H as <-; apply ignores_console_setInMemory|discriminate].
Qed.

Lemma isSupported_console (name : string) (e : engine) (l : list string) (w : world) :
  webStorage.engine_named name = Some e ->
  isSupported e (set_console_warn l w) = isSupported e w.
Proof.
  unfold webStorage.engine_named. intros H.
  destruct (String.eqb name "local"); [injection H as <-; reflexivity|].
  destruct (String.eqb name "session"); [injection H as <-; reflexivity|].
  destruct (String.eqb name "memory"); [injection H as <-; reflexivity|discriminate].
Qed.

Lemma ignores_console_set_loop (names : list string) (k : string) (v : jsval)
      (all result : bool) :
  ignores_console (webStorage.set_loop names k v all result).
Proof.
  revert result. induction names as [|name rest IH]; intros result; simpl.
  - apply ignores_console_ret.
  - unfold webStorage.lookup. destruct (webStorage.engine_named name) as [e|] eqn:E.
    + change (ignores_console
                (supported <- gets (isSupported e) ;;
                 if supported then
                   r <- set e k v ;;
                   if negb all then ret (r || result)
                   else webStorage.set_loop rest k v all (r || result)
                 else webStorage.set_loop rest k v all result)).
      apply ignores_console_bind.
      * apply ignores_console_gets. intros l w. now apply isSupported_console with name.
      * intros supported. apply ignores_console_if; [|apply IH].
        apply ignores_console_bind; [now apply ignores_console_engine_set with name|].
        intros r. apply ignores_console_if; [apply ignores_console_ret|apply IH].
    + intros l w. reflexivity.
Qed.

Lemma ignores_console_set (k : string) (v : jsval) (all : option bool) :
  ignores_console (webStorage.set_ k v all).
Proof.
  unfold webStorage.set_. apply ignores_console_bind.
  - now apply ignores_console_gets.
  - intros names. apply ignores_console_set_loop.
Qed.

Lemma stored_contents_console (name : string) (l : list string) (w : world) :
  stored_contents name (set_console_warn l w) = stored_contents name w.
Proof. reflexivity. Qed.

(** ** The deprecated [add] (C10) *)

(** C10. The generic [add(k, v, allEngines)] and each engine's [add(k, v)]
    behave as the corresponding [set]: the same result (or the same error),
    and the same world but for the deprecation warning that [add] puts on
    the console first; in particular every engine holds the same contents
    after either call. *)
Theorem add_behaves_as_set (k : string) (v : jsval) (all : option bool) (w : world) :
  webStorage.add_ k v all w = outcome_map (warned w) (webStorage.set_ k v all w)
  /\ add webStorage.local k v w = outcome_map (warned w) (set webStorage.local k v w)
  /\ add webStorage.session k v w = outcome_map (warned w) (set webStorage.session k v w)
  /\ add webStorage.memory k v w = outcome_map (warned w) (set webStorage.memory k v w)
  /\ (forall name,
        stored_contents name (outcome_world (webStorage.add_ k v all w))
        = stored_contents name (outcome_world (webStorage.set_ k v all w))).
Proof.
  assert (Hg : webStorage.add_ k v all w = outcome_map (warned w) (webStorage.set_ k v all w)).
  { unfold webStorage.add_, console_warning, bind at 1, modify. apply ignores_console_set. }
  split; [exact Hg|]. split; [|split; [|split]].
  - simpl. unfold addToLocal, console_warning, bind at 1, modify. apply ignores_console_setInLocal.
  - simpl. unfold addToSession, console_warning, bind at 1, modify. apply ignores_console_setInSession.
  - simpl. unfold addToMemory, console_warning, bind at 1, modify. apply ignores_console_setInMemory.
  - intros name. rewrite Hg. destruct (webStorage.set_ k v all w); reflexivity.
Qed.

(** ** The getters of the native-backed engines *)

Lemma Storage_getItem_pure (sl : slot) (sKey : string) (w : world) :
  Storage_getItem sl sKey w
  = match stored_text sl sKey w with
    | Normal o => Returns o w
    | Abrupt e => Throws e w
    end.
Proof.
  unfold stored_text, Storage_getItem.
  destruct (window_storage sl w); try reflexivity.
  destruct (_ || _); reflexivity.
Qed.

(** A getter never raises: it returns [read_value], having broadcast the
    error if there was one, and changes nothing else. *)
Lemma getFromSlot_returns (sl : slot) (k : string) (w : world) :
  getFromSlot sl k w
  = Returns (fst (read_value sl k w))
      (match snd (read_value sl k w) with
       | Some e => notified (note_of e w) w
       | None => w
       end).
Proof.
  unfold read_value.
  assert (H : getFromSlot sl k w
              = if slot_supported sl w then
                  try_catch
                    (p <- gets prefix ;;
                     value <- Storage_getItem sl (p ++ k) ;;
                     parse_stored value)
                    (fun e => croak e ;;; ret JNull) w
                else Returns JNull w).
  { destruct sl; simpl; [unfold getFromLocal|unfold getFromSession];
      unfold bind at 1, gets at 1; simpl;
      match goal with |- context [if ?b then _ else _] => destruct b end; reflexivity. }
  rewrite H. clear H.
  destruct (slot_supported sl w); [|reflexivity].
  unfold try_catch, bind at 1, gets at 1. unfold bind at 1.
  rewrite Storage_getItem_pure.
  destruct (stored_text sl (prefix w ++ k) w) as [[text|]|e]; simpl; try reflexivity.
  destruct text as [|c r]; [reflexivity|].
  unfold lift. destruct (JSON_parse (String c r)); reflexivity.
Qed.

Lemma stored_text_broadcast (sl : slot) (sKey : string) (l : list (string * string)) (w : world) :
  stored_text sl sKey (set_rootScope_broadcast l w) = stored_text sl sKey w.
Proof. unfold stored_text, Storage_getItem. destruct sl; simpl; destruct (_ w); try reflexivity;
       destruct (_ || _); reflexivity. Qed.

Lemma read_value_broadcast (sl : slot) (k : string) (l : list (string * string)) (w : world) :
  read_value sl k (set_rootScope_broadcast l w) = read_value sl k w.
Proof.
  unfold read_value. rewrite stored_text_broadcast. destruct sl; reflexivity.
Qed.

(** ** [has] and [get] (C9) *)

(** C9. [has] is true exactly when the matching [get] returns something
    other than null, for the generic [has(k, allEngines)] and for the [has]
    of each engine, and it does to the world what that [get] does.  A key
    that holds the literal null is thus reported as absent: after
    [memory.set(k, null)], [memory.has(k)] is false although [ram] has the
    key, and after [local.set("n", null)] on a working local store
    [local.has("n")] is false although the store holds the text [null]. *)
Theorem has_iff_get_not_null (k : string) (all : option bool) (w : world) :
  (forall b w', webStorage.has_ k all w = Returns b w' <->
                exists v, webStorage.get_ k all w = Returns v w' /\ b = negb (is_null v))
  /\ (forall name e, webStorage.engine_named name = Some e ->
      forall b w', has e k w = Returns b w' <->
                   exists v, get e k w = Returns v w' /\ b = negb (is_null v))
  /\ (exists w1,
        set webStorage.memory k JNull w = Returns true w1
        /\ alist_get k (ram w1) = Some JNull
        /\ has webStorage.memory k w1 = Returns false w1)
  /\ (exists w1,
        set webStorage.local "n" JNull small_store = Returns true w1
        /\ stored_contents "local" w1 = Entries [("n", "null")]
        /\ has webStorage.local "n" w1 = Returns false w1).
Proof.
  assert (G : forall (m : M jsval) b w',
             bind m (fun v => ret (negb (is_null v))) w = Returns b w' <->
             exists v, m w = Returns v w' /\ b = negb (is_null v)).
  { intros m b w'. unfold bind, ret. destruct (m w) as [v w1|e w1]; split.
    - intros H. injection H as <- <-. eauto.
    - intros [v' [H ->]]. now injection H as <- <-.
    - discriminate.
    - intros [v' [H _]]. discriminate. }
  split; [|split; [|split]].
  - intros b w'. apply G.
  - intros name e He b w'. unfold webStorage.engine_named in He.
    destruct (String.eqb name "local"); [injection He as <-; apply G|].
    destruct (String.eqb name "session"); [injection He as <-; apply G|].
    destruct (String.eqb name "memory"); [injection He as <-; apply G|discriminate].
  - eexists. split; [reflexivity|]. simpl. split.
    + apply alist_get_set_same.
    + unfold hasInMemory, getFromMemory, bind, gets, ret. simpl.
      now rewrite alist_get_set_same.
  - exists (outcome_world (set webStorage.local "n" JNull small_store)).
    repeat split; vm_compute; reflexivity.
Qed.

(** ** The generic [get] (C5) *)

Lemma world_broadcast_eta (w : world) :
  set_rootScope_broadcast (rootScope_broadcast w) w = w.
Proof. now destruct w. Qed.

(** Every engine's [get] returns, and touches nothing but the broadcasts. *)
Lemma engine_get_returns (name : string) (e : engine) (k : string) (w : world) :
  webStorage.engine_named name = Some e ->
  exists v l, get e k w = Returns v (set_rootScope_broadcast l w).
Proof.
  unfold webStorage.engine_named. intros H.
  assert (S : forall sl, exists v l,
               getFromSlot sl k w = Returns v (set_rootScope_broadcast l w)).
  { intros sl. rewrite getFromSlot_returns. eexists.
    destruct (snd (read_value sl k w)).
    - eexists. reflexivity.
    - exists (rootScope_broadcast w). now rewrite world_broadcast_eta. }
  destruct (String.eqb name "local"); [injection H as <-; apply (S LocalSlot)|].
  destruct (String.eqb name "session"); [injection H as <-; apply (S SessionSlot)|].
  destruct (String.eqb name "memory"); [injection H as <-|discriminate].
  exists (match alist_get k (ram w) with Some v => v | None => JNull end),
         (rootScope_broadcast w).
  rewrite world_broadcast_eta. reflexivity.
Qed.

(** What a [get] answers does not depend on the broadcasts so far. *)
Lemma engine_get_broadcast (name : string) (e : engine) (k : string)
      (l : list (string * string)) (w : world) :
  webStorage.engine_named name = Some e ->
  outcome_value (get e k (set_rootScope_broadcast l w)) = outcome_value (get e k w).
Proof.
  unfold webStorage.engine_named. intros H.
  assert (S : forall sl, outcome_value (getFromSlot sl k (set_rootScope_broadcast l w))
                         = outcome_value (getFromSlot sl k w)).
  { intros sl. rewrite !getFromSlot_returns. simpl. now rewrite read_value_broadcast. }
  destruct (String.eqb name "local"); [injection H as <-; apply (S LocalSlot)|].
  destruct (String.eqb name "session"); [injection H as <-; apply (S SessionSlot)|].
  destruct (String.eqb name "memory"); [injection H as <-; reflexivity|discriminate].
Qed.

Lemma isSupported_broadcast (name : string) (e : engine)
      (l : list (string * string)) (w : world) :
  webStorage.engine_named name = Some e ->
  isSupported e (set_rootScope_broadcast l w) = isSupported e w.
Proof.
  unfold webStorage.engine_named. intros H.
  destruct (String.eqb name "local"); [injection H as <-; reflexivity|].
  destruct (String.eqb name "session"); [injection H as <-; reflexivity|].
  destruct (String.eqb name "memory"); [injection H as <-; reflexivity|discriminate].
Qed.

Lemma first_non_null_null (l : list jsval) :
  first_non_null l = JNull <-> Forall (fun v => v = JNull) l.
Proof.
  induction l as [|v r IH]; simpl.
  - split; auto.
  - destruct v; simpl; try (split; [discriminate|intros H; inversion H; discriminate]).
    rewrite IH. split; [auto|intros H; now inversion H].
Qed.

Lemma get_loop_first_non_null (k : string) (w : world) (names : list string) :
  Forall (fun name => webStorage.recognized name = true) names ->
  forall l, exists l',
    webStorage.get_loop names k true (set_rootScope_broadcast l w)
    = Returns (first_non_null (map (consult k w) names)) (set_rootScope_broadcast l' w).
Proof.
  induction 1 as [|name rest Hname Hrest IH]; intros l; simpl.
  - eexists. reflexivity.
  - destruct (recognized_engine_named name Hname) as [e He].
    unfold webStorage.lookup, consult. rewrite He.
    unfold bind at 1, ret at 1. unfold bind at 1, gets at 1.
    rewrite (isSupported_broadcast name e l w He).
    destruct (isSupported e w); [|apply IH].
    destruct (engine_get_returns name e k (set_rootScope_broadcast l w) He) as [v [l1 Hv]].
    pose proof (engine_get_broadcast name e k l w He) as Hb.
    unfold bind at 1. rewrite Hv in *. simpl in Hb.
    destruct (get e k w) as [v0 w0|]; [|discriminate]. injection Hb as <-.
    destruct (is_null v) eqn:Hnull; simpl.
    + apply (IH l1).
    + eexists. reflexivity.
Qed.

(** C5. With the order holding engine identifiers (as it always does), the
    generic [get(k)] called without flag returns, and its result is the
    first non-null answer among the engines of the order, unsupported
    engines counting as null; so it is null exactly when every engine of the
    order is unsupported or answers null for [k]. *)
Theorem generic_get_first_non_null (k : string) (w : world) :
  order_recognized w ->
  exists w',
    webStorage.get_ k None w = Returns (first_non_null (map (consult k w) (order w))) w'
    /\ (first_non_null (map (consult k w) (order w)) = JNull <->
        forall name e, In name (order w) -> webStorage.engine_named name = Some e ->
                       isSupported e w = false \/ outcome_value (get e k w) = Some JNull).
Proof.
  intros Hord.
  destruct (get_loop_first_non_null k w (order w) Hord (rootScope_broadcast w)) as [l' Hl].
  rewrite world_broadcast_eta in Hl.
  exists (set_rootScope_broadcast l' w). split; [exact Hl|].
  rewrite first_non_null_null, Forall_map, Forall_forall.
  split.
  - intros H name e Hin He. specialize (H name Hin). unfold consult in H. rewrite He in H.
    destruct (isSupported e w); [right|now left].
    destruct (engine_get_returns name e k w He) as [v [l Hv]]. rewrite Hv in *. simpl.
    now f_equal.
  - intros H name Hin. unfold consult.
    destruct (webStorage.engine_named name) as [e|] eqn:He; [|reflexivity].
    destruct (H name e Hin He) as [Hs|Hg]; [now rewrite Hs|].
    destruct (isSupported e w); [|reflexivity].
    destruct (get e k w); simpl in Hg; [now injection Hg|reflexivity].
Qed.

Lemma generic_get_first_non_null_witness :
  let w := service (NativeStorage [("a", "1")] 100) (NativeStorage [("b", "null")] 100)
             (mkJar 4096 []) in
  order_recognized w
  /\ outcome_value (webStorage.get_ "a" None w) = Some (JNum 1)
  /\ outcome_value (webStorage.get_ "b" None w) = Some JNull.
Proof.
  intros w.
  assert (Hord : order_recognized w).
  { unfold order_recognized. repeat constructor. }
  split; [exact Hord|].
  destruct (generic_get_first_non_null "a" w Hord) as [wa [Ha _]].
  destruct (generic_get_first_non_null "b" w Hord) as [wb [Hb _]].
  rewrite Ha, Hb. split; vm_compute; reflexivity.
Defined.

(** ** The generic [set] on one engine (C6) *)

Lemma bind_ret_orb_false (m : M bool) (w : world) :
  bind m (fun r => ret (r || false)) w = m w.
Proof. unfold bind, ret. destruct (m w); [now rewrite orb_false_r|reflexivity]. Qed.

Lemma set_loop_first_supported (k : string) (v : jsval) (w : world) (names : list string) :
  Forall (fun name => webStorage.recognized name = true) names ->
  webStorage.set_loop names k v false false w
  = match first_supported names w with
    | Some (_, e) => set e k v w
    | None => Returns false w
    end.
Proof.
  induction 1 as [|name rest Hname Hrest IH]; simpl; [reflexivity|].
  destruct (recognized_engine_named name Hname) as [e He].
  unfold webStorage.lookup. rewrite He.
  unfold bind at 1, ret at 1. unfold bind at 1, gets at 1.
  destruct (isSupported e w); [|exact IH].
  apply bind_ret_orb_false.
Qed.

(** A native-backed setter writes to its own global, to the cookies when
    that global is the emulation, and to the broadcasts; to nothing else. *)
Lemma setInSlot_frame (sl : slot) (k : string) (v : jsval) (w : world) :
  let w' := outcome_world (setInSlot sl k v w) in
  window_storage (other_slot sl) w' = window_storage (other_slot sl) w
  /\ ram w' = ram w
  /\ ((forall len, window_storage sl w <> CookieStorage len) ->
      document_cookie w' = document_cookie w).
Proof.
  destruct w as [ls ss jar cw bc en hl hs pl ps ord pre mem].
  destruct sl; run_setter.
  - destruct hl; simpl; [|repeat split].
    destruct ls as [items quota|len|]; simpl.
    + destruct (JSON_stringify v); simpl; [|repeat split].
      break_matches; repeat split.
    + split; [|split].
      * break_matches; reflexivity.
      * break_matches; reflexivity.
      * intros H. now elim (H len).
    + repeat split.
  - destruct hs; simpl; [|repeat split].
    destruct ss as [items quota|len|]; simpl.
    + destruct (JSON_stringify v); simpl; [|repeat split].
      break_matches; repeat split.
    + split; [|split].
      * break_matches; reflexivity.
      * break_matches; reflexivity.
      * intros H. now elim (H len).
    + repeat split.
Qed.

Lemma engine_named_cases (name : string) (e : engine) :
  webStorage.engine_named name = Some e ->
  (name = "local" /\ e = webStorage.local)
  \/ (name = "session" /\ e = webStorage.session)
  \/ (name = "memory" /\ e = webStorage.memory).
Proof.
  unfold webStorage.engine_named. intros H.
  destruct (String.eqb name "local") eqn:E1.
  { apply String.eqb_eq in E1. injection H as <-. auto. }
  destruct (String.eqb name "session") eqn:E2.
  { apply String.eqb_eq in E2. injection H as <-. auto. }
  destruct (String.eqb name "memory") eqn:E3; [|discriminate].
  apply String.eqb_eq in E3. injection H as <-. auto.
Qed.

(** A write through one engine leaves the contents of another engine as
    they were, unless both are cookie emulations: those keep their entries
    in the one [document.cookie]. *)
Lemma engine_set_frame (name other : string) (e : engine) (k : string) (v : jsval) (w : world) :
  webStorage.engine_named name = Some e ->
  webStorage.recognized other = true -> other <> name ->
  cookie_backed name w && cookie_backed other w = false ->
  stored_contents other (outcome_world (set e k v w)) = stored_contents other w.
Proof.
  intros He Ho Hne Hc.
  apply recognized_iff in Ho. simpl in Ho.
  pose proof (setInSlot_frame LocalSlot k v w) as [L1 [L2 L3]].
  pose proof (setInSlot_frame SessionSlot k v w) as [S1 [S2 S3]].
  simpl in L1, L2, L3, S1, S2, S3.
  destruct (engine_named_cases name e He) as [[-> ->]|[[-> ->]|[-> ->]]];
    destruct Ho as [<-|[<-|[<-|[]]]]; try congruence; clear Hne;
    unfold stored_contents, cookie_backed, backend in *; simpl in *.
  - (* local written, session read *)
    rewrite L1. destruct (window_sessionStorage w) eqn:Hs; try reflexivity.
    rewrite L3; [reflexivity|]. intros len Hl. rewrite Hl in Hc. discriminate.
  - now rewrite L2.
  - rewrite S1. destruct (window_localStorage w) eqn:Hs; try reflexivity.
    rewrite S3; [reflexivity|]. intros len Hl. rewrite Hl in Hc. discriminate.
  - now rewrite S2.
  - reflexivity.
  - reflexivity.
Qed.

Lemma first_supported_some (names : list string) (w : world) (name : string) (e : engine) :
  first_supported names w = Some (name, e) ->
  In name names /\ webStorage.engine_named name = Some e /\ isSupported e w = true.
Proof.
  induction names as [|n rest IH]; simpl; [discriminate|].
  destruct (webStorage.engine_named n) as [e'|] eqn:He.
  - destruct (isSupported e' w) eqn:Hs.
    + intros H. injection H as <- <-. auto.
    + intros H. destruct (IH H) as [? [? ?]]. auto.
  - intros H. destruct (IH H) as [? [? ?]]. auto.
Qed.

Lemma first_supported_none (names : list string) (w : world) :
  first_supported names w = None ->
  forall name e, In name names -> webStorage.engine_named name = Some e ->
                 isSupported e w = false.
Proof.
  induction names as [|n rest IH]; simpl; [contradiction|].
  intros H name e [<-|Hin] He.
  - rewrite He in H. destruct (isSupported e w); [discriminate|reflexivity].
  - destruct (webStorage.engine_named n) as [e'|].
    + destruct (isSupported e' w); [discriminate|]. now apply (IH H name).
    + now apply (IH H name).
Qed.

(** The setters of the three engines always return. *)
Lemma setInSlot_returns (sl : slot) (k : string) (v : jsval) (w : world) :
  exists b w', setInSlot sl k v w = Returns b w'.
Proof.
  destruct w as [ls ss jar cw bc en hl hs pl ps ord pre mem].
  destruct sl; run_setter; break_matches; eauto.
Qed.

Lemma engine_set_returns (name : string) (e : engine) (k : string) (v : jsval) (w : world) :
  webStorage.engine_named name = Some e -> exists b w', set e k v w = Returns b w'.
Proof.
  intros He. destruct (engine_named_cases name e He) as [[_ ->]|[[_ ->]|[_ ->]]].
  - apply (setInSlot_returns LocalSlot).
  - apply (setInSlot_returns SessionSlot).
  - eexists. eexists. reflexivity.
Qed.

(** On a page without native stores the generic [set("x", 1, false)] goes
    to the local engine alone and yet the session engine holds the entry
    afterwards: both emulations read and write [document.cookie]. *)
Lemma single_engine_write_shared_cookies :
  order_recognized cookies_only
  /\ option_map fst (first_supported (order cookies_only) cookies_only) = Some "local"
  /\ (exists w',
        webStorage.set_ "x" (JNum 1) (Some false) cookies_only = Returns true w'
        /\ outcome_value (get webStorage.session "x" cookies_only) = Some JNull
        /\ outcome_value (get webStorage.session "x" w') = Some (JNum 1)
        /\ stored_contents "session" cookies_only = Entries []
        /\ stored_contents "session" w' = Entries [("x", "1")])
  /\ ~ single_engine_write "x" (JNum 1) cookies_only.
Proof.
  split; [unfold order_recognized; vm_compute; repeat constructor|].
  split; [vm_compute; reflexivity|].
  split.
  - eexists. split; [vm_compute; reflexivity|].
    repeat split; vm_compute; reflexivity.
  - unfold single_engine_write.
    assert (F : first_supported (order cookies_only) cookies_only
                = Some ("local", webStorage.local)) by reflexivity.
    rewrite F. intros [_ H].
    specialize (H "session" eq_refl). vm_compute in H.
    assert (D : "session" <> "local") by discriminate.
    specialize (H D). discriminate.
Qed.

(** C6 (amended). With the order holding engine identifiers, the generic
    [set(k, v, false)] is the [set] of the first supported engine of the
    order and of that engine alone: it returns what that call returns, true
    or false, and does to the world what that call does.  The contents of
    every other engine stay as they were, except that a cookie-emulated
    local engine and a cookie-emulated session engine share the cookies of
    the document.  With no supported engine in the order the result is
    false and nothing changes. *)
Theorem generic_set_first_supported (k : string) (v : jsval) (w : world) :
  order_recognized w ->
  match first_supported (order w) w with
  | Some (name, e) =>
      In name (order w) /\ webStorage.engine_named name = Some e /\ isSupported e w = true
      /\ webStorage.set_ k v (Some false) w = set e k v w
      /\ (exists b w', webStorage.set_ k v (Some false) w = Returns b w')
      /\ (forall other,
            webStorage.recognized other = true -> other <> name ->
            cookie_backed name w && cookie_backed other w = false ->
            stored_contents other (outcome_world (webStorage.set_ k v (Some false) w))
            = stored_contents other w)
  | None =>
      webStorage.set_ k v (Some false) w = Returns false w
      /\ (forall name e, In name (order w) -> webStorage.engine_named name = Some e ->
                         isSupported e w = false)
  end.
Proof.
  intros Hord.
  assert (Hset : webStorage.set_ k v (Some false) w
                 = match first_supported (order w) w with
                   | Some (_, e) => set e k v w
                   | None => Returns false w
                   end).
  { unfold webStorage.set_, bind, gets. simpl. now apply set_loop_first_supported. }
  destruct (first_supported (order w) w) as [[name e]|] eqn:F.
  - destruct (first_supported_some _ _ _ _ F) as [Hin [He Hs]].
    repeat split; auto.
    + rewrite Hset. now apply engine_set_returns with name.
    + intros other Ho Hne Hc. rewrite Hset. now apply engine_set_frame with name.
  - split; [exact Hset|]. now apply first_supported_none.
Qed.

Lemma generic_set_first_supported_witness :
  let w := service (NativeStorage [] 0) NullStorage (mkJar 4096 []) in
  order_recognized w
  /\ hasLocalStorage w = false
  /\ webStorage.set_ "x" (JNum 1) (Some false) w = set webStorage.session "x" (JNum 1) w
  /\ stored_contents "memory" (outcome_world (webStorage.set_ "x" (JNum 1) (Some false) w))
     = stored_contents "memory" w.
Proof.
  intros w.
  assert (Hord : order_recognized w) by (unfold order_recognized; vm_compute; repeat constructor).
  split; [exact Hord|]. split; [vm_compute; reflexivity|].
  pose proof (generic_set_first_supported "x" (JNum 1) w Hord) as H.
  assert (F : first_supported (order w) w = Some ("session", webStorage.session))
    by reflexivity.
  rewrite F in H. destruct H as [_ [_ [_ [Heq [_ Hframe]]]]].
  split; [exact Heq|].
  apply Hframe; [reflexivity|discriminate|vm_compute; reflexivity].
Defined.

(** ** JSON texts read back *)

Lemma JSON_stringify_array (l : list jsval) :
  JSON_stringify (JArr l)
  = match stringify_items l with
    | Abrupt e => Abrupt e
    | Normal t => Normal (Some ("[" ++ join_comma t ++ "]"))
    end.
Proof.
  simpl. 
  match goal with |- match ?f l with _ => _ end = _ =>
    assert (E : forall l', f l' = stringify_items l') end.
  { induction l' as [|x r IH]; [reflexivity|]. cbn [stringify_items]. rewrite <- IH. reflexivity. }
  now rewrite E.
Qed.

Lemma JSON_stringify_object (l : list (string * jsval)) :
  JSON_stringify (JObj l)
  = match stringify_members l with
    | Abrupt e => Abrupt e
    | Normal t => Normal (Some ("{" ++ join_comma t ++ "}"))
    end.
Proof.
  simpl.
  match goal with |- match ?f l with _ => _ end = _ =>
    assert (E : forall l', f l' = stringify_members l') end.
  { induction l' as [|[k x] r IH]; [reflexivity|]. cbn [stringify_members]. rewrite <- IH. reflexivity. }
  now rewrite E.
Qed.

(** *** Strings *)

Lemma string_app_assoc (a b c : string) : (a ++ b) ++ c = a ++ (b ++ c).
Proof. induction a as [|x a IH]; simpl; [reflexivity|now rewrite IH]. Qed.

Lemma string_app_nil_r (a : string) : a ++ EmptyString = a.
Proof. induction a as [|x a IH]; simpl; [reflexivity|now rewrite IH]. Qed.

Lemma string_length_app (a b : string) :
  String.length (a ++ b) = String.length a + String.length b.
Proof. induction a as [|x a IH]; simpl; [reflexivity|now rewrite IH]. Qed.

(** *** Numbers *)

Lemma delimited_no_digit (rest : string) :
  delimited rest -> read_digits rest = (Nil, rest).
Proof.
  destruct rest as [|c r]; [reflexivity|]. simpl delimited.
  intros [ -> | [ -> | -> ] ]; reflexivity.
Qed.

Lemma delimited_ends_number (rest : string) :
  delimited rest -> continues_number rest = false.
Proof.
  destruct rest as [|c r]; [reflexivity|]. simpl delimited.
  intros [ -> | [ -> | -> ] ]; reflexivity.
Qed.

Lemma delimited_skip_ws (rest : string) : delimited rest -> skip_ws rest = rest.
Proof.
  destruct rest as [|c r]; [reflexivity|]. simpl delimited.
  intros [ -> | [ -> | -> ] ]; reflexivity.
Qed.

Lemma read_digits_string_of_uint (u : uint) (rest : string) :
  delimited rest -> read_digits (NilEmpty.string_of_uint u ++ rest) = (u, rest).
Proof.
  intros Hd. induction u; simpl; try (rewrite IHu; reflexivity).
  now apply delimited_no_digit.
Qed.

Lemma nzhead_no_leading_zero (u d : uint) : nzhead u <> D0 d.
Proof. induction u; simpl; try discriminate. exact IHu. Qed.

Lemma unorm_fixpoint_well_formed (u : uint) : unorm u = u -> well_formed_int u = true.
Proof.
  unfold unorm. destruct u; simpl; try reflexivity.
  - discriminate.
  - destruct (nzhead u) eqn:E; intros H; try discriminate.
    + injection H as <-. reflexivity.
    + now elim (nzhead_no_leading_zero u u0).
Qed.

Lemma to_uint_well_formed (p : positive) : well_formed_int (Pos.to_uint p) = true.
Proof.
  apply unorm_fixpoint_well_formed.
  rewrite <- (DecimalPos.Unsigned.to_of (Pos.to_uint p)).
  now rewrite DecimalPos.Unsigned.of_to.
Qed.

Lemma string_of_uint_nonnil (u : uint) :
  u <> Nil -> NilZero.string_of_uint u = NilEmpty.string_of_uint u.
Proof. destruct u; [congruence|reflexivity..]. Qed.

Lemma read_number_unsigned (u : uint) (rest : string) :
  u <> Nil -> well_formed_int u = true -> delimited rest ->
  read_number (NilEmpty.string_of_uint u ++ rest) = Some (Z.of_int (Pos u), rest)
  /\ read_number (String "-" (NilEmpty.string_of_uint u ++ rest)) = Some (Z.of_int (Neg u), rest).
Proof.
  intros Hn Hw Hd. unfold read_number.
  split.
  - assert (H : read_digits (NilEmpty.string_of_uint u ++ rest) = (u, rest))
      by now apply read_digits_string_of_uint.
    destruct u; try congruence;
      cbn [NilEmpty.string_of_uint append] in *; rewrite H, Hw, (delimited_ends_number _ Hd);
      reflexivity.
  - rewrite (read_digits_string_of_uint u rest Hd), Hw, (delimited_ends_number _ Hd).
    reflexivity.
Qed.

Lemma read_number_string_of_Z (n : Z) (rest : string) :
  delimited rest ->
  read_number (string_of_Z n ++ rest) = Some (n, rest)
  /\ exists c r, string_of_Z n = String c r /\ number_start c.
Proof.
  intros Hd. unfold string_of_Z.
  rewrite <- (DecimalZ.of_to n) at 2.
  destruct n as [|p|p]; simpl Z.to_int.
  - split; [|exists "0"%char, EmptyString; split; [reflexivity|right; eexists; reflexivity]].
    unfold read_number. simpl. rewrite (delimited_no_digit _ Hd), (delimited_ends_number _ Hd).
    reflexivity.
  - pose proof (DecimalPos.Unsigned.to_uint_nonnil p) as Hn.
    pose proof (to_uint_well_formed p) as Hw.
    unfold NilZero.string_of_int. rewrite (string_of_uint_nonnil _ Hn).
    split; [apply read_number_unsigned; assumption|].
    destruct (Pos.to_uint p); try congruence;
      eexists; eexists; (split; [reflexivity|right; eexists; reflexivity]).
  - pose proof (DecimalPos.Unsigned.to_uint_nonnil p) as Hn.
    pose proof (to_uint_well_formed p) as Hw.
    unfold NilZero.string_of_int. rewrite (string_of_uint_nonnil _ Hn).
    split; [apply read_number_unsigned; assumption|].
    eexists; eexists; split; [reflexivity|now left].
Qed.

(** *** Strings literals *)

Lemma read_string_quote_char (c : ascii) (t : string) :
  read_string (json_quote_char c ++ t)
  = match read_string t with
    | Some (s, r) => Some (String c s, r)
    | None => None
    end.
Proof. destruct c as [[|] [|] [|] [|] [|] [|] [|] [|]]; reflexivity. Qed.

Lemma read_string_quote_body (s rest : string) :
  read_string (json_quote_body s ++ String dquote rest) = Some (s, rest).
Proof.
  induction s as [|c r IH].
  - reflexivity.
  - cbn [json_quote_body]. rewrite string_app_assoc, read_string_quote_char, IH.
    reflexivity.
Qed.

(** *** Values *)

Lemma parse_value_number (c : ascii) (r : string) (f : nat) :
  number_start c ->
  is_ws c = false /\ c <> "]"%char
  /\ parse_value (S f) (String c r)
     = option_map (fun p => (JNum (fst p), snd p)) (read_number (String c r)).
Proof.
  intros [->|[d Hd]]; [repeat split; discriminate|].
  destruct c as [[|] [|] [|] [|] [|] [|] [|] [|]]; try discriminate Hd;
    repeat split; discriminate.
Qed.

Lemma reads_back_number (n : Z) : reads_back (JNum n) (string_of_Z n).
Proof.
  destruct (read_number_string_of_Z n EmptyString I) as [_ [c [r [Ht Hc]]]].
  destruct (parse_value_number c r 0 Hc) as [Hws [Hb _]].
  split; [exists c, r; auto|].
  intros fuel rest Hf Hd.
  destruct (read_number_string_of_Z n rest Hd) as [Hr _].
  destruct fuel as [|f]; [rewrite Ht in Hf; simpl in Hf; lia|].
  rewrite Ht in *. cbn [append] in *.
  destruct (parse_value_number c (r ++ rest) f Hc) as [_ [_ Hp]].
  rewrite Hp, Hr. reflexivity.
Qed.

Lemma reads_back_string (s : string) : reads_back (JStr s) (json_quote s).
Proof.
  split; [eexists; eexists; split; [reflexivity|split; [reflexivity|discriminate]]|].
  intros fuel rest Hf Hd.
  destruct fuel as [|f]; [simpl in Hf; lia|].
  unfold json_quote. cbn [append]. rewrite string_app_assoc. cbn [append].
  change (parse_value (S f) (String dquote (json_quote_body s ++ String dquote rest)))
    with (option_map (fun p => (JStr (fst p), snd p))
            (read_string (json_quote_body s ++ String dquote rest))).
  now rewrite read_string_quote_body.
Qed.

Lemma alist_set_fresh {V : Type} (k : string) (v : V) (l : list (string * V)) :
  ~ In k (map fst l) -> alist_set k v l = (l ++ [(k, v)])%list.
Proof.
  induction l as [|[k' v'] r IH]; simpl; [reflexivity|].
  intros H. destruct (String.eqb_spec k k') as [->|Hne].
  - elim H. now left.
  - rewrite IH; [reflexivity|]. intros Hin. apply H. now right.
Qed.

Lemma fold_alist_set_distinct (l acc : list (string * jsval)) :
  NoDup (map fst (acc ++ l)%list) ->
  fold_left (fun a kv => alist_set (fst kv) (snd kv) a) l acc = (acc ++ l)%list.
Proof.
  revert acc. induction l as [|[k v] r IH]; intros acc H; simpl.
  - now rewrite app_nil_r.
  - rewrite alist_set_fresh.
    + rewrite IH; rewrite <- app_assoc; [reflexivity|exact H].
    + rewrite map_app in H. simpl in H. apply NoDup_remove_2 in H.
      intros Hin. apply H. apply in_or_app. now left.
Qed.

Lemma object_of_members_distinct (l : list (string * jsval)) :
  NoDup (map fst l) -> object_of_members l = JObj l.
Proof. intros H. unfold object_of_members. now rewrite fold_alist_set_distinct. Qed.

(** The elements of an array, after the opening bracket. *)
Lemma parse_elements_items (l : list jsval) :
  Forall (fun x => json_value x ->
                   exists t, JSON_stringify x = Normal (Some t) /\ reads_back x t) l ->
  Forall json_value l ->
  l <> [] ->
  exists ts,
    stringify_items l = Normal ts
    /\ starts_value (join_comma ts)
    /\ forall fuel rest,
         2 * String.length (join_comma ts) + 1 <= fuel ->
         parse_elements fuel (join_comma ts ++ String "]" rest) = Some (l, rest).
Proof.
  induction 1 as [|x r Hx Hr IH]; intros Hv Hne; [congruence|].
  inversion Hv as [|? ? Hvx Hvr]; subst.
  destruct (Hx Hvx) as [t [Ht [Hstart Hread]]].
  cbn [stringify_items]. rewrite Ht.
  destruct r as [|y r'].
  - (* last element *)
    exists [t]. split; [reflexivity|]. split; [exact Hstart|].
    intros fuel rest Hf. cbn [join_comma] in *.
    destruct fuel as [|f]; [lia|]. cbn [parse_elements].
    rewrite (Hread f (String "]" rest)); [reflexivity|lia|right; now left].
  - destruct (IH Hvr) as [ts [Hts [_ Hparse]]]; [discriminate|].
    rewrite Hts. exists (t :: ts). split; [reflexivity|].
    assert (J : join_comma (t :: ts) = t ++ String "," (join_comma ts)).
    { destruct ts; [|reflexivity]. cbn [stringify_items] in Hts.
      destruct (JSON_stringify y); [|discriminate].
      destruct (stringify_items r'); discriminate. }
    rewrite J. split.
    + destruct Hstart as [c [s [-> Hc]]]. exists c. eexists. split; [reflexivity|exact Hc].
    + intros fuel rest Hf. rewrite string_length_app in Hf. cbn [String.length] in Hf.
      destruct fuel as [|f]; [lia|]. cbn [parse_elements].
      rewrite string_app_assoc. cbn [append].
      rewrite (Hread f (String "," (join_comma ts ++ String "]" rest)));
        [|lia|now left].
      cbn [skip_ws is_ws]. simpl.
      rewrite (Hparse f rest); [reflexivity|lia].
Qed.

(** The members of an object, after the opening brace. *)
Lemma parse_members_items (l : list (string * jsval)) :
  Forall (fun kv => json_value (snd kv) ->
                    exists t, JSON_stringify (snd kv) = Normal (Some t)
                              /\ reads_back (snd kv) t) l ->
  Forall (fun kv => json_value (snd kv)) l ->
  l <> [] ->
  exists ts,
    stringify_members l = Normal ts
    /\ (exists r, join_comma ts = String dquote r)
    /\ forall fuel rest,
         2 * String.length (join_comma ts) + 1 <= fuel ->
         parse_members fuel (join_comma ts ++ String "}" rest) = Some (l, rest).
Proof.
  induction 1 as [|[k x] r Hx Hr IH]; intros Hv Hne; [congruence|].
  inversion Hv as [|? ? Hvx Hvr]; subst. simpl in Hx, Hvx.
  destruct (Hx Hvx) as [t [Ht [Hstart Hread]]].
  cbn [stringify_members]. rewrite Ht.
  assert (M : forall f more,
             2 * String.length t <= f -> delimited more ->
             parse_members (S f) ((json_quote k ++ ":" ++ t) ++ more)
             = match parse_value f (t ++ more) with
               | None => None
               | Some (v, r3) =>
                   match skip_ws r3 with
                   | String "," r4 =>
                       option_map (fun p => ((k, v) :: fst p, snd p)) (parse_members f r4)
                   | String "}" r4 => Some ([(k, v)], r4)
                   | _ => None
                   end
               end).
  { intros f more _ _. unfold json_quote. cbn [append]. rewrite !string_app_assoc.
    cbn [append parse_members].
    change (skip_ws (String dquote (json_quote_body k ++ String dquote (String ":" (t ++ more)))))
      with (String dquote (json_quote_body k ++ String dquote (String ":" (t ++ more)))).
    cbv beta iota. rewrite Ascii.eqb_refl, read_string_quote_body.
    change (skip_ws (String ":" (t ++ more))) with (String ":" (t ++ more)).
    reflexivity. }
  destruct r as [|[k' y] r'].
  - exists [json_quote k ++ ":" ++ t]. split; [reflexivity|].
    split; [eexists; reflexivity|].
    intros fuel rest Hf. cbn [join_comma] in *.
    rewrite !string_length_app in Hf. cbn [String.length] in Hf.
    destruct fuel as [|f]; [lia|].
    rewrite M; [|lia|right; now right].
    rewrite (Hread f (String "}" rest)); [reflexivity|lia|right; now right].
  - destruct (IH Hvr) as [ts [Hts [_ Hparse]]]; [discriminate|].
    rewrite Hts. exists ((json_quote k ++ ":" ++ t) :: ts). split; [reflexivity|].
    assert (J : join_comma ((json_quote k ++ ":" ++ t) :: ts)
                = (json_quote k ++ ":" ++ t) ++ String "," (join_comma ts)).
    { destruct ts; [|reflexivity]. cbn [stringify_members] in Hts.
      inversion Hvr as [|? ? Hy _]; subst. simpl in Hy.
      inversion Hr as [|? ? Hy' _]; subst. simpl in Hy'.
      destruct (Hy' Hy) as [t' [Ht' _]]. rewrite Ht' in Hts.
      destruct (stringify_members r'); discriminate. }
    rewrite J. split; [eexists; reflexivity|].
    intros fuel rest Hf. rewrite !string_length_app in Hf. cbn [String.length] in Hf.
    destruct fuel as [|f]; [lia|].
    rewrite string_app_assoc. cbn [append].
    rewrite M; [|lia|now left].
    rewrite (Hread f (String "," (join_comma ts ++ String "}" rest))); [|lia|now left].
    cbn [skip_ws is_ws]. simpl.
    rewrite (Hparse f rest); [reflexivity|lia].
Qed.

(** Every JSON value serializes to a text that reads back as the value. *)
Lemma stringify_reads_back (v : jsval) :
  json_value v -> exists t, JSON_stringify v = Normal (Some t) /\ reads_back v t.
Proof.
  induction v using jsval_nested_ind; intros Hv; try (inversion Hv; fail).
  - exists "null". split; [reflexivity|]. split.
    + eexists; eexists; split; [reflexivity|split; [reflexivity|discriminate]].
    + intros fuel rest Hf _. destruct fuel as [|f]; [simpl in Hf; lia|reflexivity].
  - destruct b.
    + exists "true". split; [reflexivity|]. split.
      * eexists; eexists; split; [reflexivity|split; [reflexivity|discriminate]].
      * intros fuel rest Hf _. destruct fuel as [|f]; [simpl in Hf; lia|reflexivity].
    + exists "false". split; [reflexivity|]. split.
      * eexists; eexists; split; [reflexivity|split; [reflexivity|discriminate]].
      * intros fuel rest Hf _. destruct fuel as [|f]; [simpl in Hf; lia|reflexivity].
  - exists (string_of_Z n). split; [reflexivity|apply reads_back_number].
  - exists (json_quote s). split; [reflexivity|apply reads_back_string].
  - inversion Hv as [| | | |? Hl|]; subst. rewrite JSON_stringify_array.
    destruct l as [|x r].
    + exists "[]". split; [reflexivity|]. split.
      * eexists; eexists; split; [reflexivity|split; [reflexivity|discriminate]].
      * intros fuel rest Hf _. destruct fuel as [|f]; [simpl in Hf; lia|reflexivity].
    + destruct (parse_elements_items (x :: r) H Hl) as [ts [Hts [Hstart Hparse]]];
        [discriminate|].
      rewrite Hts. eexists. split; [reflexivity|]. split.
      * eexists; eexists; split; [reflexivity|split; [reflexivity|discriminate]].
      * intros fuel rest Hf _. cbn [append String.length] in Hf.
        rewrite string_length_app in Hf. cbn [String.length] in Hf.
        destruct fuel as [|f]; [lia|].
        cbn [append]. rewrite string_app_assoc. cbn [append].
        destruct Hstart as [c [s [Hj [Hws Hc]]]].
        assert (P : parse_value (S f) (String "[" (join_comma ts ++ String "]" rest))
                    = option_map (fun p => (JArr (fst p), snd p))
                        (parse_elements f (join_comma ts ++ String "]" rest))).
        { rewrite Hj. cbn [append]. cbn [parse_value].
          change (skip_ws (String "[" (String c (s ++ String "]" rest))))
            with (String "[" (String c (s ++ String "]" rest))).
          cbv beta iota. change (N_of_ascii "[") with 91%N. cbv beta iota.
          cbn [skip_ws]. rewrite Hws.
          destruct c as [[|] [|] [|] [|] [|] [|] [|] [|]]; try reflexivity.
          now elim Hc. }
        rewrite P, (Hparse f rest); [reflexivity|lia].
  - inversion Hv as [| | | | |? Hnd Hl]; subst. rewrite JSON_stringify_object.
    destruct l as [|kv r].
    + exists "{}". split; [reflexivity|]. split.
      * eexists; eexists; split; [reflexivity|split; [reflexivity|discriminate]].
      * intros fuel rest Hf _. destruct fuel as [|f]; [simpl in Hf; lia|reflexivity].
    + destruct (parse_members_items (kv :: r) H Hl) as [ts [Hts [[s Hj] Hparse]]];
        [discriminate|].
      rewrite Hts. eexists. split; [reflexivity|]. split.
      * eexists; eexists; split; [reflexivity|split; [reflexivity|discriminate]].
      * intros fuel rest Hf _. cbn [append String.length] in Hf.
        rewrite string_length_app in Hf. cbn [String.length] in Hf.
        destruct fuel as [|f]; [lia|].
        cbn [append]. rewrite string_app_assoc. cbn [append].
        assert (P : parse_value (S f) (String "{" (join_comma ts ++ String "}" rest))
                    = option_map (fun p => (object_of_members (fst p), snd p))
                        (parse_members f (join_comma ts ++ String "}" rest))).
        { rewrite Hj. reflexivity. }
        rewrite P, (Hparse f rest); [|lia]. simpl.
        now rewrite object_of_members_distinct.
Qed.

Theorem json_value_representable (v : jsval) : json_value v -> json_representable v.
Proof.
  intros Hv. destruct (stringify_reads_back v Hv) as [t [Ht [_ Hread]]].
  exists t. split; [exact Ht|].
  unfold JSON_parse. specialize (Hread (2 * String.length t + 2) EmptyString).
  rewrite string_app_nil_r in Hread. rewrite Hread; [reflexivity|lia|exact I].
Qed.

(** ** A stored value read back (C1) *)

Lemma json_representable_text (v : jsval) (text : string) :
  JSON_stringify v = Normal (Some text) -> JSON_parse text = Normal v ->
  text <> EmptyString.
Proof. intros _ Hp ->. vm_compute in Hp. discriminate. Qed.

Lemma unescape_escape (s : string) : unescape (escape s) = s.
Proof.
  induction s as [|c r IH]; [reflexivity|].
  destruct c as [[|] [|] [|] [|] [|] [|] [|] [|]]; cbn; rewrite IH; reflexivity.
Qed.

Lemma count_char_nonneg (c : ascii) (s : string) : (0 <= count_char c s)%Z.
Proof. induction s as [|c' r IH]; simpl; [lia|]. destruct (Ascii.eqb c c'); lia. Qed.

Lemma count_char_app (c : ascii) (s t : string) :
  count_char c (s ++ t) = (count_char c s + count_char c t)%Z.
Proof. induction s as [|c' r IH]; simpl; [reflexivity|]. rewrite IH. lia. Qed.

Lemma cookie_string_has_equals (p : string * string) (l : list (string * string)) :
  (0 < count_char "=" (cookie_string (p :: l)))%Z.
Proof.
  destruct p as [n v].
  assert (H : forall t, (0 < count_char "=" (n ++ "=" ++ t))%Z).
  { intros t. rewrite count_char_app. change ("=" ++ t) with (String "=" t).
    cbn [count_char]. rewrite Ascii.eqb_refl.
    pose proof (count_char_nonneg "=" n). pose proof (count_char_nonneg "=" t). lia. }
  destruct l; simpl; apply H.
Qed.

Lemma alist_set_not_nil {V : Type} (k : string) (v : V) (l : list (string * V)) :
  exists p r, alist_set k v l = p :: r.
Proof.
  destruct l as [|[k' v'] r]; simpl; [eauto|].
  destruct (String.eqb k k'); eauto.
Qed.

Lemma Storage_setItem_accepted (sl : slot) (sKey text : string) (w : world) :
  backend_accepts (window_storage sl w) (document_cookie w) sKey text ->
  exists w',
    Storage_setItem sl sKey text w = Returns tt w'
    /\ stored_text sl sKey w' = Normal (Some text)
    /\ slot_supported sl w' = slot_supported sl w
    /\ prefix w' = prefix w.
Proof.
  destruct w as [ls ss jar cw bc en hl hs pl ps ord pre mem].
  assert (N : forall items quota,
             items_size (alist_set sKey text items) <= quota ->
             (items_size (alist_set sKey text items) <=? quota)%nat = true).
  { intros. now apply Nat.leb_le. }
  assert (C : forall jar0 : cookie_jar,
             String.length (escape sKey) + String.length (escape text) <= cookie_limit jar0 ->
             exists n,
               cookie_equals_matches (cookie_assign (escape sKey) (escape text) jar0) = Some n
               /\ alist_get (escape sKey)
                    (cookies (cookie_assign (escape sKey) (escape text) jar0))
                  = Some (escape text)).
  { intros jar0 Hl. unfold cookie_assign. apply Nat.leb_le in Hl. rewrite Hl.
    unfold cookie_equals_matches. simpl.
    destruct (alist_set_not_nil (escape sKey) (escape text) (cookies jar0)) as [p [r Hp]].
    pose proof (alist_get_set_same (escape sKey) (escape text) (cookies jar0)) as Hg.
    rewrite Hp in *. pose proof (cookie_string_has_equals p r) as Hc.
    assert (Hz : (count_char "=" (cookie_string (p :: r)) =? 0)%Z = false)
      by (apply Z.eqb_neq; lia).
    rewrite Hz. eauto. }
  unfold stored_text, Storage_getItem, Storage_setItem, cookie_hasOwnProperty, alist_mem.
  destruct sl; simpl.
  - destruct ls as [items quota|len|]; simpl; intros H.
    + rewrite (N _ _ H). eexists. split; [reflexivity|]. simpl.
      now rewrite alist_get_set_same.
    + destruct H as [Hk Hl]. apply String.eqb_neq in Hk. rewrite Hk.
      destruct (C jar Hl) as [n [Hn Hg]]. rewrite Hn.
      eexists. split; [reflexivity|]. simpl. rewrite ?Hk, Hg. simpl.
      now rewrite unescape_escape.
    + contradiction.
  - destruct ss as [items quota|len|]; simpl; intros H.
    + rewrite (N _ _ H). eexists. split; [reflexivity|]. simpl.
      now rewrite alist_get_set_same.
    + destruct H as [Hk Hl]. apply String.eqb_neq in Hk. rewrite Hk.
      destruct (C jar Hl) as [n [Hn Hg]]. rewrite Hn.
      eexists. split; [reflexivity|]. simpl. rewrite ?Hk, Hg. simpl.
      now rewrite unescape_escape.
    + contradiction.
Qed.

Lemma Storage_member_present (sl : slot) (name : string) (w : world) :
  window_storage sl w <> NullStorage -> Storage_member sl name w = Returns tt w.
Proof.
  unfold Storage_member. destruct (window_storage sl w); [reflexivity|reflexivity|congruence].
Qed.

Lemma backend_accepts_present (s : storage) (jar : cookie_jar) (sKey text : string) :
  backend_accepts s jar sKey text -> s <> NullStorage.
Proof. destruct s; simpl; [discriminate|discriminate|contradiction]. Qed.

(** A setter whose backend accepts the write returns true, and the text is
    then what [getItem] answers under the prefixed key. *)
Lemma setInSlot_accepted (sl : slot) (k : string) (v : jsval) (o : option string) (w : world) :
  slot_supported sl w = true ->
  JSON_stringify v = Normal o ->
  backend_accepts (window_storage sl w) (document_cookie w) (prefix w ++ k) (DOMString o) ->
  exists w',
    setInSlot sl k v w = Returns true w'
    /\ stored_text sl (prefix w' ++ k) w' = Normal (Some (DOMString o))
    /\ slot_supported sl w' = true.
Proof.
  intros Hs Hv Ha.
  destruct (Storage_setItem_accepted sl _ _ w Ha) as [w' [Hset [Htext [Hsup Hpre]]]].
  exists w'. rewrite Hpre, Hsup. split; [|split; assumption].
  pose proof (Storage_member_present sl "setItem" w (backend_accepts_present _ _ _ _ Ha)) as Hm.
  assert (Body : (Storage_member sl "setItem" ;;;
                  p <- gets prefix ;;
                  text <- lift (JSON_stringify v) ;;
                  Storage_setItem sl (p ++ k) (DOMString text) ;;;
                  ret true) w = Returns true w').
  { unfold bind at 1. rewrite Hm. unfold bind at 1, gets at 1.
    rewrite Hv. unfold bind at 1, lift, ret at 1. unfold bind. now rewrite Hset. }
  destruct sl; simpl in *; [unfold setInLocal|unfold setInSession];
    unfold bind at 1, gets at 1; rewrite Hs; unfold try_catch; now rewrite Body.
Qed.

(** Two supported engines on which a JSON value does not read back.  A
    Storage object with room for 64 bytes refuses a longer entry:
    [local.set] broadcasts the error and returns false.  The cookie
    emulation ignores the empty key: [session.set] returns true and
    [session.get] then finds nothing. *)
Lemma set_then_get_fails :
  (isSupported webStorage.local small_store = true
   /\ json_value long_text
   /\ outcome_value (set webStorage.local "k" long_text small_store) = Some false
   /\ ~ set_then_get webStorage.local "k" long_text small_store)
  /\
  (isSupported webStorage.session cookies_only = true
   /\ json_value (JNum 1)
   /\ (exists w1, set webStorage.session EmptyString (JNum 1) cookies_only = Returns true w1
                  /\ outcome_value (get webStorage.session EmptyString w1) = Some JNull)
   /\ ~ set_then_get webStorage.session EmptyString (JNum 1) cookies_only).
Proof.
  split.
  - split; [vm_compute; reflexivity|].
    split; [constructor|].
    split; [vm_compute; reflexivity|].
    intros [w1 [H _]]. vm_compute in H. discriminate.
  - split; [vm_compute; reflexivity|].
    split; [constructor|].
    split.
    + exists (outcome_world (set webStorage.session EmptyString (JNum 1) cookies_only)).
      split; vm_compute; reflexivity.
    + intros [w1 [H [w2 H2]]]. vm_compute in H. injection H as <-.
      vm_compute in H2. discriminate.
Qed.

(** C1 (amended). On a supported engine that takes the write, [set(k, v)]
    of a JSON-representable value returns true and the [get(k)] that follows
    returns [v].  This covers the memory engine, a Storage object with room
    for the entry, and the cookie emulation when the prefixed key is not
    empty and the document accepts the cookie. *)
Theorem set_then_get_roundtrip (name : string) (e : engine) (k : string) (v : jsval) (w : world) :
  webStorage.engine_named name = Some e ->
  isSupported e w = true ->
  json_value v ->
  accepts_write name k v w ->
  set_then_get e k v w.
Proof.
  intros He Hs Hjson Ha.
  destruct (json_value_representable v Hjson) as [text [Hv Hp]].
  pose proof (json_representable_text v text Hv Hp) as Hne.
  assert (S : forall sl,
             slot_supported sl w = true ->
             backend_accepts (window_storage sl w) (document_cookie w) (prefix w ++ k) text ->
             exists w1, setInSlot sl k v w = Returns true w1
                        /\ exists w2, getFromSlot sl k w1 = Returns v w2).
  { intros sl Hsl Hacc.
    destruct (setInSlot_accepted sl k v (Some text) w Hsl Hv Hacc) as [w1 [Hset [Htext Hsup]]].
    exists w1. split; [exact Hset|]. exists w1.
    rewrite getFromSlot_returns. unfold read_value. rewrite Hsup, Htext. simpl.
    destruct text as [|c r]; [congruence|]. now rewrite Hp. }
  unfold accepts_write, serialized in Ha. rewrite Hv in Ha. simpl in Ha.
  destruct (engine_named_cases name e He) as [[-> ->]|[[-> ->]|[-> ->]]]; simpl in Ha.
  - apply (S LocalSlot); assumption.
  - apply (S SessionSlot); assumption.
  - eexists. split; [reflexivity|]. eexists.
    unfold get, webStorage.memory, getFromMemory, bind, gets, ret. simpl.
    now rewrite alist_get_set_same.
Qed.

Lemma set_then_get_roundtrip_witness :
  let v := JObj [("a", JNum 4); ("b", JArr [JStr "x"; JNull; JBool true])] in
  set_then_get webStorage.local "key" v small_store
  /\ set_then_get webStorage.session "key" v cookies_only
  /\ set_then_get webStorage.memory "key" v cookies_only.
Proof.
  intros v.
  assert (R : json_value v).
  { repeat constructor; simpl; intuition discriminate. }
  split; [|split].
  - apply (set_then_get_roundtrip "local" webStorage.local "key" v small_store);
      [reflexivity|reflexivity|exact R|vm_compute; lia].
  - apply (set_then_get_roundtrip "session" webStorage.session "key" v cookies_only);
      [reflexivity|reflexivity|exact R|].
    vm_compute. split; [discriminate|lia].
  - apply (set_then_get_roundtrip "memory" webStorage.memory "key" v cookies_only);
      [reflexivity|reflexivity|exact R|].
    vm_compute. discriminate.
Defined.

(** ** Values that do not serialize (C3) *)

Lemma function_not_representable : ~ json_value JFunction /\ ~ json_representable JFunction.
Proof. split; [intros H; inversion H|intros [text [H _]]; discriminate]. Qed.

Lemma circular_not_representable :
  ~ json_value (JObj [("self", JCircular)]) /\ ~ json_representable (JObj [("self", JCircular)]).
Proof.
  split; [|intros [text [H _]]; discriminate].
  intros H. inversion H as [| | | | |? _ Hl]; subst.
  inversion Hl as [|? ? Hc _]; subst. inversion Hc.
Qed.

(** A function value is written: [local.set] returns true, having stored
    the text [undefined].  A circular value is refused, and the entry that
    was there stays readable. *)
Lemma fails_at_set_time_fails :
  (isSupported webStorage.local small_store = true
   /\ ~ json_value JFunction
   /\ set webStorage.local "k" JFunction small_store
      = Returns true (set_window_localStorage (NativeStorage [("k", "undefined")] 64) small_store)
   /\ ~ fails_at_set_time webStorage.local "k" JFunction small_store)
  /\
  (isSupported webStorage.local store_with_entry = true
   /\ ~ json_value (JObj [("self", JCircular)])
   /\ (exists w1, set webStorage.local "k" (JObj [("self", JCircular)]) store_with_entry
                  = Returns false w1
                  /\ outcome_value (get webStorage.local "k" w1) = Some (JNum 1))
   /\ ~ fails_at_set_time webStorage.local "k" (JObj [("self", JCircular)]) store_with_entry).
Proof.
  split.
  - split; [vm_compute; reflexivity|].
    split; [exact (proj1 function_not_representable)|].
    split; [vm_compute; reflexivity|].
    intros [w1 [H _]]. vm_compute in H. discriminate.
  - split; [vm_compute; reflexivity|].
    split; [exact (proj1 circular_not_representable)|].
    split.
    + exists (outcome_world (set webStorage.local "k" (JObj [("self", JCircular)]) store_with_entry)).
      split; vm_compute; reflexivity.
    + intros [w1 [H H2]]. vm_compute in H. injection H as <-.
      vm_compute in H2. discriminate.
Qed.

(** A setter whose serialization raises returns false after one broadcast
    and changes nothing else. *)
Lemma setInSlot_unserializable (sl : slot) (k : string) (v : jsval) (err : jserror) (w : world) :
  slot_supported sl w = true ->
  JSON_stringify v = Abrupt err ->
  exists e, setInSlot sl k v w = Returns false (notified (note_of e w) w).
Proof.
  intros Hs Hv.
  assert (Body : exists e,
             (Storage_member sl "setItem" ;;;
              p <- gets prefix ;;
              text <- lift (JSON_stringify v) ;;
              Storage_setItem sl (p ++ k) (DOMString text) ;;;
              ret true) w = Throws e w).
  { unfold bind at 1, Storage_member.
    destruct (window_storage sl w); try (eexists; reflexivity);
      unfold bind at 1, gets at 1; rewrite Hv; eexists; reflexivity. }
  destruct Body as [e Body]. exists e.
  destruct sl; simpl in *; [unfold setInLocal|unfold setInSession];
    unfold bind at 1, gets at 1; rewrite Hs; unfold try_catch; now rewrite Body.
Qed.

(** C3 (amended). On a supported native-backed engine:
    - a value whose serialization raises (an object with a circular
      reference) fails at set time: [set] returns false, broadcasts once and
      leaves everything else as it was, so [k] reads as it did before;
    - a value that serializes to [undefined] (a function) does not fail at
      set time: when the backend accepts the write, [set] returns true with
      the text [undefined] stored, and the [get] that follows cannot parse
      it, broadcasts the error and returns null. *)
Theorem unserializable_value_at_set (name : string) (e : engine) (k : string) (v : jsval) (w : world) :
  webStorage.engine_named name = Some e ->
  name <> "memory" ->
  isSupported e w = true ->
  (forall err, JSON_stringify v = Abrupt err ->
     exists note,
       set e k v w = Returns false (notified note w)
       /\ outcome_value (get e k (notified note w)) = outcome_value (get e k w))
  /\ (JSON_stringify v = Normal None ->
      backend_accepts (backend name w) (document_cookie w) (prefix w ++ k) "undefined" ->
      exists w1 note,
        set e k v w = Returns true w1
        /\ get e k w1 = Returns JNull (notified note w1)).
Proof.
  intros He Hm Hs.
  assert (S : forall sl,
             slot_supported sl w = true ->
             (forall err, JSON_stringify v = Abrupt err ->
                exists note, setInSlot sl k v w = Returns false (notified note w))
             /\ (JSON_stringify v = Normal None ->
                 backend_accepts (window_storage sl w) (document_cookie w)
                   (prefix w ++ k) "undefined" ->
                 exists w1 note,
                   setInSlot sl k v w = Returns true w1
                   /\ getFromSlot sl k w1 = Returns JNull (notified note w1))).
  { intros sl Hsl. split.
    - intros err Hv. destruct (setInSlot_unserializable sl k v err w Hsl Hv) as [e0 H0]. eauto.
    - intros Hv Hacc.
      destruct (setInSlot_accepted sl k v None w Hsl Hv Hacc) as [w1 [Hset [Htext Hsup]]].
      exists w1. eexists. split; [exact Hset|].
      rewrite getFromSlot_returns. unfold read_value. rewrite Hsup, Htext. simpl.
      reflexivity. }
  destruct (engine_named_cases name e He) as [[-> ->]|[[-> ->]|[-> ->]]]; [| |congruence].
  - destruct (S LocalSlot Hs) as [S1 S2]. split; [|exact S2].
    intros err Hv. destruct (S1 err Hv) as [note Hn]. exists note. split; [exact Hn|].
    apply (engine_get_broadcast "local" webStorage.local); reflexivity.
  - destruct (S SessionSlot Hs) as [S1 S2]. split; [|exact S2].
    intros err Hv. destruct (S1 err Hv) as [note Hn]. exists note. split; [exact Hn|].
    apply (engine_get_broadcast "session" webStorage.session); reflexivity.
Qed.

Lemma unserializable_value_at_set_witness :
  (exists note,
     set webStorage.local "k" (JObj [("self", JCircular)]) store_with_entry
     = Returns false (notified note store_with_entry))
  /\ (exists w1 note,
        set webStorage.session "f" JFunction small_store = Returns true w1
        /\ get webStorage.session "f" w1 = Returns JNull (notified note w1)).
Proof.
  split.
  - destruct (unserializable_value_at_set "local" webStorage.local "k"
                (JObj [("self", JCircular)]) store_with_entry eq_refl) as [H _].
    + discriminate.
    + reflexivity.
    + destruct (H _ eq_refl) as [note [Hn _]]. exists note. exact Hn.
  - destruct (unserializable_value_at_set "session" webStorage.session "f"
                JFunction small_store eq_refl) as [_ H].
    + discriminate.
    + reflexivity.
    + apply H; [reflexivity|]. vm_compute. split; [discriminate|lia].
Defined.

(** ** The memory engine as a map *)

Lemma alist_get_remove_same {V : Type} (k : string) (l : list (string * V)) :
  alist_get k (alist_remove k l) = None.
Proof.
  induction l as [|[k' v'] r IH]; simpl; [reflexivity|].
  destruct (String.eqb k k') eqn:E; [exact IH|]. simpl. now rewrite E.
Qed.

Lemma alist_get_remove_other {V : Type} (k k0 : string) (l : list (string * V)) :
  k0 <> k -> alist_get k0 (alist_remove k l) = alist_get k0 l.
Proof.
  intros Hne. induction l as [|[k' v'] r IH]; simpl; [reflexivity|].
  destruct (String.eqb k k') eqn:E.
  - apply String.eqb_eq in E. subst k'.
    destruct (String.eqb_spec k0 k); [contradiction|exact IH].
  - simpl. destruct (String.eqb k0 k'); [reflexivity|exact IH].
Qed.

Lemma alist_remove_absent {V : Type} (k : string) (l : list (string * V)) :
  alist_get k l = None -> alist_remove k l = l.
Proof.
  induction l as [|[k' v'] r IH]; simpl; [reflexivity|].
  destruct (String.eqb k k'); [discriminate|]. intros H. now rewrite IH.
Qed.

Lemma alist_keys_set {V : Type} (k : string) (v : V) (l : list (string * V)) :
  map fst (alist_set k v l)
  = if alist_mem k l then map fst l else (map fst l ++ [k])%list.
Proof.
  unfold alist_mem. induction l as [|[k' v'] r IH]; simpl; [reflexivity|].
  destruct (String.eqb_spec k k') as [->|Hne]; simpl; [reflexivity|].
  rewrite IH. destruct (alist_get k r); reflexivity.
Qed.



(** X1. On the memory engine [set(k, v)] returns true and [get(k)] then
    returns [v] as it is, whatever kind of value it is.  Every other key
    reads as before, the number of keys grows by one exactly when [k] is
    new, and nothing but [ram] changes. *)
Theorem memory_set_only_that_key (k : string) (v : jsval) (w : world) :
  k <> "__proto__" ->
  exists w1,
    set webStorage.memory k v w = Returns true w1
    /\ get webStorage.memory k w1 = Returns v w1
    /\ (forall k0, k0 <> k ->
          get webStorage.memory k0 w1
          = outcome_map (fun _ => w1) (get webStorage.memory k0 w))
    /\ length webStorage.memory w1
       = Returns (Z.of_nat (List.length (ram w)) + (if alist_mem k (ram w) then 0 else 1))%Z w1
    /\ w1 = set_ram (ram w1) w.
Proof.
  intros _. eexists. split; [reflexivity|].
  unfold get, length, webStorage.memory, getFromMemory, lengthInMemory, bind, gets, ret. simpl.
  split; [now rewrite alist_get_set_same|].
  split; [intros k0 Hne; now rewrite (alist_get_set_other k k0 v (ram w) Hne)|].
  split; [|reflexivity].
  rewrite <- (length_map fst (alist_set k v (ram w))), alist_keys_set.
  destruct (alist_mem k (ram w)).
  - rewrite length_map. f_equal. lia.
  - rewrite length_app, length_map. simpl. f_equal. lia.
Qed.

Lemma memory_set_only_that_key_witness :
  exists w1,
    set webStorage.memory "a" JFunction cookies_only = Returns true w1
    /\ get webStorage.memory "a" w1 = Returns JFunction w1.
Proof.
  destruct (memory_set_only_that_key "a" JFunction cookies_only) as [w1 [H1 [H2 _]]].
  - discriminate.
  - exists w1. split; assumption.
Defined.




(** ** The native-backed engines, operation by operation *)

Lemma window_storage_set (sl : slot) (x : storage) (w : world) :
  window_storage sl (set_window_storage sl x w) = x.
Proof. destruct sl; reflexivity. Qed.

Lemma set_window_storage_eta (sl : slot) (w : world) :
  set_window_storage sl (window_storage sl w) w = w.
Proof. destruct sl, w; reflexivity. Qed.

Lemma set_document_cookie_eta (w : world) : set_document_cookie (document_cookie w) w = w.
Proof. now destruct w. Qed.

Lemma setInSlot_unfold (sl : slot) (k : string) (v : jsval) (w : world) :
  setInSlot sl k v w
  = if slot_supported sl w then
      try_catch
        (Storage_member sl "setItem" ;;;
         p <- gets prefix ;;
         text <- lift (JSON_stringify v) ;;
         Storage_setItem sl (p ++ k) (DOMString text) ;;;
         ret true)
        croak w
    else Returns false w.
Proof.
  destruct sl; simpl; [unfold setInLocal|unfold setInSession];
    unfold bind at 1, gets at 1;
    match goal with |- context [if ?b then _ else _] => destruct b end; reflexivity.
Qed.

Lemma removeFromSlot_unfold (sl : slot) (k : string) (w : world) :
  removeFromSlot sl k w
  = if slot_supported sl w then
      try_catch (Storage_removeItem sl (prefix w ++ k) ;;; ret true) croak w
    else Returns false w.
Proof.
  destruct sl; simpl; [unfold removeFromLocal|unfold removeFromSession];
    unfold bind at 1, gets at 1;
    match goal with |- context [if ?b then _ else _] => destruct b end; reflexivity.
Qed.

Lemma string_app_inv_head (p a b : string) : p ++ a = p ++ b -> a = b.
Proof. induction p as [|c p IH]; simpl; [auto|]. intros H. injection H as H. auto. Qed.

Lemma escape_injective (a b : string) : escape a = escape b -> a = b.
Proof. intros H. rewrite <- (unescape_escape a), <- (unescape_escape b). now f_equal. Qed.

(** What [getItem] answers after [removeItem], on a store that is there. *)
Lemma Storage_removeItem_forgets (sl : slot) (sKey : string) (w : world) :
  window_storage sl w <> NullStorage ->
  exists w1,
    Storage_removeItem sl sKey w = Returns tt w1
    /\ stored_text sl sKey w1 = Normal None
    /\ (forall other, other <> sKey -> stored_text sl other w1 = stored_text sl other w)
    /\ slot_supported sl w1 = slot_supported sl w
    /\ prefix w1 = prefix w
    /\ rootScope_broadcast w1 = rootScope_broadcast w.
Proof.
  intros Hn. unfold Storage_removeItem, stored_text, Storage_getItem.
  destruct (window_storage sl w) as [items quota|len|] eqn:Hs; [| |congruence].
  - eexists. split; [reflexivity|]. rewrite window_storage_set.
    split; [now rewrite alist_get_remove_same|].
    split; [intros other Hne; now rewrite (alist_get_remove_other sKey other items Hne)|].
    destruct sl; repeat split.
  - destruct (String.eqb sKey EmptyString) eqn:Ek; simpl.
    + eexists. split; [reflexivity|]. rewrite Hs. simpl. rewrite ?Ek. simpl.
      repeat split.
    + destruct (cookie_hasOwnProperty sKey (document_cookie w)) eqn:Eh; simpl.
      * eexists. split; [reflexivity|]. rewrite window_storage_set.
        assert (D : document_cookie
                      (set_window_storage sl (CookieStorage (len - 1))
                         (set_document_cookie (cookie_expire (escape sKey) (document_cookie w)) w))
                    = cookie_expire (escape sKey) (document_cookie w))
          by (destruct sl; reflexivity).
        rewrite D. unfold cookie_hasOwnProperty, alist_mem, cookie_expire. simpl.
        rewrite ?Ek, alist_get_remove_same. simpl.
        split; [reflexivity|].
        split; [|destruct sl; repeat split].
        intros other Hne.
        rewrite (alist_get_remove_other (escape sKey) (escape other));
          [destruct (_ || _); reflexivity|].
        intros He. apply Hne. now apply escape_injective.
      * eexists. split; [reflexivity|]. rewrite Hs. simpl. rewrite ?Ek, ?Eh. simpl.
        repeat split.
Qed.

Lemma read_value_stored (sl : slot) (k : string) (w w1 : world) :
  slot_supported sl w1 = slot_supported sl w ->
  prefix w1 = prefix w ->
  stored_text sl (prefix w ++ k) w1 = stored_text sl (prefix w ++ k) w ->
  read_value sl k w1 = read_value sl k w.
Proof. unfold read_value. intros -> -> ->. reflexivity. Qed.

(** X4. On a supported native-backed engine whose store is there (a
    Storage object or the cookie emulation), [remove(k)] returns true
    whether or not [k] is stored and broadcasts nothing; afterwards
    [get(k)] is null and every other key reads as before. *)
Theorem native_remove_forgets_key (sl : slot) (k : string) (w : world) :
  isSupported (slot_engine sl) w = true ->
  window_storage sl w <> NullStorage ->
  exists w1,
    remove (slot_engine sl) k w = Returns true w1
    /\ rootScope_broadcast w1 = rootScope_broadcast w
    /\ get (slot_engine sl) k w1 = Returns JNull w1
    /\ has (slot_engine sl) k w1 = Returns false w1
    /\ (forall k0, k0 <> k ->
          outcome_value (get (slot_engine sl) k0 w1) = outcome_value (get (slot_engine sl) k0 w)).
Proof.
  intros Hsup Hn.
  assert (Hs : slot_supported sl w = true) by (destruct sl; exact Hsup).
  destruct (Storage_removeItem_forgets sl (prefix w ++ k) w Hn)
    as [w1 [Hrem [Hgone [Hothers [Hs1 [Hp1 Hb1]]]]]].
  assert (R : removeFromSlot sl k w = Returns true w1).
  { rewrite removeFromSlot_unfold, Hs. unfold try_catch, bind. now rewrite Hrem. }
  assert (G : forall k0, get (slot_engine sl) k0 w1 = getFromSlot sl k0 w1)
    by (destruct sl; reflexivity).
  assert (V : read_value sl k w1 = (JNull, None)).
  { unfold read_value. now rewrite Hs1, Hs, Hp1, Hgone. }
  exists w1. split; [destruct sl; exact R|]. split; [exact Hb1|].
  assert (G1 : get (slot_engine sl) k w1 = Returns JNull w1)
    by (now rewrite G, getFromSlot_returns, V).
  split; [exact G1|]. split.
  - destruct sl; simpl in *; [unfold hasInLocal|unfold hasInSession];
      unfold bind; now rewrite G1.
  - intros k0 Hne. assert (G0 : get (slot_engine sl) k0 w = getFromSlot sl k0 w)
      by (destruct sl; reflexivity).
    rewrite G, G0, !getFromSlot_returns. simpl. f_equal. f_equal.
    apply read_value_stored; [congruence|exact Hp1|].
    apply Hothers. intros He. apply Hne. now apply (string_app_inv_head (prefix w)).
Qed.

Lemma native_remove_forgets_key_witness :
  exists w1,
    remove webStorage.local "k" store_with_entry = Returns true w1
    /\ get webStorage.local "k" w1 = Returns JNull w1.
Proof.
  destruct (native_remove_forgets_key LocalSlot "k" store_with_entry) as [w1 [H1 [_ [H2 _]]]].
  - reflexivity.
  - discriminate.
  - exists w1. split; assumption.
Defined.

Lemma cookie_assign_no_equals (name value : string) (jar : cookie_jar) :
  cookie_equals_matches (cookie_assign name value jar) = None ->
  cookie_assign name value jar = jar.
Proof.
  unfold cookie_assign. destruct (_ <=? _)%nat; [|reflexivity].
  unfold cookie_equals_matches. simpl.
  destruct (alist_set_not_nil name value (cookies jar)) as [p [r ->]].
  pose proof (cookie_string_has_equals p r) as Hc.
  destruct (Z.eqb_spec (count_char "=" (cookie_string (p :: r))) 0); [lia|discriminate].
Qed.

Lemma rootScope_broadcast_set_window_storage (sl : slot) (x : storage) (w : world) :
  rootScope_broadcast (set_window_storage sl x w) = rootScope_broadcast w.
Proof. destruct sl; reflexivity. Qed.

(** X5. The setter of a native-backed engine never raises.  When it returns
    true it has broadcast nothing.  When it returns false on a supported
    engine it has broadcast exactly one error under the current error name
    and changed nothing else: no entry, no cookie, no setting.  On an
    unsupported engine it returns false and does nothing at all. *)
Theorem native_set_reports_failure (sl : slot) (k : string) (v : jsval) (w : world) :
  exists b w1,
    set (slot_engine sl) k v w = Returns b w1
    /\ (b = true -> rootScope_broadcast w1 = rootScope_broadcast w)
    /\ (b = false ->
        if isSupported (slot_engine sl) w
        then exists e, w1 = notified (note_of e w) w
        else w1 = w).
Proof.
  assert (E : set (slot_engine sl) k v w = setInSlot sl k v w) by (destruct sl; reflexivity).
  assert (S : isSupported (slot_engine sl) w = slot_supported sl w) by (destruct sl; reflexivity).
  rewrite E, S, setInSlot_unfold.
  destruct (slot_supported sl w); [|exists false, w; repeat split; discriminate].
  unfold try_catch, bind, Storage_member, gets, lift, Storage_setItem, croak, ret, throw.
  destruct (window_storage sl w) as [items quota|len|] eqn:Hs; cbv beta iota.
  - destruct (JSON_stringify v) as [o|err]; cbv beta iota.
    + rewrite Hs. cbv beta iota zeta. destruct (_ <=? _)%nat.
      * eexists. eexists. split; [reflexivity|].
        split; [intros _; apply rootScope_broadcast_set_window_storage|discriminate].
      * eexists. eexists. split; [reflexivity|].
        split; [discriminate|intros _; eexists; reflexivity].
    + eexists. eexists. split; [reflexivity|].
      split; [discriminate|intros _; eexists; reflexivity].
  - destruct (JSON_stringify v) as [o|err]; cbv beta iota.
    + rewrite Hs. cbv beta iota zeta.
      destruct (String.eqb (prefix w ++ k) EmptyString).
      * exists true, w. repeat split. discriminate.
      * destruct (cookie_equals_matches _) as [n|] eqn:Hm.
        -- eexists. eexists. split; [reflexivity|].
           split; [intros _; destruct sl; reflexivity|discriminate].
        -- apply cookie_assign_no_equals in Hm. rewrite Hm, set_document_cookie_eta.
           eexists. eexists. split; [reflexivity|].
           split; [discriminate|intros _; eexists; reflexivity].
    + eexists. eexists. split; [reflexivity|].
      split; [discriminate|intros _; eexists; reflexivity].
  - eexists. eexists. split; [reflexivity|].
    split; [discriminate|intros _; eexists; reflexivity].
Qed.

(** X6. The getter of a native-backed engine never raises.  Either it
    changes nothing, or it has met an error (a store that is gone, a text
    that is not JSON): then it returns null and has broadcast that one
    error, and changed nothing else. *)
Theorem native_get_never_raises (sl : slot) (k : string) (w : world) :
  exists v w1,
    get (slot_engine sl) k w = Returns v w1
    /\ (w1 = w \/ (v = JNull /\ exists e, w1 = notified (note_of e w) w)).
Proof.
  assert (E : get (slot_engine sl) k w = getFromSlot sl k w) by (destruct sl; reflexivity).
  rewrite E, getFromSlot_returns.
  eexists. eexists. split; [reflexivity|].
  destruct (snd (read_value sl k w)) as [e|] eqn:He; [right|now left].
  split; [|now exists e].
  unfold read_value in *. destruct (slot_supported sl w); [|reflexivity].
  destruct (stored_text sl (prefix w ++ k) w) as [[text|]|e']; try reflexivity.
  destruct text as [|c r]; [discriminate|].
  destruct (JSON_parse (String c r)); [discriminate|reflexivity].
Qed.

(** ** Writes taken by the backend, in full *)

Lemma stored_text_prefix (sl : slot) (sKey p : string) (w : world) :
  stored_text sl sKey (set_prefix p w) = stored_text sl sKey w.
Proof. unfold stored_text, Storage_getItem. destruct sl; simpl; destruct (_ w); try reflexivity;
       destruct (_ || _); reflexivity. Qed.

Lemma stored_text_console (sl : slot) (sKey : string) (l : list string) (w : world) :
  stored_text sl sKey (set_console_warn l w) = stored_text sl sKey w.
Proof. unfold stored_text, Storage_getItem. destruct sl; simpl; destruct (_ w); try reflexivity;
       destruct (_ || _); reflexivity. Qed.

(** How an accepted write leaves the world: the entry is there, under the
    prefixed key, and the settings and the broadcasts are as before. *)
Lemma setInSlot_stores (sl : slot) (k : string) (v : jsval) (o : option string) (w : world) :
  slot_supported sl w = true ->
  JSON_stringify v = Normal o ->
  backend_accepts (window_storage sl w) (document_cookie w) (prefix w ++ k) (DOMString o) ->
  exists w1,
    setInSlot sl k v w = Returns true w1
    /\ stored_text sl (prefix w ++ k) w1 = Normal (Some (DOMString o))
    /\ slot_supported sl w1 = true
    /\ prefix w1 = prefix w.
Proof.
  intros Hs Hv Ha.
  destruct (Storage_setItem_accepted sl _ _ w Ha) as [w1 [Hset [Htext [Hsup Hpre]]]].
  exists w1. split; [|split; [exact Htext|split; congruence]].
  rewrite setInSlot_unfold, Hs. unfold try_catch, bind at 1.
  rewrite (Storage_member_present sl "setItem" w (backend_accepts_present _ _ _ _ Ha)).
  unfold bind at 1, gets at 1. rewrite Hv. unfold bind at 1, lift, ret at 1.
  unfold bind. now rewrite Hset.
Qed.

(** A stored text that is the serialization of a JSON value reads back as
    that value, silently. *)
Lemma getFromSlot_serialized (sl : slot) (k : string) (v : jsval) (w : world) :
  slot_supported sl w = true ->
  json_value v ->
  stored_text sl (prefix w ++ k) w = Normal (Some (serialized v)) ->
  getFromSlot sl k w = Returns v w.
Proof.
  intros Hs Hv Ht. rewrite getFromSlot_returns. unfold read_value. rewrite Hs, Ht.
  destruct (json_value_representable v Hv) as [text [Hst Hp]].
  unfold serialized. rewrite Hst. simpl.
  pose proof (json_representable_text v text Hst Hp) as Hne.
  destruct text as [|c r]; [congruence|]. now rewrite Hp.
Qed.

Lemma serialized_json (v : jsval) :
  json_value v -> JSON_stringify v = Normal (Some (serialized v)).
Proof.
  intros Hv. destruct (json_value_representable v Hv) as [text [Hst _]].
  unfold serialized. now rewrite Hst.
Qed.

(** X7. The native-backed engines store a value under the text
    [prefix + key] and nothing records where the prefix ends: a value set as
    [k] under the prefix [p] is what [get(k')] returns under the prefix
    [p'] whenever [p + k] and [p' + k'] are the same text. *)
Theorem prefix_is_concatenated (sl : slot) (p k p' k' : string) (v : jsval) (w : world) :
  isSupported (slot_engine sl) w = true ->
  json_value v ->
  backend_accepts (window_storage sl w) (document_cookie w) (p ++ k) (serialized v) ->
  p ++ k = p' ++ k' ->
  exists w1,
    (webStorage.prefix_ (Some (JStr p)) ;;; set (slot_engine sl) k v) w = Returns true w1
    /\ (webStorage.prefix_ (Some (JStr p')) ;;; get (slot_engine sl) k') w1
       = Returns v (set_prefix p' w1).
Proof.
  intros Hsup Hv Ha Heq.
  assert (Hs : slot_supported sl (set_prefix p w) = true) by (destruct sl; exact Hsup).
  assert (Ha' : backend_accepts (window_storage sl (set_prefix p w))
                  (document_cookie (set_prefix p w)) (prefix (set_prefix p w) ++ k)
                  (DOMString (Some (serialized v))))
    by (destruct sl; exact Ha).
  destruct (setInSlot_stores sl k v _ (set_prefix p w) Hs (serialized_json v Hv) Ha')
    as [w1 [Hset [Htext [Hs1 Hp1]]]].
  exists w1. split.
  - unfold webStorage.prefix_, bind, gets, modify, ret.
    destruct sl; exact Hset.
  - unfold webStorage.prefix_, bind at 1, gets, modify, ret. unfold bind at 1. unfold bind at 1.
    assert (G : get (slot_engine sl) k' (set_prefix p' w1) = getFromSlot sl k' (set_prefix p' w1))
      by (destruct sl; reflexivity).
    rewrite G. apply getFromSlot_serialized; [destruct sl; exact Hs1|exact Hv|].
    rewrite stored_text_prefix. simpl in Htext.
    assert (P : prefix (set_prefix p' w1) ++ k' = p ++ k) by (rewrite Heq; now destruct w1).
    rewrite P. exact Htext.
Qed.

Lemma prefix_is_concatenated_witness :
  exists w1,
    (webStorage.prefix_ (Some (JStr "a")) ;;; set webStorage.local "bc" (JNum 1)) small_store
    = Returns true w1
    /\ (webStorage.prefix_ (Some (JStr "ab")) ;;; get webStorage.local "c") w1
       = Returns (JNum 1) (set_prefix "ab" w1).
Proof.
  apply (prefix_is_concatenated LocalSlot "a" "bc" "ab" "c" (JNum 1) small_store).
  - reflexivity.
  - constructor.
  - vm_compute. repeat constructor.
  - reflexivity.
Defined.

(** ** [clear] *)

Lemma clearSlot_unfold (sl : slot) (w : world) :
  clearSlot sl w
  = if slot_supported sl w then
      if String.eqb (prefix w) EmptyString then
        try_catch (Storage_clear sl ;;; ret true) croak w
      else
        try_catch
          (keys <- Storage_for_in sl ;;
           remove_prefixed sl (prefix w) keys ;;;
           ret true)
          croak w
    else Returns false w.
Proof.
  destruct sl; simpl; [unfold clearLocal|unfold clearSession];
    unfold bind at 1, gets at 1;
    match goal with |- context [if negb ?b then _ else _] => destruct b end;
    try reflexivity; simpl; unfold bind at 1, gets at 1;
    destruct (String.eqb (prefix w) EmptyString); reflexivity.
Qed.

Lemma set_window_storage_twice (sl : slot) (x y : storage) (w : world) :
  set_window_storage sl x (set_window_storage sl y w) = set_window_storage sl x w.
Proof. destruct sl; reflexivity. Qed.

Lemma filter_alist_remove {V : Type} (f : string * V -> bool) (key : string)
      (l : list (string * V)) :
  filter f (alist_remove key l)
  = filter (fun kv => f kv && negb (String.eqb key (fst kv))) l.
Proof.
  induction l as [|[k' v'] r IH]; simpl; [reflexivity|].
  destruct (String.eqb key k'); simpl.
  - now rewrite andb_false_r.
  - rewrite andb_true_r. destruct (f (k', v')); [now rewrite IH|exact IH].
Qed.

Lemma alist_get_filter_none {V : Type} (f : string * V -> bool) (key : string)
      (l : list (string * V)) :
  (forall v, f (key, v) = false) -> alist_get key (filter f l) = None.
Proof.
  intros Hf. induction l as [|[k' v'] r IH]; simpl; [reflexivity|].
  destruct (f (k', v')) eqn:E; [|exact IH]. simpl.
  destruct (String.eqb_spec key k') as [->|_]; [|exact IH].
  rewrite Hf in E. discriminate.
Qed.

Lemma filter_all {A : Type} (l : list A) : filter (fun _ => true) l = l.
Proof. induction l as [|x r IH]; simpl; [reflexivity|now rewrite IH]. Qed.

Lemma filter_none {A : Type} (l : list A) : filter (fun _ => false) l = [].
Proof. induction l as [|x r IH]; simpl; auto. Qed.

Lemma starts_with_empty (key : string) : starts_with EmptyString key = true.
Proof. unfold starts_with. destruct key; reflexivity. Qed.

Lemma starts_with_app (p k : string) : starts_with p (p ++ k) = true.
Proof.
  unfold starts_with. apply String.eqb_eq.
  induction p as [|c p IH]; simpl; [destruct k; reflexivity|]. now rewrite IH.
Qed.

(** The loop of [clear] over a Storage object: of the names it visits, the
    entries that start with the prefix go. *)
Lemma remove_prefixed_native (sl : slot) (p : string) (keys : list string) :
  forall (items : list (string * string)) (quota : nat) (w : world),
    window_storage sl w = NativeStorage items quota ->
    remove_prefixed sl p keys w
    = Returns tt
        (set_window_storage sl
           (NativeStorage
              (filter (fun kv => negb (starts_with p (fst kv)
                                       && existsb (String.eqb (fst kv)) keys)) items)
              quota) w).
Proof.
  induction keys as [|key rest IH]; intros items quota w Hs; simpl.
  - unfold ret. f_equal.
    rewrite (filter_ext _ (fun _ => true)) by (intros kv; now rewrite andb_false_r).
    rewrite filter_all, <- Hs. symmetry. apply set_window_storage_eta.
  - unfold bind at 1. destruct (starts_with p key) eqn:Ep.
    + unfold Storage_removeItem. rewrite Hs.
      rewrite (IH (alist_remove key items) quota) by apply window_storage_set.
      rewrite set_window_storage_twice, filter_alist_remove.
      f_equal. f_equal. f_equal. apply filter_ext. intros [k' v']. simpl.
      destruct (String.eqb_spec k' key) as [->|Hne].
      * rewrite String.eqb_refl, Ep. simpl. now rewrite andb_false_r.
      * destruct (String.eqb_spec key k') as [->|_]; [congruence|].
        simpl. now rewrite andb_true_r.
    + unfold ret at 1. rewrite (IH items quota w Hs).
      f_equal. f_equal. f_equal. apply filter_ext. intros [k' v']. simpl.
      destruct (String.eqb_spec k' key) as [->|Hne]; [|reflexivity].
      rewrite Ep. reflexivity.
Qed.

(** X8. [clear()] on a supported engine backed by a Storage object returns
    true, broadcasts nothing, and removes exactly the entries whose stored
    name starts with the prefix, whoever wrote them: all of them when the
    prefix is empty.  Every key then reads null through the engine. *)
Theorem native_clear_by_prefix (sl : slot) (items : list (string * string)) (quota : nat)
        (w : world) :
  isSupported (slot_engine sl) w = true ->
  window_storage sl w = NativeStorage items quota ->
  let kept := filter (fun kv => negb (starts_with (prefix w) (fst kv))) items in
  let w1 := set_window_storage sl (NativeStorage kept quota) w in
  clearSlot sl w = Returns true w1
  /\ (prefix w = EmptyString -> kept = [])
  /\ (forall k, get (slot_engine sl) k w1 = Returns JNull w1).
Proof.
  intros Hsup Hs kept w1.
  assert (Hsl : slot_supported sl w = true) by (destruct sl; exact Hsup).
  assert (E : prefix w = EmptyString -> kept = []).
  { intros Hp. unfold kept. rewrite Hp.
    rewrite (filter_ext _ (fun _ => false)) by (intros kv; now rewrite starts_with_empty).
    apply filter_none. }
  split; [|split; [exact E|]].
  - rewrite clearSlot_unfold, Hsl.
    destruct (String.eqb_spec (prefix w) EmptyString) as [Hp|Hp].
    + unfold try_catch, bind, Storage_clear, ret. rewrite Hs.
      unfold w1. now rewrite (E Hp).
    + unfold try_catch, bind at 1, Storage_for_in. rewrite Hs. unfold bind.
      rewrite (remove_prefixed_native sl (prefix w) _ items quota w Hs).
      unfold ret, w1, kept. f_equal. f_equal. f_equal. apply filter_ext_in.
      intros [k' v'] Hin. simpl. f_equal.
      assert (X : existsb (String.eqb k') (map fst items ++ Storage_prototype_names) = true).
      { apply existsb_exists. exists k'. split; [|apply String.eqb_refl].
        apply in_or_app. left. change k' with (fst (k', v')). now apply in_map. }
      rewrite X. apply andb_true_r.
  - intros k.
    assert (G : get (slot_engine sl) k w1 = getFromSlot sl k w1) by (destruct sl; reflexivity).
    rewrite G, getFromSlot_returns.
    assert (V : read_value sl k w1 = (JNull, None)).
    { unfold read_value.
      assert (S1 : slot_supported sl w1 = true) by (destruct sl; exact Hsl).
      assert (P1 : prefix w1 = prefix w) by (destruct sl; reflexivity).
      rewrite S1, P1. unfold stored_text, Storage_getItem, w1.
      rewrite window_storage_set. unfold kept.
      rewrite alist_get_filter_none; [reflexivity|].
      intros v. simpl. now rewrite starts_with_app. }
    now rewrite V.
Qed.

Lemma native_clear_by_prefix_witness :
  clearSlot LocalSlot (set_prefix "k" store_with_entry)
  = Returns true
      (set_window_storage LocalSlot (NativeStorage [] 64) (set_prefix "k" store_with_entry)).
Proof.
  apply (native_clear_by_prefix LocalSlot [("k", "1")] 64 (set_prefix "k" store_with_entry)).
  - reflexivity.
  - reflexivity.
Defined.

Lemma remove_prefixed_skips (sl : slot) (p : string) (keys : list string) (w : world) :
  forallb (fun n => negb (starts_with p n)) keys = true ->
  remove_prefixed sl p keys w = Returns tt w.
Proof.
  induction keys as [|key rest IH]; simpl; [reflexivity|].
  intros H. apply andb_prop in H. destruct H as [H1 H2].
  apply negb_true_iff in H1. rewrite H1. unfold bind, ret at 1. now apply IH.
Qed.

(** X9. On the cookie emulation [clear()] clears nothing.  Without a prefix
    it calls a [clear] that the emulation does not have: it broadcasts the
    error and returns false.  With a prefix it walks the members of the
    emulation, not the cookies: when no member name starts with the prefix
    it returns true and every cookie is still there. *)
Theorem emulation_clear_keeps_cookies (sl : slot) (len : Z) (w : world) :
  isSupported (slot_engine sl) w = true ->
  window_storage sl w = CookieStorage len ->
  forallb (fun n => negb (starts_with (prefix w) n)) polyfill_member_names
  = negb (String.eqb (prefix w) EmptyString) ->
  exists b w1,
    clearSlot sl w = Returns b w1
    /\ b = negb (String.eqb (prefix w) EmptyString)
    /\ (if b then w1 = w else exists e, w1 = notified (note_of e w) w)
    /\ document_cookie w1 = document_cookie w.
Proof.
  intros Hsup Hs Hm.
  assert (Hsl : slot_supported sl w = true) by (destruct sl; exact Hsup).
  rewrite clearSlot_unfold, Hsl.
  destruct (String.eqb (prefix w) EmptyString); simpl in *.
  - unfold try_catch, bind, Storage_clear, croak. rewrite Hs.
    eexists. eexists. split; [reflexivity|]. split; [reflexivity|].
    split; [eexists; reflexivity|reflexivity].
  - unfold try_catch, bind at 1, Storage_for_in. rewrite Hs. unfold bind.
    rewrite (remove_prefixed_skips sl (prefix w) polyfill_member_names w Hm).
    exists true, w. repeat split.
Qed.

Lemma emulation_clear_keeps_cookies_witness :
  exists b w1,
    clearSlot LocalSlot (set_prefix "app." cookies_only) = Returns b w1
    /\ b = true
    /\ document_cookie w1 = document_cookie (set_prefix "app." cookies_only).
Proof.
  destruct (emulation_clear_keeps_cookies LocalSlot 0 (set_prefix "app." cookies_only))
    as [b [w1 [H1 [H2 [_ H3]]]]].
  - reflexivity.
  - reflexivity.
  - reflexivity.
  - exists b, w1. split; [exact H1|]. split; [exact H2|exact H3].
Defined.

(** ** The two emulations and the one [document.cookie] *)

Lemma stored_text_emulated (sl sl' : slot) (sKey : string) (w : world) :
  emulated sl w -> emulated sl' w -> stored_text sl sKey w = stored_text sl' sKey w.
Proof.
  intros [a Ha] [b Hb]. unfold stored_text, Storage_getItem. now rewrite Ha, Hb.
Qed.

Lemma setInSlot_emulated (sl sl' : slot) (k : string) (v : jsval) (w : world) :
  emulated sl' w -> emulated sl' (outcome_world (setInSlot sl k v w)).
Proof.
  unfold emulated. intros [len H].
  destruct w as [ls ss jar cw bc en hl hs pl ps ord pre mem].
  destruct sl, sl'; simpl in H; subst; run_setter; break_matches; simpl; eauto.
Qed.

Lemma setInSlot_settings (sl sl' : slot) (k : string) (v : jsval) (w : world) :
  let w' := outcome_world (setInSlot sl k v w) in
  slot_supported sl' w' = slot_supported sl' w /\ prefix w' = prefix w.
Proof.
  destruct w as [ls ss jar cw bc en hl hs pl ps ord pre mem].
  destruct sl, sl'; run_setter; break_matches; simpl; auto.
Qed.

Lemma removeFromSlot_emulated (sl sl' : slot) (k : string) (w : world) :
  emulated sl' w -> emulated sl' (outcome_world (removeFromSlot sl k w)).
Proof.
  unfold emulated. intros [len H].
  destruct w as [ls ss jar cw bc en hl hs pl ps ord pre mem].
  destruct sl, sl'; simpl in H; subst;
    unfold removeFromSlot, removeFromLocal, removeFromSession, bind, gets, ret, try_catch,
      croak, Storage_removeItem; simpl; break_matches; simpl; eauto.
Qed.

Lemma removeFromSlot_settings (sl sl' : slot) (k : string) (w : world) :
  let w' := outcome_world (removeFromSlot sl k w) in
  slot_supported sl' w' = slot_supported sl' w /\ prefix w' = prefix w.
Proof.
  destruct w as [ls ss jar cw bc en hl hs pl ps ord pre mem].
  destruct sl, sl';
    unfold removeFromSlot, removeFromLocal, removeFromSession, bind, gets, ret, try_catch,
      croak, Storage_removeItem; simpl; break_matches; simpl; auto.
Qed.

(** X10. On a page where both native-backed engines are cookie emulations
    they are one store: what [set] writes through one engine, [get] returns
    through the other, and [remove] through the other takes it away from
    the first. *)
Theorem emulations_share_cookies (sl : slot) (k : string) (v : jsval) (w : world) :
  emulated sl w -> emulated (other_slot sl) w ->
  isSupported (slot_engine sl) w = true ->
  isSupported (slot_engine (other_slot sl)) w = true ->
  json_value v ->
  backend_accepts (window_storage sl w) (document_cookie w) (prefix w ++ k) (serialized v) ->
  exists w1 w2,
    set (slot_engine sl) k v w = Returns true w1
    /\ get (slot_engine (other_slot sl)) k w1 = Returns v w1
    /\ remove (slot_engine (other_slot sl)) k w1 = Returns true w2
    /\ get (slot_engine sl) k w2 = Returns JNull w2.
Proof.
  intros Hc Hc' Hsup Hsup' Hv Ha.
  assert (Hs : slot_supported sl w = true) by (destruct sl; exact Hsup).
  assert (Hs' : slot_supported (other_slot sl) w = true) by (destruct sl; exact Hsup').
  destruct (setInSlot_stores sl k v _ w Hs (serialized_json v Hv) Ha)
    as [w1 [Hset [Htext [Hs1 Hp1]]]].
  pose proof (setInSlot_emulated sl sl k v w Hc) as C1.
  pose proof (setInSlot_emulated sl (other_slot sl) k v w Hc') as C1'.
  pose proof (setInSlot_settings sl (other_slot sl) k v w) as [S1' _].
  rewrite Hset in C1, C1', S1'. simpl in C1, C1', S1'.
  assert (G1 : getFromSlot (other_slot sl) k w1 = Returns v w1).
  { apply getFromSlot_serialized; [congruence|exact Hv|].
    rewrite Hp1, (stored_text_emulated (other_slot sl) sl _ w1 C1' C1). exact Htext. }
  assert (N : window_storage (other_slot sl) w1 <> NullStorage)
    by (destruct C1' as [len ->]; discriminate).
  destruct (Storage_removeItem_forgets (other_slot sl) (prefix w1 ++ k) w1 N)
    as [w2 [Hrem [Hgone [_ [Hs2 [Hp2 _]]]]]].
  assert (R : removeFromSlot (other_slot sl) k w1 = Returns true w2).
  { rewrite removeFromSlot_unfold, S1', Hs'. unfold try_catch, bind. now rewrite Hrem. }
  pose proof (removeFromSlot_emulated (other_slot sl) sl k w1 C1) as C2.
  pose proof (removeFromSlot_emulated (other_slot sl) (other_slot sl) k w1 C1') as C2'.
  pose proof (removeFromSlot_settings (other_slot sl) sl k w1) as [S2 _].
  rewrite R in C2, C2', S2. simpl in C2, C2', S2.
  assert (G2 : getFromSlot sl k w2 = Returns JNull w2).
  { rewrite getFromSlot_returns. unfold read_value.
    rewrite S2, Hs1, Hp2, (stored_text_emulated sl (other_slot sl) _ w2 C2 C2'), Hgone.
    reflexivity. }
  exists w1, w2. destruct sl; simpl in *; auto.
Qed.

Lemma emulations_share_cookies_witness :
  exists w1 w2,
    set webStorage.local "k" (JNum 1) cookies_only = Returns true w1
    /\ get webStorage.session "k" w1 = Returns (JNum 1) w1
    /\ remove webStorage.session "k" w1 = Returns true w2
    /\ get webStorage.local "k" w2 = Returns JNull w2.
Proof.
  apply (emulations_share_cookies LocalSlot "k" (JNum 1) cookies_only).
  - exists 0%Z. reflexivity.
  - exists 0%Z. reflexivity.
  - reflexivity.
  - reflexivity.
  - constructor.
  - vm_compute. split; [discriminate|]. repeat constructor.
Defined.

(** ** The generic API: which engines it reaches *)

Lemma alist_set_twice {V : Type} (k : string) (v v' : V) (l : list (string * V)) :
  alist_set k v (alist_set k v' l) = alist_set k v l.
Proof.
  induction l as [|[k' x] r IH]; simpl.
  - now rewrite String.eqb_refl.
  - destruct (String.eqb k k') eqn:E; simpl.
    + now rewrite String.eqb_refl.
    + now rewrite E, IH.
Qed.

Lemma recognized_cases (name : string) :
  webStorage.recognized name = true -> name = "local" \/ name = "session" \/ name = "memory".
Proof.
  intros H. apply recognized_iff in H. simpl in H.
  destruct H as [H|[H|[H|[]]]]; auto.
Qed.

Lemma set_loop_memory_only (k : string) (v : jsval) (all : bool) (names : list string) :
  Forall (fun name => webStorage.recognized name = true) names ->
  forall (result : bool) (w : world),
    hasLocalStorage w = false -> hasSessionStorage w = false ->
    webStorage.set_loop names k v all result w
    = if existsb (fun n => String.eqb n "memory") names
      then Returns true (set_ram (alist_set k v (ram w)) w)
      else Returns result w.
Proof.
  induction 1 as [|name rest Hname Hrest IH]; intros result w Hl Hs; [reflexivity|].
  destruct (recognized_cases name Hname) as [ -> | [ -> | -> ] ]; simpl;
    unfold bind at 1, webStorage.lookup, ret at 1; simpl;
    unfold bind at 1, gets at 1; simpl.
  - rewrite Hl. now apply IH.
  - rewrite Hs. now apply IH.
  - unfold bind at 1, setInMemory, bind, modify, ret. simpl.
    destruct all; simpl; [|reflexivity].
    rewrite IH by assumption. simpl. rewrite alist_set_twice.
    destruct (existsb (fun n => String.eqb n "memory") rest); reflexivity.
Qed.

Lemma get_loop_memory_only (k : string) (all : bool) (names : list string) :
  Forall (fun name => webStorage.recognized name = true) names ->
  forall (w : world),
    hasLocalStorage w = false -> hasSessionStorage w = false ->
    webStorage.get_loop names k all w
    = Returns (if existsb (fun n => String.eqb n "memory") names
               then match alist_get k (ram w) with Some v => v | None => JNull end
               else JNull) w.
Proof.
  induction 1 as [|name rest Hname Hrest IH]; intros w Hl Hs; [reflexivity|].
  destruct (recognized_cases name Hname) as [ -> | [ -> | -> ] ]; simpl;
    unfold bind at 1, webStorage.lookup, ret at 1; simpl;
    unfold bind at 1, gets at 1; simpl.
  - rewrite Hl. now apply IH.
  - rewrite Hs. now apply IH.
  - unfold bind at 1, getFromMemory, bind, gets, ret. simpl.
    destruct (negb all || negb (is_null _)) eqn:E; [reflexivity|].
    rewrite IH by assumption.
    apply orb_false_elim in E. destruct E as [_ E]. apply negb_false_iff in E.
    destruct (alist_get k (ram w)) as [x|]; [|now destruct (existsb _ rest)].
    destruct x; try discriminate. now destruct (existsb _ rest).
Qed.

(** X11. When neither native-backed engine is supported (no Storage objects
    and cookies that do not stick) and the order names the memory engine,
    the generic [set] returns true whatever its flag, touching only [ram],
    and the generic [get] then returns the very value, whatever its flag. *)
Theorem generic_falls_back_to_memory (k : string) (v : jsval) (allSet allGet : option bool)
        (w : world) :
  order_recognized w ->
  In "memory" (order w) ->
  hasLocalStorage w = false -> hasSessionStorage w = false ->
  k <> "__proto__" ->
  exists w1,
    webStorage.set_ k v allSet w = Returns true w1
    /\ webStorage.get_ k allGet w1 = Returns v w1
    /\ w1 = set_ram (ram w1) w.
Proof.
  intros Hord Hin Hl Hs _.
  assert (Hm : existsb (fun n => String.eqb n "memory") (order w) = true).
  { apply existsb_exists. exists "memory". split; [exact Hin|reflexivity]. }
  exists (set_ram (alist_set k v (ram w)) w).
  split; [|split; [|reflexivity]].
  - unfold webStorage.set_, bind, gets.
    rewrite (set_loop_memory_only k v _ (order w) Hord _ w Hl Hs). now rewrite Hm.
  - unfold webStorage.get_, bind, gets.
    rewrite (get_loop_memory_only k _ (order (set_ram (alist_set k v (ram w)) w)) Hord);
      [|exact Hl|exact Hs].
    simpl. now rewrite Hm, alist_get_set_same.
Qed.

Lemma generic_falls_back_to_memory_witness :
  let w := service NullStorage NullStorage (mkJar 0 []) in
  exists w1,
    webStorage.set_ "k" JFunction None w = Returns true w1
    /\ webStorage.get_ "k" None w1 = Returns JFunction w1.
Proof.
  intros w.
  destruct (generic_falls_back_to_memory "k" JFunction None None w) as [w1 [H1 [H2 _]]].
  - unfold order_recognized. vm_compute. repeat constructor.
  - vm_compute. auto.
  - vm_compute. reflexivity.
  - vm_compute. reflexivity.
  - discriminate.
  - exists w1. split; assumption.
Defined.

Lemma get_loop_first_supported (k : string) (w : world) (names : list string) :
  Forall (fun name => webStorage.recognized name = true) names ->
  webStorage.get_loop names k false w
  = match first_supported names w with
    | Some (_, e) => get e k w
    | None => Returns JNull w
    end.
Proof.
  induction 1 as [|name rest Hname Hrest IH]; simpl; [reflexivity|].
  destruct (recognized_engine_named name Hname) as [e He].
  unfold webStorage.lookup. rewrite He.
  unfold bind at 1, ret at 1. unfold bind at 1, gets at 1.
  destruct (isSupported e w); [|exact IH].
  unfold bind, ret. destruct (get e k w); reflexivity.
Qed.

Lemma remove_loop_first_supported (k : string) (w : world) (names : list string) :
  Forall (fun name => webStorage.recognized name = true) names ->
  webStorage.remove_loop names k false false w
  = match first_supported names w with
    | Some (_, e) => remove e k w
    | None => Returns false w
    end.
Proof.
  induction 1 as [|name rest Hname Hrest IH]; simpl; [reflexivity|].
  destruct (recognized_engine_named name Hname) as [e He].
  unfold webStorage.lookup. rewrite He.
  unfold bind at 1, ret at 1. unfold bind at 1, gets at 1.
  destruct (isSupported e w); [|exact IH].
  apply bind_ret_orb_false.
Qed.

(** X12. Called with [allEngines = false], the generic [get], [has] and
    [remove] are those of the first supported engine of the order and of no
    other: [get] returns that engine's answer even when it is null and a
    later engine holds the key. *)
Theorem first_engine_only (k : string) (w : world) :
  order_recognized w ->
  match first_supported (order w) w with
  | Some (_, e) =>
      webStorage.get_ k (Some false) w = get e k w
      /\ webStorage.has_ k (Some false) w = has e k w
      /\ webStorage.remove_ k (Some false) w = remove e k w
  | None =>
      webStorage.get_ k (Some false) w = Returns JNull w
      /\ webStorage.has_ k (Some false) w = Returns false w
      /\ webStorage.remove_ k (Some false) w = Returns false w
  end.
Proof.
  intros Hord.
  assert (G : webStorage.get_ k (Some false) w
              = match first_supported (order w) w with
                | Some (_, e) => get e k w
                | None => Returns JNull w
                end)
    by (unfold webStorage.get_, bind, gets; simpl; now apply get_loop_first_supported).
  assert (R : webStorage.remove_ k (Some false) w
              = match first_supported (order w) w with
                | Some (_, e) => remove e k w
                | None => Returns false w
                end)
    by (unfold webStorage.remove_, bind, gets; simpl; now apply remove_loop_first_supported).
  assert (H : webStorage.has_ k (Some false) w
              = match webStorage.get_ k (Some false) w with
                | Returns v w' => Returns (negb (is_null v)) w'
                | Throws e w' => Throws e w'
                end) by reflexivity.
  rewrite H, G, R. clear H G R.
  destruct (first_supported (order w) w) as [[name e]|] eqn:F; [|repeat split].
  split; [reflexivity|]. split; [|reflexivity].
  destruct (first_supported_some _ _ _ _ F) as [_ [He _]].
  destruct (engine_named_cases name e He) as [ [_ ->] | [ [_ ->] | [_ ->] ] ]; reflexivity.
Qed.

Lemma first_engine_only_witness :
  let w := service (NativeStorage [] 100) (NativeStorage [("b", "1")] 100) (mkJar 4096 []) in
  webStorage.get_ "b" (Some false) w = Returns JNull w
  /\ outcome_value (webStorage.get_ "b" None w) = Some (JNum 1).
Proof.
  intros w.
  assert (Hord : order_recognized w) by (unfold order_recognized; vm_compute; repeat constructor).
  pose proof (first_engine_only "b" w Hord) as H.
  assert (F : first_supported (order w) w = Some ("local", webStorage.local)) by reflexivity.
  rewrite F in H. destruct H as [H _].
  split; [rewrite H; vm_compute; reflexivity|vm_compute; reflexivity].
Defined.

(** ** Removal through the generic API *)













(** ** The generic API never raises *)

Lemma setInSlot_keeps_settings (sl : slot) (k : string) (v : jsval) (w : world) :
  exists b w1, setInSlot sl k v w = Returns b w1 /\ settings w1 = settings w /\ ram w1 = ram w.
Proof.
  destruct w as [ls ss jar cw bc en hl hs pl ps ord pre mem].
  destruct sl; run_setter; break_matches; eauto.
Qed.

Lemma Storage_removeItem_keeps_settings (sl : slot) (sKey : string) (w : world) :
  let w1 := outcome_world (Storage_removeItem sl sKey w) in
  settings w1 = settings w /\ ram w1 = ram w.
Proof.
  destruct w as [ls ss jar cw bc en hl hs pl ps ord pre mem].
  destruct sl; unfold Storage_removeItem; simpl; break_matches; split; reflexivity.
Qed.

Lemma removeFromSlot_keeps_settings (sl : slot) (k : string) (w : world) :
  exists b w1,
    removeFromSlot sl k w = Returns b w1 /\ settings w1 = settings w /\ ram w1 = ram w.
Proof.
  rewrite removeFromSlot_unfold. destruct (slot_supported sl w); [|eauto].
  pose proof (Storage_removeItem_keeps_settings sl (prefix w ++ k) w) as H.
  unfold try_catch, bind, ret, croak.
  destruct (Storage_removeItem sl (prefix w ++ k) w); simpl in H; destruct H; eauto.
Qed.

Lemma remove_prefixed_keeps_settings (sl : slot) (p : string) (keys : list string) :
  forall w,
    let w1 := outcome_world (remove_prefixed sl p keys w) in
    settings w1 = settings w /\ ram w1 = ram w.
Proof.
  induction keys as [|key rest IH]; intros w; simpl; [split; reflexivity|].
  unfold bind. destruct (starts_with p key).
  - pose proof (Storage_removeItem_keeps_settings sl key w) as H.
    destruct (Storage_removeItem sl key w) as [[] w'|e w']; simpl in H; [|exact H].
    destruct H as [H1 H2]. destruct (IH w') as [I1 I2]. split; congruence.
  - apply IH.
Qed.

Lemma clearSlot_keeps_settings (sl : slot) (w : world) :
  exists b w1, clearSlot sl w = Returns b w1 /\ settings w1 = settings w /\ ram w1 = ram w.
Proof.
  rewrite clearSlot_unfold. destruct (slot_supported sl w); [|eauto].
  destruct (String.eqb (prefix w) EmptyString).
  - unfold try_catch, bind, ret, croak, Storage_clear.
    destruct (window_storage sl w); eexists; eexists; (split; [reflexivity|]);
      destruct sl; split; reflexivity.
  - unfold try_catch, bind at 1, Storage_for_in.
    assert (K : forall keys, exists b w1,
               match (remove_prefixed sl (prefix w) keys ;;; ret true) w with
               | Returns a w' => Returns a w'
               | Throws e w' => croak e w'
               end = Returns b w1 /\ settings w1 = settings w /\ ram w1 = ram w).
    { intros keys. unfold bind, ret, croak.
      pose proof (remove_prefixed_keeps_settings sl (prefix w) keys w) as H.
      destruct (remove_prefixed sl (prefix w) keys w); simpl in H; destruct H; eauto. }
    destruct (window_storage sl w); apply K.
Qed.

Lemma engine_set_keeps_settings (name : string) (e : engine) (k : string) (v : jsval)
      (w : world) :
  webStorage.engine_named name = Some e ->
  exists b w1, set e k v w = Returns b w1 /\ settings w1 = settings w.
Proof.
  intros He. destruct (engine_named_cases name e He) as [ [_ ->] | [ [_ ->] | [_ ->] ] ].
  - destruct (setInSlot_keeps_settings LocalSlot k v w) as [b [w1 [H1 [H2 _]]]]. eauto.
  - destruct (setInSlot_keeps_settings SessionSlot k v w) as [b [w1 [H1 [H2 _]]]]. eauto.
  - eexists. eexists. split; reflexivity.
Qed.

Lemma engine_remove_keeps_settings (name : string) (e : engine) (k : string) (w : world) :
  webStorage.engine_named name = Some e ->
  exists b w1, remove e k w = Returns b w1 /\ settings w1 = settings w.
Proof.
  intros He. destruct (engine_named_cases name e He) as [ [_ ->] | [ [_ ->] | [_ ->] ] ].
  - destruct (removeFromSlot_keeps_settings LocalSlot k w) as [b [w1 [H1 [H2 _]]]]. eauto.
  - destruct (removeFromSlot_keeps_settings SessionSlot k w) as [b [w1 [H1 [H2 _]]]]. eauto.
  - eexists. eexists. split; reflexivity.
Qed.

Lemma engine_clear_keeps_settings (name : string) (w : world) :
  exists b w1, engine_clear name w = Returns b w1 /\ settings w1 = settings w.
Proof.
  unfold engine_clear.
  destruct (String.eqb name "local");
    [destruct (clearSlot_keeps_settings LocalSlot w) as [b [w1 [H1 [H2 _]]]]; eauto|].
  destruct (String.eqb name "session");
    [destruct (clearSlot_keeps_settings SessionSlot w) as [b [w1 [H1 [H2 _]]]]; eauto|].
  eexists. eexists. split; reflexivity.
Qed.

Lemma set_loop_returns (k : string) (v : jsval) (all : bool) (names : list string) :
  Forall (fun name => webStorage.recognized name = true) names ->
  forall result w, exists b w1,
    webStorage.set_loop names k v all result w = Returns b w1 /\ settings w1 = settings w.
Proof.
  induction 1 as [|name rest Hname Hrest IH]; intros result w; simpl; [eauto|].
  destruct (recognized_engine_named name Hname) as [e He].
  unfold webStorage.lookup. rewrite He.
  unfold bind at 1, ret at 1. unfold bind at 1, gets at 1.
  destruct (isSupported e w); [|apply IH].
  destruct (engine_set_keeps_settings name e k v w He) as [b [w1 [H1 H2]]].
  unfold bind at 1. rewrite H1. destruct all; simpl.
  - destruct (IH (b || result) w1) as [b' [w2 [I1 I2]]]. exists b', w2. split; congruence.
  - eauto.
Qed.

Lemma get_loop_returns (k : string) (all : bool) (names : list string) :
  Forall (fun name => webStorage.recognized name = true) names ->
  forall w, exists v w1,
    webStorage.get_loop names k all w = Returns v w1 /\ settings w1 = settings w.
Proof.
  induction 1 as [|name rest Hname Hrest IH]; intros w; simpl; [eauto|].
  destruct (recognized_engine_named name Hname) as [e He].
  unfold webStorage.lookup. rewrite He.
  unfold bind at 1, ret at 1. unfold bind at 1, gets at 1.
  destruct (isSupported e w); [|apply IH].
  destruct (engine_get_returns name e k w He) as [v [l H1]].
  unfold bind at 1. rewrite H1.
  destruct (negb all || negb (is_null v)).
  - eexists. eexists. split; reflexivity.
  - destruct (IH (set_rootScope_broadcast l w)) as [v' [w2 [I1 I2]]].
    exists v', w2. split; [exact I1|]. rewrite I2. reflexivity.
Qed.

Lemma remove_loop_returns (k : string) (all : bool) (names : list string) :
  Forall (fun name => webStorage.recognized name = true) names ->
  forall result w, exists b w1,
    webStorage.remove_loop names k all result w = Returns b w1 /\ settings w1 = settings w.
Proof.
  induction 1 as [|name rest Hname Hrest IH]; intros result w; simpl; [eauto|].
  destruct (recognized_engine_named name Hname) as [e He].
  unfold webStorage.lookup. rewrite He.
  unfold bind at 1, ret at 1. unfold bind at 1, gets at 1.
  destruct (isSupported e w); [|apply IH].
  destruct (engine_remove_keeps_settings name e k w He) as [b [w1 [H1 H2]]].
  unfold bind at 1. rewrite H1. destruct all; simpl.
  - destruct (IH (b || result) w1) as [b' [w2 [I1 I2]]]. exists b', w2. split; congruence.
  - eauto.
Qed.

Lemma clear_loop_returns (all : bool) (names : list string) :
  Forall (fun name => webStorage.recognized name = true) names ->
  forall result w, exists b w1,
    clear_loop names all result w = Returns b w1 /\ settings w1 = settings w.
Proof.
  induction 1 as [|name rest Hname Hrest IH]; intros result w; simpl; [eauto|].
  destruct (recognized_engine_named name Hname) as [e He].
  unfold webStorage.lookup. rewrite He.
  unfold bind at 1, ret at 1. unfold bind at 1, gets at 1.
  destruct (isSupported e w); [|apply IH].
  destruct (engine_clear_keeps_settings name w) as [b [w1 [H1 H2]]].
  unfold bind at 1. rewrite H1. destruct all; simpl.
  - destruct (IH (b || result) w1) as [b' [w2 [I1 I2]]]. exists b', w2. split; congruence.
  - eauto.
Qed.

(** X14. With an order of engine identifiers (the only kind the order
    setter lets through), the generic [set], [get], [has], [remove] and
    [clear] never raise, whatever the backends do, and they leave the
    order, the prefix, the error name and the support flags as they were. *)
Theorem generic_calls_return (k : string) (v : jsval) (allEngines : option bool) (w : world) :
  order_recognized w ->
  (exists b w1, webStorage.set_ k v allEngines w = Returns b w1 /\ settings w1 = settings w)
  /\ (exists x w1, webStorage.get_ k allEngines w = Returns x w1 /\ settings w1 = settings w)
  /\ (exists b w1, webStorage.has_ k allEngines w = Returns b w1 /\ settings w1 = settings w)
  /\ (exists b w1, webStorage.remove_ k allEngines w = Returns b w1 /\ settings w1 = settings w)
  /\ (exists b w1, webStorage_clear allEngines w = Returns b w1 /\ settings w1 = settings w).
Proof.
  intros Hord.
  assert (G : exists x w1,
             webStorage.get_ k allEngines w = Returns x w1 /\ settings w1 = settings w)
    by apply (get_loop_returns k _ (order w) Hord w).
  split; [apply (set_loop_returns k v _ (order w) Hord)|].
  split; [exact G|].
  split; [|split].
  - destruct G as [x [w1 [G1 G2]]]. exists (negb (is_null x)), w1.
    split; [|exact G2]. unfold webStorage.has_, bind. now rewrite G1.
  - apply (remove_loop_returns k _ (order w) Hord).
  - apply (clear_loop_returns _ (order w) Hord).
Qed.

Lemma generic_calls_return_witness :
  exists b w1,
    webStorage.set_ "k" (JObj [("self", JCircular)]) (Some true) local_store_lost
    = Returns b w1
    /\ settings w1 = settings local_store_lost.
Proof.
  destruct (generic_calls_return "k" (JObj [("self", JCircular)]) (Some true) local_store_lost)
    as [H _]; [|exact H].
  unfold order_recognized. vm_compute. repeat constructor.
Defined.

(** ** The result of a call on all engines *)

Lemma set_loop_all_memory (k : string) (v : jsval) (names : list string) :
  Forall (fun name => webStorage.recognized name = true) names ->
  forall result w, exists b w1,
    webStorage.set_loop names k v true result w = Returns b w1
    /\ (In "memory" names -> b = true /\ alist_get k (ram w1) = Some v)
    /\ (result = true -> b = true)
    /\ (alist_get k (ram w) = Some v -> alist_get k (ram w1) = Some v).
Proof.
  induction 1 as [|name rest Hname Hrest IH]; intros result w.
  - exists result, w. split; [reflexivity|]. split; [intros []|]. auto.
  - destruct (recognized_engine_named name Hname) as [e He].
    simpl. unfold webStorage.lookup. rewrite He.
    unfold bind at 1, ret at 1. unfold bind at 1, gets at 1.
    destruct (isSupported e w) eqn:Hsup.
    + assert (S : exists b0 w0,
                 set e k v w = Returns b0 w0
                 /\ (name = "memory" -> b0 = true /\ alist_get k (ram w0) = Some v)
                 /\ (alist_get k (ram w) = Some v -> alist_get k (ram w0) = Some v)).
      { destruct (engine_named_cases name e He) as [ [-> ->] | [ [-> ->] | [-> ->] ] ].
        - destruct (setInSlot_keeps_settings LocalSlot k v w) as [b0 [w0 [H1 [_ H3]]]].
          exists b0, w0. split; [exact H1|]. split; [discriminate|now rewrite H3].
        - destruct (setInSlot_keeps_settings SessionSlot k v w) as [b0 [w0 [H1 [_ H3]]]].
          exists b0, w0. split; [exact H1|]. split; [discriminate|now rewrite H3].
        - exists true, (set_ram (alist_set k v (ram w)) w).
          split; [reflexivity|]. simpl. rewrite alist_get_set_same. auto. }
      destruct S as [b0 [w0 [S1 [S2 S3]]]].
      unfold bind at 1. rewrite S1. simpl.
      destruct (IH (b0 || result) w0) as [b [w1 [I1 [I2 [I3 I4]]]]].
      exists b, w1. split; [exact I1|]. split; [|split].
      * intros [ -> |Hin]; [|now apply I2].
        destruct (S2 eq_refl) as [-> Hg]. split; [now apply I3|now apply I4].
      * intros ->. apply I3. apply orb_true_r.
      * auto.
    + destruct (IH result w) as [b [w1 [I1 [I2 [I3 I4]]]]].
      exists b, w1. split; [exact I1|]. split; [|split; assumption].
      intros [ -> |Hin]; [|now apply I2].
      destruct (engine_named_cases _ e He) as [ [X _] | [ [X _] | [_ ->] ] ]; discriminate.
Qed.

Lemma remove_loop_all_memory (k : string) (names : list string) :
  Forall (fun name => webStorage.recognized name = true) names ->
  forall result w, exists b w1,
    webStorage.remove_loop names k true result w = Returns b w1
    /\ (In "memory" names -> b = true)
    /\ (result = true -> b = true).
Proof.
  induction 1 as [|name rest Hname Hrest IH]; intros result w.
  - exists result, w. split; [reflexivity|]. split; [intros []|]. auto.
  - destruct (recognized_engine_named name Hname) as [e He].
    simpl. unfold webStorage.lookup. rewrite He.
    unfold bind at 1, ret at 1. unfold bind at 1, gets at 1.
    destruct (isSupported e w) eqn:Hsup.
    + destruct (engine_remove_keeps_settings name e k w He) as [b0 [w0 [S1 _]]].
      assert (S2 : name = "memory" -> b0 = true).
      { intros ->. injection He as <-. now injection S1. }
      unfold bind at 1. rewrite S1. simpl.
      destruct (IH (b0 || result) w0) as [b [w1 [I1 [I2 I3]]]].
      exists b, w1. split; [exact I1|]. split.
      * intros [ -> |Hin]; [|now apply I2]. rewrite (S2 eq_refl) in *. now apply I3.
      * intros ->. apply I3. apply orb_true_r.
    + destruct (IH result w) as [b [w1 [I1 [I2 I3]]]].
      exists b, w1. split; [exact I1|]. split; [|assumption].
      intros [ -> |Hin]; [|now apply I2].
      destruct (engine_named_cases _ e He) as [ [X _] | [ [X _] | [_ ->] ] ]; discriminate.
Qed.

Lemma clear_loop_all_memory (names : list string) :
  Forall (fun name => webStorage.recognized name = true) names ->
  forall result w, exists b w1,
    clear_loop names true result w = Returns b w1
    /\ (In "memory" names -> b = true /\ ram w1 = [])
    /\ (result = true -> b = true)
    /\ (ram w = [] -> ram w1 = []).
Proof.
  induction 1 as [|name rest Hname Hrest IH]; intros result w.
  - exists result, w. split; [reflexivity|]. split; [intros []|]. auto.
  - destruct (recognized_engine_named name Hname) as [e He].
    simpl. unfold webStorage.lookup. rewrite He.
    unfold bind at 1, ret at 1. unfold bind at 1, gets at 1.
    destruct (isSupported e w) eqn:Hsup.
    + assert (S : exists b0 w0,
                 engine_clear name w = Returns b0 w0
                 /\ (name = "memory" -> b0 = true /\ ram w0 = [])
                 /\ (ram w = [] -> ram w0 = [])).
      { destruct (recognized_cases name Hname) as [ -> | [ -> | -> ] ].
        - destruct (clearSlot_keeps_settings LocalSlot w) as [b0 [w0 [H1 [_ H3]]]].
          exists b0, w0. split; [exact H1|]. split; [discriminate|now rewrite H3].
        - destruct (clearSlot_keeps_settings SessionSlot w) as [b0 [w0 [H1 [_ H3]]]].
          exists b0, w0. split; [exact H1|]. split; [discriminate|now rewrite H3].
        - exists true, (set_ram [] w). split; [reflexivity|]. simpl. auto. }
      destruct S as [b0 [w0 [S1 [S2 S3]]]].
      unfold bind at 1. rewrite S1. simpl.
      destruct (IH (b0 || result) w0) as [b [w1 [I1 [I2 [I3 I4]]]]].
      exists b, w1. split; [exact I1|]. split; [|split].
      * intros [ -> |Hin]; [|now apply I2].
        destruct (S2 eq_refl) as [-> Hg]. split; [now apply I3|now apply I4].
      * intros ->. apply I3. apply orb_true_r.
      * auto.
    + destruct (IH result w) as [b [w1 [I1 [I2 [I3 I4]]]]].
      exists b, w1. split; [exact I1|]. split; [|split; assumption].
      intros [ -> |Hin]; [|now apply I2].
      destruct (engine_named_cases _ e He) as [ [X _] | [ [X _] | [_ ->] ] ]; discriminate.
Qed.

(** X15. A call on all engines reports success as soon as one engine
    succeeds, and the memory engine always does.  With the memory engine in
    the order, [set(k, v, true)], [remove(k)] and [clear()] return true
    whatever happened in the native-backed engines; [ram] then holds [v]
    under [k], and is empty after [clear()]. *)
Theorem all_engines_succeed_with_memory (k : string) (v : jsval) (w : world) :
  order_recognized w ->
  In "memory" (order w) ->
  k <> "__proto__" ->
  (exists w1, webStorage.set_ k v (Some true) w = Returns true w1
              /\ alist_get k (ram w1) = Some v)
  /\ (exists w1, webStorage.remove_ k None w = Returns true w1)
  /\ (exists w1, webStorage_clear None w = Returns true w1 /\ ram w1 = []).
Proof.
  intros Hord Hin _. split; [|split].
  - destruct (set_loop_all_memory k v (order w) Hord false w) as [b [w1 [H1 [H2 _]]]].
    destruct (H2 Hin) as [-> Hg]. exists w1. split; [exact H1|exact Hg].
  - destruct (remove_loop_all_memory k (order w) Hord false w) as [b [w1 [H1 [H2 _]]]].
    rewrite (H2 Hin) in H1. exists w1. exact H1.
  - destruct (clear_loop_all_memory (order w) Hord false w) as [b [w1 [H1 [H2 _]]]].
    destruct (H2 Hin) as [-> Hg]. exists w1. split; [exact H1|exact Hg].
Qed.

Lemma all_engines_succeed_with_memory_witness :
  exists w1,
    webStorage_clear None cookies_only = Returns true w1
    /\ ram w1 = []
    /\ List.length (rootScope_broadcast w1) = 2.
Proof.
  destruct (all_engines_succeed_with_memory "k" JNull cookies_only) as [_ [_ [w1 [H1 H2]]]].
  - unfold order_recognized. vm_compute. repeat constructor.
  - vm_compute. auto.
  - discriminate.
  - exists w1. split; [exact H1|]. split; [exact H2|].
    assert (E : w1 = outcome_world (webStorage_clear None cookies_only)) by (now rewrite H1).
    rewrite E. vm_compute. reflexivity.
Defined.

(** ** The probes of the factory *)

Lemma alist_remove_set {V : Type} (k : string) (v : V) (l : list (string * V)) :
  alist_remove k (alist_set k v l) = alist_remove k l.
Proof.
  induction l as [|[k' v'] r IH]; simpl.
  - now rewrite String.eqb_refl.
  - destruct (String.eqb k k') eqn:E; simpl.
    + now rewrite String.eqb_refl.
    + now rewrite E, IH.
Qed.

(** The probe on a Storage object: it fits or not, and the store is left
    without an entry under the probe key. *)
Lemma testLocalStorage_native (items : list (string * string)) (quota : nat) (w : world) :
  window_localStorage w = NativeStorage items quota ->
  let fits := (items_size (alist_set (prefix w ++ testKey) testKey items) <=? quota)%nat in
  testLocalStorage w
  = Returns fits
      (set_window_localStorage
         (NativeStorage (if fits then alist_remove (prefix w ++ testKey) items else items) quota)
         w).
Proof.
  destruct w as [ls ss jar cw bc en hl hs pl ps ord pre mem]. simpl. intros ->.
  unfold testLocalStorage, polyfillLocalStorage, try_catch, bind, gets, modify, ret,
    Storage_setItem, Storage_removeItem. simpl.
  destruct (_ <=? _)%nat; simpl; [|reflexivity].
  now rewrite alist_remove_set.
Qed.

Lemma testSessionStorage_native (items : list (string * string)) (quota : nat) (w : world) :
  window_sessionStorage w = NativeStorage items quota ->
  let fits := (items_size (alist_set (prefix w ++ testKey) testKey items) <=? quota)%nat in
  testSessionStorage w
  = Returns fits
      (set_window_sessionStorage
         (NativeStorage (if fits then alist_remove (prefix w ++ testKey) items else items) quota)
         w).
Proof.
  destruct w as [ls ss jar cw bc en hl hs pl ps ord pre mem]. simpl. intros ->.
  unfold testSessionStorage, polyfillSessionStorage, try_catch, bind, gets, modify, ret,
    Storage_setItem, Storage_removeItem. simpl.
  destruct (_ <=? _)%nat; simpl; [|reflexivity].
  now rewrite alist_remove_set.
Qed.

Lemma testLocalStorage_frame (w : world) :
  exists b w1,
    testLocalStorage w = Returns b w1
    /\ window_sessionStorage w1 = window_sessionStorage w
    /\ prefix w1 = prefix w.
Proof.
  destruct w as [ls ss jar cw bc en hl hs pl ps ord pre mem].
  unfold testLocalStorage, polyfillLocalStorage, try_catch, bind, gets, modify, ret,
    Storage_setItem, Storage_removeItem.
  destruct ls as [items quota|len|]; simpl; break_matches; eauto.
Qed.

Lemma testSessionStorage_frame (w : world) :
  exists b w1,
    testSessionStorage w = Returns b w1
    /\ window_localStorage w1 = window_localStorage w
    /\ hasLocalStorage w1 = hasLocalStorage w.
Proof.
  destruct w as [ls ss jar cw bc en hl hs pl ps ord pre mem].
  unfold testSessionStorage, polyfillSessionStorage, try_catch, bind, gets, modify, ret,
    Storage_setItem, Storage_removeItem.
  destruct ss as [items quota|len|]; simpl; break_matches; eauto.
Qed.

(** X16. What the factory finds out about a Storage object of the page.
    It probes the store under the key [undefinedwebStorage.test.key] (the
    prefix is not initialised yet when the probes run): the engine is
    supported exactly when that entry fits, so a store that is full stays
    unsupported for the life of the service.  The probe leaves the store as
    it found it, except that an entry the store held under the probe key is
    gone. *)
Theorem factory_probes_native_store (items : list (string * string)) (quota : nat)
        (other : storage) (jar : cookie_jar) :
  let probe := "undefined" ++ testKey in
  let fits := (items_size (alist_set probe testKey items) <=? quota)%nat in
  let left := NativeStorage (if fits then alist_remove probe items else items) quota in
  (let w := service (NativeStorage items quota) other jar in
   isSupported webStorage.local w = fits /\ window_localStorage w = left)
  /\ (let w := service other (NativeStorage items quota) jar in
      isSupported webStorage.session w = fits /\ window_sessionStorage w = left)
  /\ (alist_get probe items = None -> left = NativeStorage items quota).
Proof.
  cbv zeta. split; [|split].
  - unfold service, factory, bind, modify. cbv beta iota.
    rewrite (testLocalStorage_native items quota) by reflexivity. cbv beta iota zeta.
    match goal with
    | |- context [testSessionStorage ?x] =>
        destruct (testSessionStorage_frame x) as [s [w2 [H2 [F1 F2]]]]; rewrite H2
    end.
    simpl. simpl in F1, F2. rewrite F1, F2. split; reflexivity.
  - unfold service, factory, bind, modify. cbv beta iota.
    match goal with
    | |- context [testLocalStorage ?x] =>
        destruct (testLocalStorage_frame x) as [l [w1 [H1 [F1 F2]]]]; rewrite H1
    end.
    cbv beta iota. simpl in F1, F2.
    rewrite (testSessionStorage_native items quota) by exact F1.
    simpl. rewrite F2. split; reflexivity.
  - intros Hnone. rewrite (alist_remove_absent _ _ Hnone). now destruct (_ <=? _)%nat.
Qed.

Lemma factory_probes_native_store_witness :
  window_localStorage (service (NativeStorage [("a", "1")] 100) NullStorage (mkJar 4096 []))
  = NativeStorage [("a", "1")] 100.
Proof.
  destruct (factory_probes_native_store [("a", "1")] 100 NullStorage (mkJar 4096 []))
    as [[_ H] [_ K]].
  rewrite H. apply K. reflexivity.
Defined.

(** ** The array utilities on a Storage object *)

Lemma serialized_normal (v : jsval) (o : option string) :
  JSON_stringify v = Normal o -> DOMString o = serialized v.
Proof. intros H. unfold serialized. now rewrite H. Qed.

Lemma setInSlot_native (sl : slot) (k : string) (v : jsval) (o : option string) (w : world) :
  slot_supported sl w = true ->
  JSON_stringify v = Normal o ->
  native_room sl k v w ->
  setInSlot sl k v w = Returns true (written sl k v w).
Proof.
  unfold native_room, written. intros Hs Hv Hr.
  rewrite setInSlot_unfold, Hs.
  unfold try_catch, bind, Storage_member, gets, lift, Storage_setItem, ret.
  destruct (window_storage sl w) as [items quota|len|] eqn:Hw; try contradiction.
  rewrite Hv. cbv beta iota. rewrite Hw. cbv beta iota zeta.
  rewrite (serialized_normal v o Hv).
  apply Nat.leb_le in Hr. now rewrite Hr.
Qed.

Lemma written_facts (sl : slot) (k : string) (v : jsval) (w : world) :
  native_room sl k v w ->
  stored_text sl (prefix w ++ k) (written sl k v w) = Normal (Some (serialized v))
  /\ slot_supported sl (written sl k v w) = slot_supported sl w
  /\ prefix (written sl k v w) = prefix w
  /\ console_warn (written sl k v w) = console_warn w
  /\ (forall v', native_room sl k v' (written sl k v w) <-> native_room sl k v' w).
Proof.
  unfold native_room, written, stored_text, Storage_getItem.
  destruct (window_storage sl w) as [items quota|len|] eqn:Hw; try contradiction.
  intros _. rewrite window_storage_set.
  split; [now rewrite alist_get_set_same|].
  assert (P : prefix (set_window_storage sl
                        (NativeStorage (alist_set (prefix w ++ k) (serialized v) items) quota) w)
              = prefix w) by (destruct sl; reflexivity).
  split; [destruct sl; reflexivity|]. split; [exact P|].
  split; [destruct sl; reflexivity|].
  intros v'. rewrite P, alist_set_twice. reflexivity.
Qed.

Lemma native_room_console (sl : slot) (k : string) (v : jsval) (l : list string) (w : world) :
  native_room sl k v (set_console_warn l w) <-> native_room sl k v w.
Proof. unfold native_room. destruct sl; reflexivity. Qed.

Lemma holds_console (sl : slot) (k : string) (cur : jsval) (l : list string) (w : world) :
  holds sl k cur (set_console_warn l w) <-> holds sl k cur w.
Proof.
  unfold holds. rewrite stored_text_console.
  assert (P : prefix (set_console_warn l w) = prefix w) by reflexivity.
  rewrite P. reflexivity.
Qed.

Lemma get_holds (sl : slot) (k : string) (cur : jsval) (w : world) :
  slot_supported sl w = true -> holds sl k cur w -> getFromSlot sl k w = Returns cur w.
Proof.
  intros Hs [Hv [Ht|[-> Ht]]].
  - now apply getFromSlot_serialized.
  - rewrite getFromSlot_returns. unfold read_value. now rewrite Hs, Ht.
Qed.

(** [add] on a Storage object with room: the deprecation warning, then the
    write. *)
Lemma add_native (sl : slot) (k : string) (v : jsval) (o : option string) (w : world) :
  slot_supported sl w = true ->
  JSON_stringify v = Normal o ->
  native_room sl k v w ->
  let w1 := written sl k v (warned w w) in
  add (slot_engine sl) k v w = Returns true w1
  /\ stored_text sl (prefix w1 ++ k) w1 = Normal (Some (serialized v))
  /\ slot_supported sl w1 = true
  /\ console_warn w1 = addDeprecatedWarning :: console_warn w
  /\ (forall v', native_room sl k v' w1 <-> native_room sl k v' w).
Proof.
  intros Hs Hv Hr. cbv zeta.
  assert (Hr' : native_room sl k v (warned w w)) by (now apply native_room_console).
  assert (Hs' : slot_supported sl (warned w w) = true) by (destruct sl; exact Hs).
  destruct (written_facts sl k v (warned w w) Hr') as [F1 [F2 [F3 [F4 F5]]]].
  split; [|split; [|split; [|split]]].
  - assert (A : add (slot_engine sl) k v w = setInSlot sl k v (warned w w))
      by (destruct sl; reflexivity).
    rewrite A. now apply setInSlot_native with o.
  - rewrite F3. exact F1.
  - now rewrite F2.
  - rewrite F4. reflexivity.
  - intros v'. rewrite F5. apply native_room_console.
Qed.

Lemma json_value_as_array (cur : jsval) : json_value cur -> Forall json_value (as_array cur).
Proof.
  intros H. destruct cur; simpl; try (constructor; [assumption|constructor]).
  - constructor.
  - now inversion H.
Qed.

Lemma json_value_array_app (l : list jsval) (v : jsval) :
  Forall json_value l -> json_value v -> json_value (JArr (l ++ [v])).
Proof. intros Hl Hv. constructor. apply Forall_app. split; [exact Hl|]. now constructor. Qed.

Lemma engine_get_slot (sl : slot) (k : string) (w : world) :
  get (slot_engine sl) k w = getFromSlot sl k w.
Proof. destruct sl; reflexivity. Qed.

Lemma isSupported_slot (sl : slot) (w : world) :
  isSupported (slot_engine sl) w = slot_supported sl w.
Proof. destruct sl; reflexivity. Qed.

Lemma lengthFromEngine_holds (sl : slot) (k : string) (cur : jsval) (w : world) :
  slot_supported sl w = true -> holds sl k cur w ->
  lengthFromEngine k (slot_engine sl) w
  = Returns (if is_null cur then JUndefined else array_length cur) w.
Proof.
  intros Hs Hh. unfold lengthFromEngine, bind.
  rewrite engine_get_slot, (get_holds sl k cur w Hs Hh).
  destruct (is_null cur); reflexivity.
Qed.

(** X17. [push(key, value)] on an engine backed by a Storage object with
    room: what the key holds is taken as an array (no entry as the empty
    array, any other value as the array of that one value), the value is
    appended, and the new length is returned.  [get(key)] then returns the
    longer array and [length(key)] its length.  The call goes through the
    deprecated [add], so it leaves one warning on the console. *)
Theorem array_push_appends (sl : slot) (k : string) (cur v : jsval) (w : world) :
  isSupported (slot_engine sl) w = true ->
  holds sl k cur w ->
  json_value v ->
  native_room sl k (JArr (as_array cur ++ [v])) w ->
  let l := (as_array cur ++ [v])%list in
  exists w1,
    pushToEngine k v (slot_engine sl) w = Returns (JNum (Z.of_nat (List.length l))) w1
    /\ get (slot_engine sl) k w1 = Returns (JArr l) w1
    /\ lengthFromEngine k (slot_engine sl) w1 = Returns (JNum (Z.of_nat (List.length l))) w1
    /\ console_warn w1 = addDeprecatedWarning :: console_warn w.
Proof.
  intros Hsup Hh Hv Hr l. rewrite isSupported_slot in Hsup.
  assert (Hl : json_value (JArr l))
    by (apply json_value_array_app; [apply json_value_as_array; apply Hh|exact Hv]).
  destruct (add_native sl k (JArr l) _ w Hsup (serialized_json _ Hl) Hr)
    as [A1 [A2 [A3 [A4 _]]]].
  set (w1 := written sl k (JArr l) (warned w w)) in *.
  assert (H1 : holds sl k (JArr l) w1) by (split; [exact Hl|now left]).
  exists w1. split; [|split; [|split]].
  - unfold pushToEngine, bind at 1. rewrite engine_get_slot, (get_holds sl k cur w Hsup Hh).
    fold l. unfold bind. rewrite A1. reflexivity.
  - rewrite engine_get_slot. now apply get_holds.
  - rewrite (lengthFromEngine_holds sl k (JArr l) w1 A3 H1). reflexivity.
  - exact A4.
Qed.

Lemma array_push_appends_witness :
  exists w1,
    pushToEngine "q" (JStr "b") webStorage.local
      (written LocalSlot "q" (JArr [JStr "a"]) small_store) = Returns (JNum 2) w1
    /\ get webStorage.local "q" w1 = Returns (JArr [JStr "a"; JStr "b"]) w1.
Proof.
  destruct (array_push_appends LocalSlot "q" (JArr [JStr "a"]) (JStr "b")
              (written LocalSlot "q" (JArr [JStr "a"]) small_store))
    as [w1 [H1 [H2 _]]].
  - reflexivity.
  - split; [repeat constructor|]. left. reflexivity.
  - constructor.
  - vm_compute. repeat constructor.
  - exists w1. split; assumption.
Defined.

(** X18. [unshift(key, value)] on an engine backed by a Storage object with
    room puts the value in front of what the key holds, taken as an array,
    and returns the new length; [get(key)] then returns the longer array. *)
Theorem array_unshift_prepends (sl : slot) (k : string) (cur v : jsval) (w : world) :
  isSupported (slot_engine sl) w = true ->
  holds sl k cur w ->
  json_value v ->
  native_room sl k (JArr (v :: as_array cur)) w ->
  let l := v :: as_array cur in
  exists w1,
    unshiftToEngine k v (slot_engine sl) w = Returns (JNum (Z.of_nat (List.length l))) w1
    /\ get (slot_engine sl) k w1 = Returns (JArr l) w1
    /\ console_warn w1 = addDeprecatedWarning :: console_warn w.
Proof.
  intros Hsup Hh Hv Hr l. rewrite isSupported_slot in Hsup.
  assert (Hl : json_value (JArr l)).
  { constructor. constructor; [exact Hv|]. apply json_value_as_array. apply Hh. }
  destruct (add_native sl k (JArr l) _ w Hsup (serialized_json _ Hl) Hr)
    as [A1 [A2 [A3 [A4 _]]]].
  set (w1 := written sl k (JArr l) (warned w w)) in *.
  exists w1. split; [|split].
  - unfold unshiftToEngine, bind at 1. rewrite engine_get_slot, (get_holds sl k cur w Hsup Hh).
    fold l. unfold bind. rewrite A1. reflexivity.
  - rewrite engine_get_slot. apply get_holds; [exact A3|]. split; [exact Hl|now left].
  - exact A4.
Qed.

Lemma array_unshift_prepends_witness :
  exists w1,
    unshiftToEngine "q" (JNum 7) webStorage.local small_store = Returns (JNum 1) w1
    /\ get webStorage.local "q" w1 = Returns (JArr [JNum 7]) w1.
Proof.
  destruct (array_unshift_prepends LocalSlot "q" JNull (JNum 7) small_store)
    as [w1 [H1 [H2 _]]].
  - reflexivity.
  - split; [constructor|]. right. split; reflexivity.
  - constructor.
  - vm_compute. repeat constructor.
  - exists w1. split; assumption.
Defined.

(** X19. On an engine backed by a Storage object that holds a non-empty
    array under the key, [pop(key)] returns its last element and
    [shift(key)] its first, and the key then holds the rest.  Each call
    leaves one deprecation warning on the console. *)
Theorem array_pop_and_shift (sl : slot) (k : string) (l : list jsval) (x : jsval) (w : world) :
  isSupported (slot_engine sl) w = true ->
  native_room sl k (JArr l) w ->
  (holds sl k (JArr (l ++ [x])) w ->
   exists w1,
     popFromEngine k (slot_engine sl) w = Returns x w1
     /\ get (slot_engine sl) k w1 = Returns (JArr l) w1
     /\ console_warn w1 = addDeprecatedWarning :: console_warn w)
  /\ (holds sl k (JArr (x :: l)) w ->
      exists w1,
        shiftFromEngine k (slot_engine sl) w = Returns x w1
        /\ get (slot_engine sl) k w1 = Returns (JArr l) w1
        /\ console_warn w1 = addDeprecatedWarning :: console_warn w).
Proof.
  intros Hsup Hr. rewrite isSupported_slot in Hsup.
  assert (Rest : json_value (JArr l) ->
                 exists w1,
                   add (slot_engine sl) k (JArr l) w = Returns true w1
                   /\ get (slot_engine sl) k w1 = Returns (JArr l) w1
                   /\ console_warn w1 = addDeprecatedWarning :: console_warn w).
  { intros Hl.
    destruct (add_native sl k (JArr l) _ w Hsup (serialized_json _ Hl) Hr)
      as [A1 [A2 [A3 [A4 _]]]].
    eexists. split; [exact A1|]. split; [|exact A4].
    rewrite engine_get_slot. apply get_holds; [exact A3|]. split; [exact Hl|now left]. }
  split; intros Hh.
  - assert (Hl : json_value (JArr l)).
    { destruct Hh as [Hv _]. inversion Hv as [| | | |? Hall|]; subst.
      constructor. apply Forall_app in Hall. apply Hall. }
    destruct (Rest Hl) as [w1 [R1 [R2 R3]]]. exists w1.
    split; [|split; assumption].
    unfold popFromEngine, bind at 1.
    rewrite engine_get_slot, (get_holds sl k _ w Hsup Hh).
    change (is_null (JArr (l ++ [x]))) with false. cbv beta iota.
    rewrite removelast_last, last_last. unfold bind. now rewrite R1.
  - assert (Hl : json_value (JArr l)).
    { destruct Hh as [Hv _]. inversion Hv as [| | | |? Hall|]; subst.
      constructor. now inversion Hall. }
    destruct (Rest Hl) as [w1 [R1 [R2 R3]]]. exists w1.
    split; [|split; assumption].
    unfold shiftFromEngine, bind at 1.
    rewrite engine_get_slot, (get_holds sl k _ w Hsup Hh).
    change (is_null (JArr (x :: l))) with false. cbv beta iota.
    change (tl (x :: l)) with l. change (hd JUndefined (x :: l)) with x.
    unfold bind. now rewrite R1.
Qed.

Lemma array_pop_and_shift_witness :
  let w := written LocalSlot "q" (JArr [JNum 1; JNum 2]) small_store in
  (exists w1, popFromEngine "q" webStorage.local w = Returns (JNum 2) w1
              /\ get webStorage.local "q" w1 = Returns (JArr [JNum 1]) w1)
  /\ (exists w1, shiftFromEngine "q" webStorage.local w = Returns (JNum 1) w1
                 /\ get webStorage.local "q" w1 = Returns (JArr [JNum 2]) w1).
Proof.
  intros w. split.
  - destruct (array_pop_and_shift LocalSlot "q" [JNum 1] (JNum 2) w) as [[w1 [H1 [H2 _]]] _].
    + reflexivity.
    + vm_compute. repeat constructor.
    + split; [repeat constructor|]. left. reflexivity.
    + exists w1. split; assumption.
  - destruct (array_pop_and_shift LocalSlot "q" [JNum 2] (JNum 1) w) as [_ [w1 [H1 [H2 _]]]].
    + reflexivity.
    + vm_compute. repeat constructor.
    + split; [repeat constructor|]. left. reflexivity.
    + exists w1. split; assumption.
Defined.

Lemma holds_present (sl : slot) (k : string) (cur : jsval) (w : world) :
  holds sl k cur w -> window_storage sl w <> NullStorage.
Proof.
  intros [_ [H|[_ H]]] Hn; unfold stored_text, Storage_getItem in H; rewrite Hn in H;
    discriminate.
Qed.

(** X20. The edges of [pop] and [shift] on a supported native-backed
    engine.  With nothing under the key they return null, [length] returns
    undefined, and nothing is written, not even a warning.  With a value
    that is not an array under the key they return that value and remove the
    key, [length] counting it as 1.  With the empty array under the key (on
    a Storage object with room for it) they return undefined and the key
    still holds the empty array. *)
Theorem array_pop_edges (sl : slot) (k : string) (cur : jsval) (w : world) :
  isSupported (slot_engine sl) w = true ->
  holds sl k cur w ->
  (cur = JNull ->
   popFromEngine k (slot_engine sl) w = Returns JNull w
   /\ shiftFromEngine k (slot_engine sl) w = Returns JNull w
   /\ lengthFromEngine k (slot_engine sl) w = Returns JUndefined w)
  /\ (cur <> JNull -> (forall l, cur <> JArr l) ->
      lengthFromEngine k (slot_engine sl) w = Returns (JNum 1) w
      /\ exists w1,
           popFromEngine k (slot_engine sl) w = Returns cur w1
           /\ shiftFromEngine k (slot_engine sl) w = Returns cur w1
           /\ get (slot_engine sl) k w1 = Returns JNull w1
           /\ console_warn w1 = console_warn w)
  /\ (cur = JArr [] -> native_room sl k (JArr []) w ->
      exists w1,
        popFromEngine k (slot_engine sl) w = Returns JUndefined w1
        /\ shiftFromEngine k (slot_engine sl) w = Returns JUndefined w1
        /\ get (slot_engine sl) k w1 = Returns (JArr []) w1).
Proof.
  intros Hsup Hh. rewrite isSupported_slot in Hsup.
  pose proof (get_holds sl k cur w Hsup Hh) as G.
  pose proof (lengthFromEngine_holds sl k cur w Hsup Hh) as L.
  split; [|split].
  - intros ->. unfold popFromEngine, shiftFromEngine, bind.
    rewrite engine_get_slot, G. repeat split. exact L.
  - intros Hnn Hna.
    assert (N : is_null cur = false) by (destruct cur; try reflexivity; congruence).
    split.
    + rewrite L, N. destruct cur; try reflexivity. exfalso. eapply Hna. reflexivity.
    + destruct (Storage_removeItem_forgets sl (prefix w ++ k) w (holds_present sl k cur w Hh))
        as [w1 [Hrem [Hgone [_ [S1 [P1 _]]]]]].
      assert (R : remove (slot_engine sl) k w = Returns true w1).
      { assert (E : remove (slot_engine sl) k w = removeFromSlot sl k w)
          by (destruct sl; reflexivity).
        rewrite E, removeFromSlot_unfold, Hsup. unfold try_catch, bind. now rewrite Hrem. }
      assert (C : console_warn w1 = console_warn w).
      { unfold Storage_removeItem in Hrem.
        destruct (window_storage sl w); try discriminate.
        - injection Hrem as <-. destruct sl; reflexivity.
        - destruct (_ || _); injection Hrem as <-; [reflexivity|destruct sl; reflexivity]. }
      exists w1.
      assert (Pop : popFromEngine k (slot_engine sl) w = Returns cur w1).
      { unfold popFromEngine, bind at 1. rewrite engine_get_slot, G, N.
        destruct cur; try (unfold bind; now rewrite R). exfalso. eapply Hna. reflexivity. }
      assert (Shift : shiftFromEngine k (slot_engine sl) w = Returns cur w1).
      { unfold shiftFromEngine, bind at 1. rewrite engine_get_slot, G, N.
        destruct cur; try (unfold bind; now rewrite R). exfalso. eapply Hna. reflexivity. }
      split; [exact Pop|]. split; [exact Shift|]. split; [|exact C].
      rewrite engine_get_slot, getFromSlot_returns. unfold read_value.
      now rewrite S1, Hsup, P1, Hgone.
  - intros -> Hr.
    destruct (add_native sl k (JArr []) _ w Hsup (serialized_json _ (proj1 Hh)) Hr)
      as [A1 [A2 [A3 _]]].
    eexists. split; [|split].
    + unfold popFromEngine, bind at 1. rewrite engine_get_slot, G. simpl.
      unfold bind. now rewrite A1.
    + unfold shiftFromEngine, bind at 1. rewrite engine_get_slot, G. simpl.
      unfold bind. now rewrite A1.
    + rewrite engine_get_slot. apply get_holds; [exact A3|]. split; [apply Hh|now left].
Qed.

Lemma array_pop_edges_witness :
  popFromEngine "q" webStorage.local small_store = Returns JNull small_store
  /\ exists w1,
       popFromEngine "q" webStorage.local (written LocalSlot "q" (JNum 5) small_store)
       = Returns (JNum 5) w1
       /\ get webStorage.local "q" w1 = Returns JNull w1.
Proof.
  split.
  - destruct (array_pop_edges LocalSlot "q" JNull small_store) as [H _].
    + reflexivity.
    + split; [constructor|]. right. split; reflexivity.
    + apply H. reflexivity.
  - destruct (array_pop_edges LocalSlot "q" (JNum 5)
                (written LocalSlot "q" (JNum 5) small_store)) as [_ [H _]].
    + reflexivity.
    + split; [constructor|]. left. reflexivity.
    + destruct H as [_ [w1 [H1 [_ [H2 _]]]]]; [discriminate|discriminate|].
      exists w1. split; assumption.
Defined.

Lemma stringify_items_app_none (l : list jsval) (v : jsval) :
  JSON_stringify v = Normal None ->
  stringify_items (l ++ [v]) = stringify_items (l ++ [JNull]).
Proof.
  intros Hv. induction l as [|x r IH]; simpl.
  - now rewrite Hv.
  - now rewrite IH.
Qed.

(** X21. A value without a JSON text of its own (a function, [undefined])
    is pushed as null: [push] reports the new length as for any value, and
    [get(key)] then returns the array with null in the last place. *)
Theorem array_push_stores_null (sl : slot) (k : string) (cur v : jsval) (w : world) :
  isSupported (slot_engine sl) w = true ->
  holds sl k cur w ->
  JSON_stringify v = Normal None ->
  native_room sl k (JArr (as_array cur ++ [JNull])) w ->
  exists w1,
    pushToEngine k v (slot_engine sl) w
    = Returns (JNum (Z.of_nat (List.length (as_array cur)) + 1)) w1
    /\ get (slot_engine sl) k w1 = Returns (JArr (as_array cur ++ [JNull])) w1.
Proof.
  intros Hsup Hh Hv Hr. rewrite isSupported_slot in Hsup.
  set (l := as_array cur) in *.
  assert (Hs : JSON_stringify (JArr (l ++ [v])) = JSON_stringify (JArr (l ++ [JNull])))
    by (now rewrite !JSON_stringify_array, (stringify_items_app_none l v Hv)).
  assert (Hser : serialized (JArr (l ++ [v])) = serialized (JArr (l ++ [JNull])))
    by (unfold serialized; now rewrite Hs).
  assert (Hl : json_value (JArr (l ++ [JNull]))).
  { apply json_value_array_app; [apply json_value_as_array; apply Hh|constructor]. }
  assert (Hr' : native_room sl k (JArr (l ++ [v])) w)
    by (unfold native_room in *; now rewrite Hser).
  assert (Hst : JSON_stringify (JArr (l ++ [v])) = Normal (Some (serialized (JArr (l ++ [JNull])))))
    by (rewrite Hs; now apply serialized_json).
  destruct (add_native sl k (JArr (l ++ [v])) _ w Hsup Hst Hr') as [A1 [A2 [A3 _]]].
  eexists. split.
  - unfold pushToEngine, bind at 1. rewrite engine_get_slot, (get_holds sl k cur w Hsup Hh).
    fold l. unfold bind. rewrite A1. unfold ret. f_equal. f_equal.
    rewrite length_app. simpl. lia.
  - rewrite engine_get_slot. apply get_holds; [exact A3|].
    split; [exact Hl|]. left. now rewrite <- Hser.
Qed.

Lemma array_push_stores_null_witness :
  exists w1,
    pushToEngine "q" JFunction webStorage.local small_store = Returns (JNum 1) w1
    /\ get webStorage.local "q" w1 = Returns (JArr [JNull]) w1.
Proof.
  apply (array_push_stores_null LocalSlot "q" JNull JFunction small_store).
  - reflexivity.
  - split; [constructor|]. right. split; reflexivity.
  - reflexivity.
  - vm_compute. repeat constructor.
Defined.

(** ** Enumeration of a Storage object *)

Lemma alist_get_nth {V : Type} (k : string) (v : V) (l : list (string * V)) :
  alist_get k l = Some v -> exists i, nth_error l i = Some (k, v).
Proof.
  induction l as [|[k' v'] r IH]; simpl; [discriminate|].
  destruct (String.eqb_spec k k') as [->|_].
  - intros H. injection H as ->. now exists 0.
  - intros H. destruct (IH H) as [i Hi]. now exists (S i).
Qed.

(** X22. [key] and [length] of an engine backed by a Storage object show
    the store as it is, not the engine's view of it: after [set(k, v)] the
    name that [key] enumerates is the prefixed one, [prefix + k], and
    [length()] counts every entry of the store, whatever its prefix. *)
Theorem native_key_is_prefixed (sl : slot) (k : string) (v : jsval) (o : option string)
        (items : list (string * string)) (quota : nat) (w : world) :
  isSupported (slot_engine sl) w = true ->
  window_storage sl w = NativeStorage items quota ->
  JSON_stringify v = Normal o ->
  native_room sl k v w ->
  exists w1 index,
    set (slot_engine sl) k v w = Returns true w1
    /\ key (slot_engine sl) index w1 = Returns (JStr (prefix w ++ k)) w1
    /\ length (slot_engine sl) w1
       = Returns (Z.of_nat (List.length items)
                  + (if alist_mem (prefix w ++ k) items then 0 else 1))%Z w1
    /\ length (slot_engine sl) w = Returns (Z.of_nat (List.length items)) w.
Proof.
  intros Hsup Hw Hv Hr. rewrite isSupported_slot in Hsup.
  pose proof (setInSlot_native sl k v o w Hsup Hv Hr) as Hset.
  set (items1 := alist_set (prefix w ++ k) (serialized v) items).
  assert (W1 : written sl k v w = set_window_storage sl (NativeStorage items1 quota) w)
    by (unfold written; now rewrite Hw).
  rewrite W1 in Hset.
  destruct (alist_get_nth (prefix w ++ k) (serialized v) items1) as [i Hi];
    [apply alist_get_set_same|].
  assert (S1 : slot_supported sl (set_window_storage sl (NativeStorage items1 quota) w) = true)
    by (destruct sl; exact Hsup).
  assert (K : forall w' n, key (slot_engine sl) n w'
                           = if slot_supported sl w' then Storage_key sl n w'
                             else Returns JNull w').
  { intros w' n. destruct sl; simpl; [unfold keyInLocal|unfold keyInSession];
      unfold bind, gets; simpl;
      match goal with |- context [if ?b then _ else _] => destruct b end; reflexivity. }
  assert (L : forall w', length (slot_engine sl) w'
                         = if slot_supported sl w' then Storage_length sl w'
                           else Returns 0%Z w').
  { intros w'. destruct sl; simpl; [unfold lengthInLocal|unfold lengthInSession];
      unfold bind, gets; simpl;
      match goal with |- context [if ?b then _ else _] => destruct b end; reflexivity. }
  exists (set_window_storage sl (NativeStorage items1 quota) w), (Z.of_nat i).
  split; [destruct sl; exact Hset|]. split; [|split].
  - rewrite K, S1. unfold Storage_key. rewrite window_storage_set.
    destruct (Z.ltb_spec (Z.of_nat i) 0); [lia|]. now rewrite Nat2Z.id, Hi.
  - rewrite L, S1. unfold Storage_length. rewrite window_storage_set. f_equal.
    unfold items1. rewrite <- (length_map fst (alist_set _ _ items)), alist_keys_set.
    destruct (alist_mem (prefix w ++ k) items).
    + rewrite length_map. lia.
    + rewrite length_app, length_map. simpl. lia.
  - rewrite L, Hsup. unfold Storage_length. now rewrite Hw.
Qed.

Lemma native_key_is_prefixed_witness :
  exists w1 index,
    set webStorage.local "k" (JNum 1) (set_prefix "app." small_store) = Returns true w1
    /\ key webStorage.local index w1 = Returns (JStr "app.k") w1.
Proof.
  destruct (native_key_is_prefixed LocalSlot "k" (JNum 1) (Some "1") [] 64
              (set_prefix "app." small_store)) as [w1 [i [H1 [H2 _]]]].
  - reflexivity.
  - reflexivity.
  - reflexivity.
  - vm_compute. repeat constructor.
  - exists w1, i. split; assumption.
Defined.

(** ** The error name *)

(** X23. [errorName(n)] with a string returns the name in use so far and
    makes [n] the name under which the following errors are broadcast;
    with any other kind of argument it returns false and the name stays. *)
Theorem errorName_names_broadcasts (n : string) (sl : slot) (k : string) (v : jsval)
        (err : jserror) (w : world) :
  isSupported (slot_engine sl) w = true ->
  JSON_stringify v = Abrupt err ->
  (exists text,
     (webStorage.errorName_ (Some (JStr n)) ;;; set (slot_engine sl) k v) w
     = Returns false (set_rootScope_broadcast ((n, text) :: rootScope_broadcast w)
                        (set_errorName n w)))
  /\ webStorage.errorName_ (Some (JStr n)) w = Returns (JStr (errorName w)) (set_errorName n w)
  /\ webStorage.errorName_ None (set_errorName n w) = Returns (JStr n) (set_errorName n w)
  /\ (forall x, (forall s, x <> JStr s) ->
                webStorage.errorName_ (Some x) w = Returns (JBool false) w).
Proof.
  intros Hsup Hv. rewrite isSupported_slot in Hsup.
  split; [|split; [reflexivity|split; [reflexivity|]]].
  - assert (Hs : slot_supported sl (set_errorName n w) = true) by (destruct sl; exact Hsup).
    destruct (setInSlot_unserializable sl k v err (set_errorName n w) Hs Hv) as [e He].
    eexists. unfold webStorage.errorName_, bind, gets, modify, ret.
    assert (E : set (slot_engine sl) k v (set_errorName n w)
                = setInSlot sl k v (set_errorName n w)) by (destruct sl; reflexivity).
    rewrite E, He. reflexivity.
  - intros x Hx. unfold webStorage.errorName_, bind, gets, ret.
    destruct x; try reflexivity. now elim (Hx s).
Qed.

Lemma errorName_names_broadcasts_witness :
  exists text w1,
    (webStorage.errorName_ (Some (JStr "oops")) ;;;
     set webStorage.local "k" (JObj [("self", JCircular)])) small_store
    = Returns false w1
    /\ rootScope_broadcast w1 = [("oops", text)].
Proof.
  destruct (errorName_names_broadcasts "oops" LocalSlot "k" (JObj [("self", JCircular)])
              (TypeError "Converting circular structure to JSON") small_store)
    as [[text H] _].
  - reflexivity.
  - reflexivity.
  - exists text. eexists. split; [exact H|]. reflexivity.
Defined.

(** ** The polyfill status after the factory *)

Lemma polyfill_status_unset (x : jsval) (w : world) :
  (isLocalStoragePolyfilled w = false -> isLocalPolyfilled x w = Returns false w)
  /\ (isSessionStoragePolyfilled w = false -> isSessionPolyfilled x w = Returns false w).
Proof.
  unfold isLocalPolyfilled, isSessionPolyfilled, bind, gets, ret.
  split; intros ->; rewrite andb_false_r; reflexivity.
Qed.

Lemma testLocalStorage_installs (w : world) :
  window_localStorage w = NullStorage ->
  emulated LocalSlot (outcome_world (testLocalStorage w)).
Proof.
  destruct w as [ls ss jar cw bc en hl hs pl ps ord pre mem]. simpl. intros ->.
  unfold emulated, testLocalStorage, polyfillLocalStorage, try_catch, bind, gets, modify, ret,
    Storage_setItem, Storage_removeItem. simpl.
  break_matches; simpl; eauto.
Qed.

Lemma testSessionStorage_installs (w : world) :
  window_sessionStorage w = NullStorage ->
  emulated SessionSlot (outcome_world (testSessionStorage w)).
Proof.
  destruct w as [ls ss jar cw bc en hl hs pl ps ord pre mem]. simpl. intros ->.
  unfold emulated, testSessionStorage, polyfillSessionStorage, try_catch, bind, gets, modify, ret,
    Storage_setItem, Storage_removeItem. simpl.
  break_matches; simpl; eauto.
Qed.

(** X24. Whatever the page, the service as the factory hands it out answers
    false to [local.isPolyfilled(..)] and [session.isPolyfilled(..)] for
    any argument, and the call changes nothing: also on a page without
    [window.localStorage], where the local engine is the cookie emulation
    the factory has just installed. *)
Theorem isPolyfilled_false_after_factory (local session : storage) (jar : cookie_jar)
        (x : jsval) :
  let w := service local session jar in
  invoke "isPolyfilled" (isPolyfilled webStorage.local) x w = Returns false w
  /\ invoke "isPolyfilled" (isPolyfilled webStorage.session) x w = Returns false w
  /\ (local = NullStorage -> emulated LocalSlot w)
  /\ (session = NullStorage -> emulated SessionSlot w).
Proof.
  cbv zeta.
  destruct (service_settings local session jar) as [Fl [Fs _]].
  destruct (polyfill_status_unset x (service local session jar)) as [Pl Ps].
  split; [exact (Pl Fl)|]. split; [exact (Ps Fs)|]. split.
  - intros ->. unfold service, factory, bind, modify. cbv beta iota.
    match goal with
    | |- context [testLocalStorage ?y] =>
        pose proof (testLocalStorage_installs y eq_refl) as I;
        destruct (testLocalStorage y) as [l w1|] eqn:T;
        [|destruct (testLocalStorage_returns y) as [? [? X]]; congruence]
    end.
    cbv beta iota. simpl in I.
    match goal with
    | |- context [testSessionStorage ?y] =>
        destruct (testSessionStorage_frame y) as [s [w2 [H2 [F1 _]]]]; rewrite H2
    end.
    simpl. simpl in F1. unfold emulated in *. simpl in *. now rewrite F1.
  - intros ->. unfold service, factory, bind, modify. cbv beta iota.
    match goal with
    | |- context [testLocalStorage ?y] =>
        destruct (testLocalStorage_frame y) as [l [w1 [H1 [F1 _]]]]; rewrite H1
    end.
    cbv beta iota. simpl in F1.
    match goal with
    | |- context [testSessionStorage ?y] =>
        pose proof (testSessionStorage_installs y F1) as I;
        destruct (testSessionStorage y) as [s w2|] eqn:T;
        [|destruct (testSessionStorage_returns y) as [? [? X]]; congruence]
    end.
    simpl. simpl in I. exact I.
Qed.

Lemma isPolyfilled_false_after_factory_witness :
  emulated LocalSlot cookies_only
  /\ invoke "isPolyfilled" (isPolyfilled webStorage.local) (JBool true) cookies_only
     = Returns false cookies_only.
Proof.
  destruct (isPolyfilled_false_after_factory NullStorage NullStorage (mkJar 4096 []) (JBool true))
    as [H1 [_ [H3 _]]].
  split; [apply H3; reflexivity|exact H1].
Defined.

(** ** A write and the other keys *)

Lemma Storage_setItem_others (sl : slot) (sKey other text : string) (w : world) :
  other <> sKey ->
  stored_text sl other (outcome_world (Storage_setItem sl sKey text w)) = stored_text sl other w.
Proof.
  intros Hne.
  assert (He : escape other <> escape sKey)
    by (intros H; apply Hne; now apply escape_injective).
  unfold Storage_setItem, stored_text, Storage_getItem.
  destruct (window_storage sl w) as [items quota|len|] eqn:Hw.
  - destruct (_ <=? _)%nat; simpl; [|now rewrite Hw].
    rewrite window_storage_set. now rewrite (alist_get_set_other sKey other text items Hne).
  - destruct (String.eqb sKey EmptyString); simpl; [now rewrite Hw|].
    assert (J : forall jar0 : cookie_jar,
               alist_get (escape other)
                 (cookies (cookie_assign (escape sKey) (escape text) jar0))
               = alist_get (escape other) (cookies jar0)).
    { intros jar0. unfold cookie_assign. destruct (_ <=? _)%nat; [|reflexivity].
      simpl. now apply alist_get_set_other. }
    destruct (cookie_equals_matches _); simpl.
    + rewrite window_storage_set.
      assert (D : document_cookie
                    (set_window_storage sl (CookieStorage z)
                       (set_document_cookie
                          (cookie_assign (escape sKey) (escape text) (document_cookie w)) w))
                  = cookie_assign (escape sKey) (escape text) (document_cookie w))
        by (destruct sl; reflexivity).
      rewrite D. unfold cookie_hasOwnProperty, alist_mem. rewrite J.
      destruct (_ || _); reflexivity.
    + assert (W : window_storage sl
                    (set_document_cookie
                       (cookie_assign (escape sKey) (escape text) (document_cookie w)) w)
                  = CookieStorage len) by (destruct sl; exact Hw).
      rewrite W. simpl. unfold cookie_hasOwnProperty, alist_mem. rewrite J.
      destruct (_ || _); reflexivity.
  - simpl. now rewrite Hw.
Qed.

(** X25. [set(k, v)] on a native-backed engine, whether it succeeds or
    fails, leaves every other key of that engine reading as before. *)
Theorem native_set_keeps_other_keys (sl : slot) (k k0 : string) (v : jsval) (w : world) :
  k0 <> k ->
  outcome_value (get (slot_engine sl) k0 (outcome_world (set (slot_engine sl) k v w)))
  = outcome_value (get (slot_engine sl) k0 w).
Proof.
  intros Hne.
  assert (E : set (slot_engine sl) k v w = setInSlot sl k v w) by (destruct sl; reflexivity).
  rewrite E, !engine_get_slot, !getFromSlot_returns. simpl. f_equal. f_equal.
  pose proof (setInSlot_settings sl sl k v w) as [S P]. cbv zeta in S, P.
  apply read_value_stored; [exact S|exact P|].
  rewrite setInSlot_unfold. destruct (slot_supported sl w); [|reflexivity].
  unfold try_catch, bind at 1, Storage_member.
  destruct (window_storage sl w) eqn:Hw; try (unfold croak; simpl; apply stored_text_broadcast).
  - unfold bind at 1, gets at 1. unfold bind at 1, lift.
    destruct (JSON_stringify v) as [o|err];
      [|unfold throw, croak; simpl; apply stored_text_broadcast].
    unfold ret at 1. unfold bind, ret.
    assert (Hp : prefix w ++ k0 <> prefix w ++ k)
      by (intros H; apply Hne; now apply (string_app_inv_head (prefix w))).
    pose proof (Storage_setItem_others sl (prefix w ++ k) (prefix w ++ k0) (DOMString o) w Hp)
      as Ho.
    destruct (Storage_setItem sl (prefix w ++ k) (DOMString o) w) as [[] w1|e w1]; simpl in *.
    + exact Ho.
    + unfold croak. simpl. now rewrite stored_text_broadcast.
  - unfold bind at 1, gets at 1. unfold bind at 1, lift.
    destruct (JSON_stringify v) as [o|err];
      [|unfold throw, croak; simpl; apply stored_text_broadcast].
    unfold ret at 1. unfold bind, ret.
    assert (Hp : prefix w ++ k0 <> prefix w ++ k)
      by (intros H; apply Hne; now apply (string_app_inv_head (prefix w))).
    pose proof (Storage_setItem_others sl (prefix w ++ k) (prefix w ++ k0) (DOMString o) w Hp)
      as Ho.
    destruct (Storage_setItem sl (prefix w ++ k) (DOMString o) w) as [[] w1|e w1]; simpl in *.
    + exact Ho.
    + unfold croak. simpl. now rewrite stored_text_broadcast.
Qed.

Lemma native_set_keeps_other_keys_witness :
  outcome_value (get webStorage.local "k"
                   (outcome_world (set webStorage.local "j" long_text store_with_entry)))
  = outcome_value (get webStorage.local "k" store_with_entry).
Proof.
  apply (native_set_keeps_other_keys LocalSlot "j" "k" long_text store_with_entry).
  discriminate.
Defined.
